(** * Subtitle parsing and alignment of [mainUIexe2.py]

    A shallow embedding of the three algorithmic functions of the program,
    [parse_srt], [time_to_ms] and [align_subtitles], together with the parts
    of Python they rest on ([str.split], [str.strip], [str.join],
    [str.ljust], slicing, [int] on strings and the fragment of [re] that
    [timecode_pattern] uses).

    Conventions.
    - A Python [str] is a list of code points ([N]).
    - Python integers are unbounded: [Z]. The threshold is an integer (the
      program calls [align_subtitles] with the default, 500).
    - A call that raises returns [None]; the three [while] loops of
      [align_subtitles] are run by an explicit loop combinator that counts
      iterations, with a separate outcome for an exhausted budget.
    - The Unicode character database (which code points are decimal digits,
      which are white space) is an interface, [UnicodeData]; every statement
      holds for every database with the four laws listed there, and
      [ascii_db] is the instance used to evaluate examples.
    - The interpreter runs with its defaults: [int] raises on a string with
      more than 4300 decimal digits (sys.get_int_max_str_digits(), which the
      program never changes). *)

From Stdlib Require Import ZArith NArith Lia String Ascii.
From stdpp Require Import base tactics numbers option list.

Local Open Scope string_scope.
Local Open Scope list_scope.
Local Open Scope Z_scope.

(** ** Text *)

Definition char := N.
Definition str := list char.

(** ASCII literals as Python strings. *)
Definition py (s : string) : str := N_of_ascii <$> list_ascii_of_string s.
Arguments py s%_string.

Definition c_nl : char := 10%N.
Definition c_space : char := 32%N.
Definition c_plus : char := 43%N.
Definition c_comma : char := 44%N.
Definition c_minus : char := 45%N.
Definition c_dot : char := 46%N.
Definition c_zero : char := 48%N.
Definition c_colon : char := 58%N.
Definition c_gt : char := 62%N.
Definition c_underscore : char := 95%N.

(** The two tables of the Unicode database the program consults through
    [\d], [\s], [str.strip] and [int]: [to_decimal] is Py_UNICODE_TODECIMAL,
    [is_space] is Py_UNICODE_ISSPACE. The laws fix both tables on ASCII and
    record that a decimal digit has a value below ten and is not white
    space. *)
Class UnicodeData := {
  to_decimal : char -> option Z;
  is_space : char -> bool;
  to_decimal_ascii : forall c : char, (c < 128)%N ->
    to_decimal c =
      if ((48 <=? c) && (c <=? 57))%N then Some (Z.of_N c - 48) else None;
  to_decimal_range : forall (c : char) (d : Z),
    to_decimal c = Some d -> 0 <= d <= 9;
  is_space_ascii : forall c : char, (c < 128)%N ->
    is_space c = (((9 <=? c) && (c <=? 13)) || ((28 <=? c) && (c <=? 32)))%N;
  decimal_not_space : forall (c : char) (d : Z),
    to_decimal c = Some d -> is_space c = false
}.

(** The database restricted to ASCII. *)
Definition ascii_to_decimal (c : char) : option Z :=
  if ((48 <=? c) && (c <=? 57))%N then Some (Z.of_N c - 48) else None.

Definition ascii_is_space (c : char) : bool :=
  (((9 <=? c) && (c <=? 13)) || ((28 <=? c) && (c <=? 32)))%N.

Lemma ascii_to_decimal_range (c : char) (d : Z) :
  ascii_to_decimal c = Some d -> 0 <= d <= 9.
Proof.
  unfold ascii_to_decimal.
  destruct ((48 <=? c) && (c <=? 57))%N eqn:E; [|discriminate].
  intros Hd. injection Hd as <-. apply andb_prop in E as [E1 E2].
  apply N.leb_le in E1, E2. lia.
Qed.

Lemma ascii_decimal_not_space (c : char) (d : Z) :
  ascii_to_decimal c = Some d -> ascii_is_space c = false.
Proof.
  unfold ascii_to_decimal, ascii_is_space.
  destruct ((48 <=? c) && (c <=? 57))%N eqn:E; [|discriminate].
  intros _. apply andb_prop in E as [E1 E2].
  apply N.leb_le in E1, E2.
  apply orb_false_iff; split; apply andb_false_iff; right; apply N.leb_gt; lia.
Qed.

#[export] Instance ascii_db : UnicodeData :=
  {| to_decimal := ascii_to_decimal;
     is_space := ascii_is_space;
     to_decimal_ascii := fun c _ => eq_refl;
     to_decimal_range := ascii_to_decimal_range;
     is_space_ascii := fun c _ => eq_refl;
     decimal_not_space := ascii_decimal_not_space |}.

(** ** Regular expressions

    The fragment of [re] that [timecode_pattern] uses: character classes,
    literals, greedy repetition of a class, sequence and numbered groups. *)

Inductive cclass :=
  | Digit                      (* \d *)
  | Space                      (* \s *)
  | OneOf (cs : list char).    (* [...] *)

Inductive regex :=
  | Lit (c : char)
  | Cls (k : cclass)
  | Plus (k : cclass)
  | Star (k : cclass)
  | Seq (r1 r2 : regex)
  | Group (n : nat) (r : regex).

Declare Scope regex_scope.
Delimit Scope regex_scope with re.
Bind Scope regex_scope with regex.
Infix "⋅" := Seq (at level 41, right associativity) : regex_scope.

(** ** Python string operations *)

Section Python.
Context `{UnicodeData}.

Definition is_digit (c : char) : bool := bool_decide (is_Some (to_decimal c)).

(** [s.startswith(p)] *)
Fixpoint startswith (p s : str) : bool :=
  match p, s with
  | [], _ => true
  | a :: p', b :: s' => (a =? b)%N && startswith p' s'
  | _ :: _, [] => false
  end.

(** [s.find(sep)]: index of the leftmost occurrence. *)
Fixpoint find (sep s : str) : option nat :=
  if startswith sep s then Some 0%nat
  else match s with
       | [] => None
       | _ :: s' => S <$> find sep s'
       end.

(** [s.split(sep)] for a non-empty separator: cut at the leftmost occurrence
    and go on behind it. At most [length s] separators fit in [s]. *)
Fixpoint split_loop (n : nat) (sep s : str) : list str :=
  match n with
  | O => [s]
  | S n' =>
    match find sep s with
    | None => [s]
    | Some i => take i s :: split_loop n' sep (drop (i + length sep) s)
    end
  end.

Definition split (sep s : str) : list str := split_loop (length s) sep s.

(** [s.strip()] *)
Fixpoint lstrip_with (p : char -> bool) (s : str) : str :=
  match s with
  | c :: s' => if p c then lstrip_with p s' else s
  | [] => []
  end.

Definition strip_with (p : char -> bool) (s : str) : str :=
  reverse (lstrip_with p (reverse (lstrip_with p s))).

Definition strip (s : str) : str := strip_with is_space s.

(** [sep.join(l)] *)
Fixpoint join (sep : str) (l : list str) : str :=
  match l with
  | [] => []
  | [x] => x
  | x :: l' => x ++ sep ++ join sep l'
  end.

(** [s.replace(old, new)] for one-character [old] and [new]. *)
Definition replace (old new : char) (s : str) : str :=
  (fun c => if (c =? old)%N then new else c) <$> s.

(** [s.ljust(width, fill)] *)
Definition ljust (width : nat) (fill : char) (s : str) : str :=
  s ++ replicate (width - length s) fill.

(** ** [int] on a string, base ten

    White space is stripped on both sides, one sign is allowed, and single
    underscores may separate digits. Below 127 only the six C white-space
    characters count as white space; above, the Unicode table does. A
    string with more than [int_max_str_digits] digits raises: leading zeros
    count, the sign, the underscores and the white space do not. *)

Definition int_space (c : char) : bool :=
  if (c <? 127)%N then ((c =? 32) || ((9 <=? c) && (c <=? 13)))%N
  else is_space c.

(** [sys.get_int_max_str_digits()], at its default. *)
Definition int_max_str_digits : Z := 4300.

(** The number of digits of a string. *)
Definition digit_count (s : str) : Z :=
  Z.of_nat (length (List.filter is_digit s)).

Fixpoint int_digits (acc : Z) (after_underscore : bool) (s : str) : option Z :=
  match s with
  | [] => if after_underscore then None else Some acc
  | c :: s' =>
    if (c =? c_underscore)%N then
      if after_underscore then None else int_digits acc true s'
    else
      match to_decimal c with
      | Some d => int_digits (acc * 10 + d) false s'
      | None => None
      end
  end.

Definition int_unsigned (s : str) : option Z :=
  match s with
  | [] => None
  | c :: s' =>
    d ← to_decimal c;
    value ← int_digits d false s';
    if bool_decide (digit_count s <= int_max_str_digits) then Some value
    else None
  end.

Definition int (s : str) : option Z :=
  match strip_with int_space s with
  | [] => None
  | c :: s' =>
    if (c =? c_minus)%N then Z.opp <$> int_unsigned s'
    else if (c =? c_plus)%N then int_unsigned s'
    else int_unsigned (c :: s')
  end.

(** ** Matching

    By backtracking, longest repetition first, as [re.match] does (anchored
    at the start only). *)

Definition in_class (k : cclass) (c : char) : bool :=
  match k with
  | Digit => is_digit c
  | Space => is_space c
  | OneOf cs => bool_decide (c ∈ cs)
  end.

Definition captures := list (nat * str).

Section Matcher.
Context {R : Type}.

Fixpoint greedy (p : char -> bool) (s : str) (k : str -> option R) : option R :=
  match s with
  | c :: s' =>
    if p c then
      match greedy p s' k with
      | Some r => Some r
      | None => k s
      end
    else k s
  | [] => k []
  end.

Fixpoint rmatch (r : regex) (s : str) (g : captures)
    (k : str -> captures -> option R) : option R :=
  match r with
  | Lit c =>
    match s with
    | c' :: s' => if (c' =? c)%N then k s' g else None
    | [] => None
    end
  | Cls cl =>
    match s with
    | c' :: s' => if in_class cl c' then k s' g else None
    | [] => None
    end
  | Plus cl =>
    match s with
    | c' :: s' =>
      if in_class cl c' then greedy (in_class cl) s' (fun s'' => k s'' g)
      else None
    | [] => None
    end
  | Star cl => greedy (in_class cl) s (fun s' => k s' g)
  | Seq r1 r2 => rmatch r1 s g (fun s' g' => rmatch r2 s' g' k)
  | Group n r1 =>
    rmatch r1 s g
      (fun s' g' => k s' ((n, take (length s - length s') s) :: g'))
  end.

End Matcher.

(** [pattern.match(s)] *)
Definition re_match (r : regex) (s : str) : option captures :=
  rmatch r s [] (fun _ g => Some g).

(** [pattern.fullmatch(s)] *)
Definition re_fullmatch (r : regex) (s : str) : option captures :=
  rmatch r s [] (fun rest g => match rest with [] => Some g | _ => None end).

(** [m.group(n)] for a group that took part in the match. *)
Fixpoint group (n : nat) (g : captures) : str :=
  match g with
  | [] => []
  | (i, s) :: g' => if (i =? n)%nat then s else group n g'
  end.

(** [\d+:\d+:\d+] *)
Definition hms : regex :=
  (Plus Digit ⋅ Lit c_colon ⋅ Plus Digit ⋅ Lit c_colon ⋅ Plus Digit)%re.

(** [(\d+:\d+:\d+)[,.](\d+)\s*-->\s*(\d+:\d+:\d+)[,.](\d+)] *)
Definition timecode_pattern : regex :=
  (Group 1 hms ⋅ Cls (OneOf [c_comma; c_dot]) ⋅ Group 2 (Plus Digit) ⋅
   Star Space ⋅ Lit c_minus ⋅ Lit c_minus ⋅ Lit c_gt ⋅ Star Space ⋅
   Group 3 hms ⋅ Cls (OneOf [c_comma; c_dot]) ⋅ Group 4 (Plus Digit))%re.

(** ** [parse_srt] *)

Definition entry := (str * str)%type.

(** The f-string of line 73: group 1, a comma, and group 2 padded with
    zeros to three characters and cut to three. *)
Definition start_of (g : captures) : str :=
  group 1 g ++ [c_comma] ++ take 3 (ljust 3 c_zero (group 2 g)).

(** Lines 69-75, the body of the loop over the blocks: what one block
    appends to [entries]. *)
Definition block_entries (block : str) : list entry :=
  let lines := split [c_nl] block in
  if (3 <=? length lines)%nat then
    match lines !! 1%nat ≫= re_match timecode_pattern with
    | Some time_match =>
      let start := start_of time_match in
      let text := replace c_nl c_space (join [c_space] (drop 2 lines)) in
      [(start, text)]
    | None => []
    end
  else [].

(** Lines 68-75: the loop over the blocks, appending to [entries]. *)
Definition collect (blocks : list str) : list entry :=
  foldl (fun entries block => entries ++ block_entries block) [] blocks.

(** Lines 65-75 on the decoded content of the file. *)
Definition parse_content (content : str) : list entry :=
  let content := strip content in
  let blocks := split [c_nl; c_nl] content in
  collect blocks.

(** [parse_srt]: the argument is what reading the file gives, [None] when
    opening, reading or decoding raises; the handler of line 76 then makes
    the function return [None]. Nothing after the read can raise. *)
Definition parse_srt (file : option str) : option (list entry) :=
  match file with
  | Some content => Some (parse_content content)
  | None => None
  end.

(** ** [time_to_ms] *)

Definition time_to_ms (time_str : str) : option Z :=
  match split [c_colon] time_str with
  | [h; m; s] =>
    match split [c_comma] s with
    | [s; ms] =>
      h ← int h; m ← int m; s ← int s; ms ← int ms;
      Some (h * 3600000 + m * 60000 + s * 1000 + ms)
    | _ => None
    end
  | _ => None
  end.

End Python.

(** ** [align_subtitles] *)

(** A row of [aligned]: time code, Korean text, Japanese text. *)
Definition row := (str * str * str)%type.

Definition row_time (r : row) : str := r.1.1.
Definition row_ko (r : row) : str := r.1.2.
Definition row_ja (r : row) : str := r.2.

(** The local variables of [align_subtitles]. *)
Record locals := Locals {
  ko_ptr : nat;
  ja_ptr : nat;
  aligned : list row
}.

(** How a run ends: with a value, with an exception, or with the iteration
    budget used up before the loop condition turned false. *)
Inductive outcome (A : Type) :=
  | Done (a : A)
  | Raised
  | OutOfFuel.
Arguments Done {A} a.
Arguments Raised {A}.
Arguments OutOfFuel {A}.

(** [while cond: body], at most [fuel] iterations. *)
Fixpoint while {S : Type} (fuel : nat) (cond : S -> bool)
    (body : S -> option S) (s : S) : outcome S :=
  if cond s then
    match fuel with
    | O => OutOfFuel
    | Datatypes.S fuel' =>
      match body s with
      | Some s' => while fuel' cond body s'
      | None => Raised
      end
    end
  else Done s.

Definition and_then {A B : Type} (o : outcome A) (f : A -> outcome B) :
    outcome B :=
  match o with
  | Done a => f a
  | Raised => Raised
  | OutOfFuel => OutOfFuel
  end.

(** A call that returns or raises, as an outcome. *)
Definition of_option {A : Type} (o : option A) : outcome A :=
  match o with
  | Some a => Done a
  | None => Raised
  end.

Definition default_threshold : Z := 500.

Section Align.
Context `{UnicodeData}.
Variables (ko_entries ja_entries : list entry) (threshold : Z).

Definition solo_ko (e : entry) : row := (e.1, e.2, []).
Definition solo_ja (e : entry) : row := (e.1, [], e.2).
Definition merged (ko ja : entry) : row := (ko.1, ko.2, ja.2).

(** Line 94 *)
Definition both_left (st : locals) : bool :=
  bool_decide (ko_ptr st < length ko_entries)%nat &&
  bool_decide (ja_ptr st < length ja_entries)%nat.

(** Lines 95-111 *)
Definition main_body (st : locals) : option locals :=
  ko ← ko_entries !! ko_ptr st;
  ja ← ja_entries !! ja_ptr st;
  ko_time ← time_to_ms ko.1;
  ja_time ← time_to_ms ja.1;
  if bool_decide (Z.abs (ko_time - ja_time) <= threshold) then
    Some (Locals (S (ko_ptr st)) (S (ja_ptr st)) (aligned st ++ [merged ko ja]))
  else if bool_decide (ko_time < ja_time) then
    Some (Locals (S (ko_ptr st)) (ja_ptr st) (aligned st ++ [solo_ko ko]))
  else
    Some (Locals (ko_ptr st) (S (ja_ptr st)) (aligned st ++ [solo_ja ja])).

(** Lines 113-115 *)
Definition ko_left (st : locals) : bool :=
  bool_decide (ko_ptr st < length ko_entries)%nat.

Definition ko_body (st : locals) : option locals :=
  ko ← ko_entries !! ko_ptr st;
  Some (Locals (S (ko_ptr st)) (ja_ptr st) (aligned st ++ [solo_ko ko])).

(** Lines 117-119 *)
Definition ja_left (st : locals) : bool :=
  bool_decide (ja_ptr st < length ja_entries)%nat.

Definition ja_body (st : locals) : option locals :=
  ja ← ja_entries !! ja_ptr st;
  Some (Locals (ko_ptr st) (S (ja_ptr st)) (aligned st ++ [solo_ja ja])).

(** The rows once the two loops of lines 113-119 have run from [st]. *)
Definition drained (st : locals) : list row :=
  aligned st ++ (solo_ko <$> drop (ko_ptr st) ko_entries) ++
  (solo_ja <$> drop (ja_ptr st) ja_entries).

(** The function with every loop given [fuel] iterations. *)
Definition align_run (fuel : nat) : outcome (list row) :=
  and_then (while fuel both_left main_body (Locals 0 0 [])) (fun st =>
  and_then (while fuel ko_left ko_body st) (fun st =>
  and_then (while fuel ja_left ja_body st) (fun st =>
  Done (aligned st)))).

End Align.

(** [align_subtitles]: no loop can run more often than there are entries
    ([align_subtitles_fuel] and [align_run_merge] below show that this
    budget is never used up and that a larger one changes nothing). *)
Definition align_subtitles `{UnicodeData} (ko_entries ja_entries : list entry)
    (threshold : Z) : outcome (list row) :=
  align_run ko_entries ja_entries threshold
    (length ko_entries + length ja_entries).

(** ** A recursive presentation of the alignment

    The same rows, by recursion on the two tracks; [align_run_merge] proves
    that the loops compute it. *)
Section Merge.
Context `{UnicodeData}.
Variable threshold : Z.

Fixpoint merge (ko_entries ja_entries : list entry) : option (list row) :=
  match ko_entries with
  | [] => Some (solo_ja <$> ja_entries)
  | ko :: ko_rest =>
    (fix merge_ja (ja_entries : list entry) : option (list row) :=
       match ja_entries with
       | [] => Some (solo_ko <$> ko :: ko_rest)
       | ja :: ja_rest =>
         ko_time ← time_to_ms ko.1;
         ja_time ← time_to_ms ja.1;
         if bool_decide (Z.abs (ko_time - ja_time) <= threshold) then
           cons (merged ko ja) <$> merge ko_rest ja_rest
         else if bool_decide (ko_time < ja_time) then
           cons (solo_ko ko) <$> merge ko_rest (ja :: ja_rest)
         else
           cons (solo_ja ja) <$> merge_ja ja_rest
       end) ja_entries
  end.

End Merge.

(** ** Notions used in the statements *)

Section Notions.
Context `{UnicodeData}.

(** Horner evaluation of a string of decimal digits. *)
Definition horner (acc : Z) (c : char) : Z :=
  acc * 10 + default 0 (to_decimal c).

Definition digits_value (s : str) : Z := foldl horner 0 s.

(** One or more decimal digits. *)
Definition digits (s : str) : Prop :=
  s <> [] /\ Forall (fun c => is_digit c = true) s.

Definition spaces (s : str) : Prop := Forall (fun c => is_space c = true) s.

(** [b] does not start with a character of [p]. *)
Definition stops (p : char -> bool) (b : str) : Prop :=
  forall c, head b = Some c -> p c = false.

(** A continuation of the matcher that fails on every string starting with
    a character of [p]. *)
Definition rejects {R : Type} (p : char -> bool)
    (K : str -> captures -> option R) : Prop :=
  forall c s' g, p c = true -> K (c :: s') g = None.

(** The strings a regular expression matches. *)
Inductive lang : regex -> str -> Prop :=
  | lang_lit c : lang (Lit c) [c]
  | lang_cls k c : in_class k c = true -> lang (Cls k) [c]
  | lang_plus k s : s <> [] -> Forall (fun c => in_class k c = true) s ->
      lang (Plus k) s
  | lang_star k s : Forall (fun c => in_class k c = true) s -> lang (Star k) s
  | lang_seq r1 r2 s1 s2 : lang r1 s1 -> lang r2 s2 -> lang (Seq r1 r2) (s1 ++ s2)
  | lang_group n r s : lang r s -> lang (Group n r) s.

(** A time code as [timecode_pattern] reads it: [h], [m], [s] and [ms] are
    one or more digits each, a comma or a period stands before [ms]. *)
Definition time_code (t h m s ms : str) : Prop :=
  exists sep : char,
    digits h /\ digits m /\ digits s /\ digits ms /\
    sep ∈ [c_comma; c_dot] /\
    t = h ++ [c_colon] ++ m ++ [c_colon] ++ s ++ [sep] ++ ms.

(** A line that starts with a range of two time codes, white space allowed
    on both sides of the arrow and anything after the second time code;
    [h], [m], [s], [ms] are the fields of the first one. *)
Definition timing_line (line h m s ms : str) : Prop :=
  exists t1 w1 w2 t2 h2 m2 s2 ms2 rest,
    time_code t1 h m s ms /\ spaces w1 /\ spaces w2 /\
    time_code t2 h2 m2 s2 ms2 /\
    line = t1 ++ w1 ++ [c_minus; c_minus; c_gt] ++ w2 ++ t2 ++ rest.

(** What [parse_srt] does with a timing line: the start time it stores, or
    [None] when the line is not accepted. *)
Definition timing_start (line : str) : option str :=
  start_of <$> re_match timecode_pattern line.

(** A malformed block: fewer than three lines, or a second line that is no
    timing line. *)
Definition malformed (block : str) : Prop :=
  (length (split [c_nl] block) < 3)%nat \/
  ~ exists line h m s ms,
      split [c_nl] block !! 1%nat = Some line /\ timing_line line h m s ms.

(** A field [int] converts: at most [int_max_str_digits] characters. *)
Definition within_limit (field : str) : bool :=
  bool_decide (Z.of_nat (length field) <= int_max_str_digits).

(** A block as a well-formed file has it between two separators: no empty
    line inside, no newline at its end. *)
Definition tidy_block (block : str) : Prop :=
  find [c_nl; c_nl] block = None /\ last block <> Some c_nl.

(** A document given line by line. *)
Definition unlines (lines : list string) : str := join [c_nl] (py <$> lines).

(** One iteration of a loop of [align_subtitles]: no cursor moves back, at
    least one moves on, and one row is appended. *)
Definition advances (st st' : locals) : Prop :=
  (ko_ptr st <= ko_ptr st')%nat /\ (ja_ptr st <= ja_ptr st')%nat /\
  (ko_ptr st + ja_ptr st < ko_ptr st' + ja_ptr st')%nat /\
  length (aligned st') = S (length (aligned st)).

(** Every time code of the track is one [time_to_ms] converts. *)
Definition well_formed (track : list entry) : Prop :=
  Forall (fun e : entry => is_Some (time_to_ms e.1)) track.

Definition has_text (track : list entry) : Prop :=
  Forall (fun e : entry => e.2 <> []) track.

(** No time code of the track has more than 4300 characters. *)
Definition short_time_codes (track : list entry) : Prop :=
  Forall (fun e : entry => (length e.1 <= 4300)%nat) track.

Definition track_times (track : list entry) : option (list Z) :=
  mapM (fun e : entry => time_to_ms e.1) track.

Definition row_times (rows : list row) : option (list Z) :=
  mapM (fun r : row => time_to_ms (row_time r)) rows.

(** No element is more than [slack] below an element before it, next to
    it or not. *)
Fixpoint within_slack (slack : Z) (l : list Z) : bool :=
  match l with
  | x :: l' =>
    forallb (fun y => bool_decide (x - slack <= y)) l' && within_slack slack l'
  | [] => true
  end.

Definition nondecreasing (l : list Z) : bool := within_slack 0 l.

Definition nonempty (s : str) : bool :=
  match s with [] => false | _ => true end.

(** The number of non-empty text fields over all rows. *)
Definition contributions (rows : list row) : nat :=
  (length (filter (fun s => nonempty s = true) (row_ko <$> rows)) +
   length (filter (fun s => nonempty s = true) (row_ja <$> rows)))%nat.

(** [rows] takes every entry of both tracks exactly once and in order, each
    alone or paired with one entry of the other track. *)
Inductive covers : list row -> list entry -> list entry -> Prop :=
  | covers_nil : covers [] [] []
  | covers_merged ko ja rows kos jas :
      covers rows kos jas -> covers (merged ko ja :: rows) (ko :: kos) (ja :: jas)
  | covers_ko ko rows kos jas :
      covers rows kos jas -> covers (solo_ko ko :: rows) (ko :: kos) jas
  | covers_ja ja rows kos jas :
      covers rows kos jas -> covers (solo_ja ja :: rows) kos (ja :: jas).

(** Modelled from the spec: the canonical textual form H:MM:SS,mmm of a
    millisecond count (the program has no formatter; it carries the text of
    the file forward). Minutes and seconds are padded with zeros to two
    digits, milliseconds to three, hours to [hours_width] digits (1 for
    H:MM:SS,mmm, 2 for HH:MM:SS,mmm). *)
Definition digit_char (d : Z) : char := Z.to_N (48 + d).

Fixpoint decimal_loop (fuel : nat) (n : Z) (acc : str) : str :=
  match fuel with
  | O => acc
  | S fuel' =>
    let acc := digit_char (n mod 10) :: acc in
    if bool_decide (n < 10) then acc else decimal_loop fuel' (n / 10) acc
  end.

Definition decimal (n : Z) : str :=
  decimal_loop (S (Z.to_nat (Z.log2 n))) n [].

Definition zfill (width : nat) (s : str) : str :=
  replicate (width - length s) c_zero ++ s.

Definition canonical_format (hours_width : nat) (ms : Z) : str :=
  zfill hours_width (decimal (ms / 3600000)) ++ [c_colon] ++
  zfill 2 (decimal (ms / 60000 mod 60)) ++ [c_colon] ++
  zfill 2 (decimal (ms / 1000 mod 60)) ++ [c_comma] ++
  zfill 3 (decimal (ms mod 1000)).

(** The pattern as the specification words it, read as generously as the
    code reads its own (optional white space round the arrow, anything
    after the end time): hours one or more digits, minutes and seconds
    exactly two digits each, milliseconds one or more digits. *)
Definition claimed_time : regex :=
  (Plus Digit ⋅ Lit c_colon ⋅ Cls Digit ⋅ Cls Digit ⋅ Lit c_colon ⋅
   Cls Digit ⋅ Cls Digit ⋅ Cls (OneOf [c_comma; c_dot]) ⋅ Plus Digit)%re.

Definition claimed_pattern : regex :=
  (claimed_time ⋅ Star Space ⋅ Lit c_minus ⋅ Lit c_minus ⋅ Lit c_gt ⋅
   Star Space ⋅ claimed_time)%re.

(** Modelled from the spec: a malformed block, its timing line read with
    the pattern of the specification. *)
Definition malformed_as_specified (block : str) : Prop :=
  (length (split [c_nl] block) < 3)%nat \/
  split [c_nl] block !! 1%nat ≫= re_match claimed_pattern = None.

End Notions.

(** ** Further notions *)

(** The characters [int] accepts. *)
Definition int_char `{UnicodeData} (c : char) : Prop :=
  int_space c = true \/ c = c_minus \/ c = c_plus \/ c = c_underscore \/
  is_digit c = true.

(** The loop invariant of [align_subtitles]: the cursors are within the
    tracks and the rows so far take every entry before the cursors exactly
    once and in order. *)
Definition rows_so_far (ko_entries ja_entries : list entry) (st : locals) : Prop :=
  (ko_ptr st <= length ko_entries)%nat /\ (ja_ptr st <= length ja_entries)%nat /\
  covers (aligned st) (take (ko_ptr st) ko_entries) (take (ja_ptr st) ja_entries).

(** Two entries whose times are at most [threshold] apart. *)
Definition near `{UnicodeData} (threshold : Z) (ko ja : entry) : Prop :=
  exists ko_time ja_time,
    time_to_ms ko.1 = Some ko_time /\ time_to_ms ja.1 = Some ja_time /\
    Z.abs (ko_time - ja_time) <= threshold.

(** ** [create_pdf]: the table data

    Lines 147-162. Laying out and writing the document is the library's
    work and stays outside; what the function computes itself is the text
    of the two paragraphs of every row. *)

Definition c_lt : char := 60%N.

(** The class [[^>]]. *)
Definition not_gt (c : char) : bool := negb (c =? c_gt)%N.

(** A match of [<[^>]+>] at the start of [s], by the clauses of [rmatch]
    for a literal, a repeated class and a literal; the result is what
    follows the match. *)
Definition match_tag (s : str) : option str :=
  match s with
  | c :: s1 =>
    if (c =? c_lt)%N then
      match s1 with
      | d :: s2 =>
        if not_gt d then
          greedy not_gt s2
            (fun rest =>
               match rest with
               | e :: rest' => if (e =? c_gt)%N then Some rest' else None
               | [] => None
               end)
        else None
      | [] => None
      end
    else None
  | [] => None
  end.

(** [re.sub(r'<[^>]+>', '', text)]: from the left, a match is dropped and
    the scan goes on behind it; a character where no match starts is kept.
    Every step takes at least one character. *)
Fixpoint sub_tags_loop (fuel : nat) (s : str) : str :=
  match fuel with
  | O => s
  | S fuel' =>
    match s with
    | [] => []
    | c :: s' =>
      match match_tag s with
      | Some rest => sub_tags_loop fuel' rest
      | None => c :: sub_tags_loop fuel' s'
      end
    end
  end.

Definition remove_tags (text : str) : str := sub_tags_loop (length text) text.

(** The attributes lines 128-141 set on the two paragraph styles. *)
Record style := Style {
  fontName : str;
  fontSize : Z;
  leading : Z;
  splitLongWords : bool;
  alignment : Z
}.

Record paragraph := Paragraph {
  para_text : str;
  para_style : style
}.

Definition ja_font_name : str := py "IPAexGothic".

Definition ko_style (ko_font_name : str) : style :=
  Style ko_font_name 9 11 false 4.

Definition ja_style : style := Style ja_font_name 9 11 false 4.

(** Lines 148-162, the body of the loop over the rows. *)
Definition table_row (ko_font_name : str) (r : row) : paragraph * paragraph :=
  let '(timecode, ko_text, ja_text) := r in
  let ko_text := remove_tags ko_text in
  let ja_text := remove_tags ja_text in
  (Paragraph
     (py "<font color='#0066CC' size='8'>" ++ timecode ++ py "</font><br/>" ++
      ko_text)
     (ko_style ko_font_name),
   Paragraph
     (py "<font color='#CC0033' size='8'>" ++ timecode ++ py "</font><br/>" ++
      ja_text)
     ja_style).

(** Lines 147-162 *)
Definition table_data (ko_font_name : str) (aligned_entries : list row) :
    list (paragraph * paragraph) :=
  foldl (fun data r => data ++ [table_row ko_font_name r]) [] aligned_entries.

(** A text in which no match of [<[^>]+>] starts anywhere. *)
Definition tag_free (text : str) : Prop :=
  forall i, match_tag (drop i text) = None.

(** A tag: [<], one or more characters other than [>], and [>]. *)
Definition tag (t : str) : Prop :=
  exists body, body <> [] /\ (c_gt ∉ body) /\ t = [c_lt] ++ body ++ [c_gt].

(** No tag starts at a position of [plain] in the text [plain ++ rest]. *)
Definition no_tag_starts (plain rest : str) : Prop :=
  forall (i : nat) (t after : str),
    (i < length plain)%nat -> tag t -> drop i (plain ++ rest) <> t ++ after.

(** [without_tags text out]: [out] is [text] without its leftmost
    non-overlapping tags. The text is cut into stretches in which no tag
    starts, each but the last followed by a tag; the stretches are kept,
    whole and in order, and the tags dropped. *)
Inductive without_tags : str -> str -> Prop :=
  | without_tags_plain plain :
      no_tag_starts plain [] -> without_tags plain plain
  | without_tags_tag plain t rest out :
      no_tag_starts plain (t ++ rest) -> tag t -> without_tags rest out ->
      without_tags (plain ++ t ++ rest) (plain ++ out).

(** ** The program round the three functions

    [resource_path], [register_fonts], [create_pdf] and [App.run] call the
    operating system, the font and PDF library and the window toolkit. What
    these answer is a parameter, [world]; what the program does to them is
    a list of events, in order. *)

Record world := World {
  (** [sys._MEIPASS], [None] when the attribute does not exist *)
  meipass : option str;
  (** [os.path.abspath(".")] *)
  abspath_here : str;
  (** [os.path.join] *)
  path_join : str -> str -> str;
  (** whether [pdfmetrics.registerFont(TTFont(name, path))] returns *)
  font_loads : str -> str -> bool;
  (** the decoded content of a file, [None] when reading it raises *)
  read_file : str -> option str;
  (** whether making the paragraphs and the table of these rows and
      writing the document to this path returns *)
  builds : str -> list (paragraph * paragraph) -> bool
}.

(** The places where the program opens an error box. *)
Inductive error_box :=
  | SelectAllFiles      (* line 239 *)
  | JaFontFailed        (* line 42 *)
  | KoFontMissing       (* line 53 *)
  | SrtError.           (* line 77 *)

Inductive event :=
  | Showerror (box : error_box)
  | Showinfo                                     (* line 268 *)
  | RegisterFont (name path : str)
  | SetProgress (value : Z)
  | UpdateIdletasks
  | Build (output_path : str) (data : list (paragraph * paragraph)).

Record font := Font { font_name : str; font_file : str }.

Section Program.
Context `{UnicodeData}.
Variable w : world.

(** Lines 15-23 *)
Definition resource_path (relative_path : str) : str :=
  let base_path :=
    match meipass w with
    | Some path => path
    | None => abspath_here w
    end in
  path_join w base_path relative_path.

(** Lines 26-32 *)
Definition FONT_CONFIG_ja : font :=
  Font (py "IPAexGothic") (resource_path (py "ipaexg.ttf")).

Definition FONT_CONFIG_ko : list font :=
  [Font (py "NanumGothic") (resource_path (py "NanumGothic.ttf"))].

(** Lines 46-54: the loop over the Korean fonts and what follows it. *)
Fixpoint register_ko (fonts : list font) : list event * option str :=
  match fonts with
  | ko_font :: fonts' =>
    let ko_font_path := resource_path (font_file ko_font) in
    if font_loads w (font_name ko_font) ko_font_path then
      ([RegisterFont (font_name ko_font) ko_font_path], Some (font_name ko_font))
    else register_ko fonts'
  | [] => ([Showerror KoFontMissing], None)
  end.

(** Lines 35-54, for any configuration. *)
Definition register_fonts_with (ja : font) (ko : list font) :
    list event * option str :=
  let font_path := resource_path (font_file ja) in
  if font_loads w (font_name ja) font_path then
    let '(events, name) := register_ko ko in
    (RegisterFont (font_name ja) font_path :: events, name)
  else ([Showerror JaFontFailed], None).

Definition register_fonts : list event * option str :=
  register_fonts_with FONT_CONFIG_ja FONT_CONFIG_ko.

(** [parse_srt] on a path, with the error box of line 77. *)
Definition parse_srt_at (file_path : str) : list event * option (list entry) :=
  let entries := parse_srt (read_file w file_path) in
  (match entries with Some _ => [] | None => [Showerror SrtError] end, entries).

(** Lines 123-174: the second component tells whether the call returned. *)
Definition create_pdf (output_path : str) (aligned_entries : list row)
    (ko_font_name : str) : list event * bool :=
  let data := table_data ko_font_name aligned_entries in
  if builds w output_path data then ([Build output_path data], true)
  else ([], false).

(** Lines 232-268, [App.run], for the contents of the three entry fields. *)
Definition run (ko_file ja_file output_file : str) : list event * outcome unit :=
  if negb (nonempty ko_file) || negb (nonempty ja_file) ||
     negb (nonempty output_file) then
    ([Showerror SelectAllFiles], Done tt)
  else
    let '(font_events, ko_font_name) := register_fonts in
    match ko_font_name with
    | None | Some [] => (font_events, Done tt)
    | Some ko_font_name =>
      let '(ko_events, ko_entries) := parse_srt_at ko_file in
      let '(ja_events, ja_entries) := parse_srt_at ja_file in
      let events :=
        font_events ++ [SetProgress 20; UpdateIdletasks] ++ ko_events ++ ja_events in
      match ko_entries, ja_entries with
      | None, _ | Some [], _ | _, None | _, Some [] => (events, Done tt)
      | Some ko_entries, Some ja_entries =>
        let events := events ++ [SetProgress 50; UpdateIdletasks] in
        match align_subtitles ko_entries ja_entries default_threshold with
        | Done aligned =>
          let events := events ++ [SetProgress 80; UpdateIdletasks] in
          let '(pdf_events, returned) :=
            create_pdf output_file aligned ko_font_name in
          if returned then
            (events ++ pdf_events ++ [SetProgress 100; UpdateIdletasks; Showinfo],
             Done tt)
          else (events ++ pdf_events, Raised)
        | Raised => (events, Raised)
        | OutOfFuel => (events, OutOfFuel)
        end
      end
    end.

End Program.

(** A world for examples: every font loads, two files exist, the document
    can be written. *)
Definition example_world : world :=
  World None (py "/app")
    (fun base rel =>
       match rel with
       | c :: _ => if (c =? 47)%N then rel else base ++ py "/" ++ rel
       | [] => base ++ py "/"
       end)
    (fun _ _ => true)
    (fun path =>
       if bool_decide (path = py "ko.srt") then
         Some (unlines ["1"; "00:00:01,000 --> 00:00:02,000"; "<i>a</i>"])
       else if bool_decide (path = py "ja.srt") then
         Some (unlines ["1"; "00:00:01,200 --> 00:00:02,000"; "x"])
       else if bool_decide (path = py "empty.srt") then Some []
       else None)
    (fun _ _ => true).

(** An event that neither writes the document nor reports success. *)
Definition quiet (e : event) : Prop :=
  match e with
  | Showinfo | Build _ _ => False
  | _ => True
  end.

(** * Properties *)

(** ** Lists and strings *)

Section StringFacts.
Context `{UnicodeData}.

Lemma startswith_app (p t : str) : startswith p (p ++ t) = true.
Proof. induction p as [|a p IH]; simpl; [done|]. by rewrite N.eqb_refl. Qed.

Lemma startswith_inv (p s : str) :
  startswith p s = true -> exists t, s = p ++ t.
Proof.
  revert s. induction p as [|a p IH]; intros s Hs; simpl in *; [by exists s|].
  destruct s as [|b s]; [done|].
  apply andb_prop in Hs as [Hab Hs]. apply N.eqb_eq in Hab as ->.
  destruct (IH _ Hs) as [t ->]. by exists t.
Qed.

Lemma find_unfold (sep s : str) :
  find sep s =
    if startswith sep s then Some 0%nat
    else match s with [] => None | _ :: s' => S <$> find sep s' end.
Proof. by destruct s. Qed.

Lemma find_nil (sep : str) : sep <> [] -> find sep [] = None.
Proof. by destruct sep. Qed.

Lemma find_bound (sep s : str) (i : nat) :
  find sep s = Some i -> (i + length sep <= length s)%nat.
Proof.
  revert i. induction s as [|c s IH]; intros i; cbn [find].
  - destruct (startswith sep []) eqn:E; [|done].
    intros [= <-]. apply startswith_inv in E as [t E].
    destruct sep; [simpl; lia|done].
  - destruct (startswith sep (c :: s)) eqn:E.
    + intros [= <-]. apply startswith_inv in E as [t E].
      rewrite E, length_app. lia.
    + destruct (find sep s) as [j|]; [|done].
      intros [= <-]. specialize (IH j eq_refl). simpl. lia.
Qed.

Lemma find_here (sep s : str) (i : nat) :
  find sep s = Some i -> startswith sep (drop i s) = true.
Proof.
  revert i. induction s as [|c s IH]; intros i; simpl.
  - destruct (startswith sep []) eqn:E; [|done]. by intros [= <-].
  - destruct (startswith sep (c :: s)) eqn:E; [by intros [= <-]|].
    destruct (find sep s) as [j|]; [|done].
    intros [= <-]. by apply IH.
Qed.

Lemma find_first (sep s : str) (i j : nat) :
  find sep s = Some i -> (j < i)%nat -> startswith sep (drop j s) = false.
Proof.
  revert i j. induction s as [|c s IH]; intros i j; simpl.
  - destruct (startswith sep []); [|done]. intros [= <-]. lia.
  - destruct (startswith sep (c :: s)) eqn:E; [intros [= <-]; lia|].
    destruct (find sep s) as [k|]; [|done].
    intros [= <-] Hj. destruct j as [|j]; [done|].
    simpl. apply (IH k); [done|lia].
Qed.

Lemma find_split (sep s : str) (i : nat) :
  find sep s = Some i -> s = take i s ++ sep ++ drop (i + length sep) s.
Proof.
  intros Hf. pose proof (find_here _ _ _ Hf) as Hs.
  apply startswith_inv in Hs as [t Ht].
  transitivity (take i s ++ drop i s); [by rewrite take_drop|].
  f_equal. rewrite <-drop_drop, Ht. by rewrite drop_app_length.
Qed.

(** The leftmost occurrence: [sep] follows [a] and starts nowhere in [a]. *)
Lemma find_app_first (sep a b : str) :
  (forall a1 a2, a = a1 ++ a2 -> a2 <> [] ->
     startswith sep (a2 ++ sep ++ b) = false) ->
  find sep (a ++ sep ++ b) = Some (length a).
Proof.
  induction a as [|c a IH]; intros Hno.
  - rewrite find_unfold. cbn [app]. by rewrite startswith_app.
  - rewrite find_unfold. rewrite (Hno [] (c :: a)); [|done..].
    cbn [app]. rewrite IH; [done|].
    intros a1 a2 -> Ha2. by apply (Hno (c :: a1) a2).
Qed.

Lemma find_none_app (sep a b : str) :
  find sep (a ++ b) = None -> find sep b = None.
Proof.
  induction a as [|c a IH]; [done|]. simpl.
  destruct (startswith sep (c :: a ++ b)); [done|].
  destruct (find sep (a ++ b)); [done|]. intros _. by apply IH.
Qed.

Lemma split_loop_enough (sep : str) (n m : nat) (s : str) :
  sep <> [] -> (length s <= n)%nat -> (length s <= m)%nat ->
  split_loop n sep s = split_loop m sep s.
Proof.
  intros Hsep. revert m s.
  induction n as [|n IH]; intros m s Hn Hm.
  - destruct s; [|simpl in Hn; lia].
    destruct m; cbn [split_loop]; [done|]. by rewrite find_nil.
  - destruct m as [|m].
    + destruct s; [|simpl in Hm; lia]. cbn [split_loop]. by rewrite find_nil.
    + cbn [split_loop]. destruct (find sep s) as [i|] eqn:Hf; [|done].
      f_equal. pose proof (find_bound _ _ _ Hf).
      assert (0 < length sep)%nat by (destruct sep; [done|simpl; lia]).
      apply IH; rewrite length_drop; lia.
Qed.

Lemma split_unfold (sep s : str) :
  sep <> [] ->
  split sep s =
    match find sep s with
    | None => [s]
    | Some i => take i s :: split sep (drop (i + length sep) s)
    end.
Proof.
  intros Hsep. unfold split. destruct s as [|c s].
  - cbn [length split_loop]. by rewrite find_nil.
  - cbn [length split_loop]. destruct (find sep (c :: s)) as [i|] eqn:Hf; [|done].
    f_equal. pose proof (find_bound _ _ _ Hf).
    assert (0 < length sep)%nat by (destruct sep; [done|simpl; lia]).
    apply split_loop_enough; [done|..]; rewrite ?length_drop; simpl in *; lia.
Qed.

Lemma split_app (sep a b : str) :
  sep <> [] ->
  (forall a1 a2, a = a1 ++ a2 -> a2 <> [] ->
     startswith sep (a2 ++ sep ++ b) = false) ->
  split sep (a ++ sep ++ b) = a :: split sep b.
Proof.
  intros Hsep Hno. rewrite split_unfold by done.
  rewrite find_app_first by done.
  rewrite take_app_length. f_equal. f_equal.
  rewrite app_assoc, <-length_app. by rewrite drop_app_length.
Qed.

Lemma split_nonempty (sep s : str) : split sep s <> [].
Proof. unfold split. destruct (length s); simpl; [done|]. by destruct find. Qed.

(** One-character separators. *)

Lemma find_char_None (c : char) (s : str) : c ∉ s -> find [c] s = None.
Proof.
  induction s as [|d s IH]; intros Hc; [done|].
  apply not_elem_of_cons in Hc as [Hcd Hc]. simpl.
  destruct (N.eqb_spec c d); [done|]. simpl. by rewrite IH.
Qed.

Lemma split_char_none (c : char) (s : str) : c ∉ s -> split [c] s = [s].
Proof. intros Hc. rewrite split_unfold by done. by rewrite find_char_None. Qed.

Lemma split_char_app (c : char) (a b : str) :
  c ∉ a -> split [c] (a ++ c :: b) = a :: split [c] b.
Proof.
  intros Hc. apply (split_app [c] a b); [done|].
  intros a1 [|d a2] -> Ha2; [done|].
  simpl. destruct (N.eqb_spec c d) as [->|]; [|done].
  exfalso. apply Hc. apply elem_of_app. right. left.
Qed.

End StringFacts.

(** ** Digits, [int] and [time_to_ms] *)

Section NumberFacts.
Context `{UnicodeData}.

Lemma is_digit_true (c : char) : is_digit c = true <-> is_Some (to_decimal c).
Proof. unfold is_digit. by rewrite bool_decide_eq_true. Qed.

Lemma is_digit_false (c : char) : to_decimal c = None -> is_digit c = false.
Proof.
  intros Hc. unfold is_digit. apply bool_decide_eq_false. rewrite Hc.
  by intros [? ?].
Qed.

Lemma to_decimal_plain (c : char) :
  (c < 128)%N -> ((48 <=? c) && (c <=? 57))%N = false -> to_decimal c = None.
Proof. intros Hc Hr. by rewrite to_decimal_ascii, Hr. Qed.

Lemma is_digit_plain (c : char) :
  (c < 128)%N -> ((48 <=? c) && (c <=? 57))%N = false -> is_digit c = false.
Proof. intros. by apply is_digit_false, to_decimal_plain. Qed.

Lemma is_digit_not_space (c : char) : is_digit c = true -> is_space c = false.
Proof. intros [d Hd]%is_digit_true. by apply (decimal_not_space c d). Qed.

Lemma is_space_not_digit (c : char) : is_space c = true -> is_digit c = false.
Proof.
  intros Hs. destruct (is_digit c) eqn:E; [|done].
  apply is_digit_not_space in E. congruence.
Qed.

Lemma is_digit_neq (c d : char) :
  is_digit c = true -> (d < 128)%N -> ((48 <=? d) && (d <=? 57))%N = false ->
  (c =? d)%N = false.
Proof.
  intros Hc Hd Hr. apply N.eqb_neq. intros ->.
  rewrite is_digit_plain in Hc; done.
Qed.

Lemma int_space_digit (c : char) : is_digit c = true -> int_space c = false.
Proof.
  intros Hc. unfold int_space. destruct (N.ltb_spec c 127) as [Hlt|Hge].
  - apply is_digit_true in Hc as [d Hd].
    rewrite to_decimal_ascii in Hd by lia.
    destruct ((48 <=? c) && (c <=? 57))%N eqn:E; [|done].
    apply andb_prop in E as [E1%N.leb_le E2%N.leb_le].
    apply orb_false_iff. split; [apply N.eqb_neq; lia|].
    apply andb_false_iff. right. apply N.leb_gt. lia.
  - by apply is_digit_not_space.
Qed.

Lemma digits_not_elem (s : str) (c : char) :
  Forall (fun c => is_digit c = true) s -> is_digit c = false -> c ∉ s.
Proof.
  intros Hs Hc Hin. rewrite Forall_forall in Hs.
  specialize (Hs c Hin). congruence.
Qed.

Lemma lstrip_with_head (p : char -> bool) (s : str) :
  (forall c, head s = Some c -> p c = false) -> lstrip_with p s = s.
Proof. destruct s as [|c s]; [done|]. intros Hc. simpl. by rewrite Hc. Qed.

Lemma strip_with_id (p : char -> bool) (s : str) :
  (forall c, head s = Some c -> p c = false) ->
  (forall c, last s = Some c -> p c = false) ->
  strip_with p s = s.
Proof.
  intros Hh Hl. unfold strip_with. rewrite (lstrip_with_head p s) by done.
  rewrite lstrip_with_head; [by rewrite reverse_involutive|].
  intros c Hc. apply Hl. by rewrite <-(reverse_involutive s), last_reverse.
Qed.

Lemma strip_with_digits (s : str) :
  Forall (fun c => is_digit c = true) s -> strip_with int_space s = s.
Proof.
  intros Hs. rewrite Forall_forall in Hs.
  apply strip_with_id; intros c Hc; apply int_space_digit, Hs.
  - destruct s; simplify_eq/=. left.
  - apply last_Some in Hc as [s' ->]. apply elem_of_app. right. left.
Qed.

Lemma int_digits_all (acc : Z) (s : str) :
  Forall (fun c => is_digit c = true) s ->
  int_digits acc false s = Some (foldl horner acc s).
Proof.
  intros Hs. revert acc. induction Hs as [|c s Hc Hs IH]; intros acc; [done|].
  cbn [int_digits foldl].
  rewrite (is_digit_neq c c_underscore) by done.
  apply is_digit_true in Hc as [d Hd]. unfold horner at 2. rewrite Hd. apply IH.
Qed.

Lemma digit_count_digits (s : str) :
  Forall (fun c => is_digit c = true) s -> digit_count s = Z.of_nat (length s).
Proof.
  intros Hs. unfold digit_count. do 2 f_equal.
  induction Hs as [|c s Hc _ IH]; [done|]. cbn [List.filter]. by rewrite Hc, IH.
Qed.

(** [int] on a string of digits: its value up to the limit, an exception
    beyond it. *)
Lemma int_digits_limit (s : str) :
  digits s ->
  int s = if within_limit s then Some (digits_value s) else None.
Proof.
  intros [Hne Hs]. unfold int. rewrite strip_with_digits by done.
  pose proof (digit_count_digits s Hs) as Hcount.
  destruct s as [|c s]; [done|].
  apply Forall_cons in Hs as [Hc Hs].
  rewrite (is_digit_neq c c_minus), (is_digit_neq c c_plus) by done.
  unfold int_unsigned, digits_value, within_limit. cbn [foldl]. rewrite Hcount.
  apply is_digit_true in Hc as [d Hd]. rewrite Hd. cbn [mbind option_bind].
  rewrite int_digits_all by done. cbn [mbind option_bind].
  replace (horner 0 c) with d by (unfold horner; by rewrite Hd).
  done.
Qed.

Lemma time_to_ms_digits (h m s ms : str) :
  digits h -> digits m -> digits s -> digits ms ->
  time_to_ms (h ++ [c_colon] ++ m ++ [c_colon] ++ s ++ [c_comma] ++ ms) =
    if within_limit h && within_limit m && within_limit s && within_limit ms
    then Some (digits_value h * 3600000 + digits_value m * 60000 +
               digits_value s * 1000 + digits_value ms)
    else None.
Proof.
  intros Hh Hm Hs Hms. unfold time_to_ms. cbn [app].
  assert (Hcolon : is_digit c_colon = false) by by apply is_digit_plain.
  assert (Hcomma : is_digit c_comma = false) by by apply is_digit_plain.
  rewrite split_char_app by (apply digits_not_elem; [apply Hh|done]).
  rewrite split_char_app by (apply digits_not_elem; [apply Hm|done]).
  rewrite split_char_none.
  2:{ intros [Hin|Hin]%elem_of_app.
      - by apply (digits_not_elem s c_colon); [apply Hs|..].
      - apply elem_of_cons in Hin as [?|Hin]; [done|].
        by apply (digits_not_elem ms c_colon); [apply Hms|..]. }
  rewrite split_char_app by (apply digits_not_elem; [apply Hs|done]).
  rewrite split_char_none by (apply digits_not_elem; [apply Hms|done]).
  rewrite !int_digits_limit by done.
  by destruct (within_limit h), (within_limit m), (within_limit s),
    (within_limit ms).
Qed.

Lemma within_limit_short (s : str) : (length s <= 4300)%nat -> within_limit s = true.
Proof.
  intros Hlen. unfold within_limit, int_max_str_digits.
  apply bool_decide_eq_true. lia.
Qed.

End NumberFacts.

(** ** The canonical form *)

Section CanonicalFacts.
Context `{UnicodeData}.

Lemma to_decimal_digit_char (d : Z) :
  0 <= d <= 9 -> to_decimal (digit_char d) = Some d.
Proof.
  intros Hd. unfold digit_char. rewrite to_decimal_ascii by lia.
  assert (((48 <=? Z.to_N (48 + d)) && (Z.to_N (48 + d) <=? 57))%N = true) as ->.
  { apply andb_true_intro. split; apply N.leb_le; lia. }
  f_equal. lia.
Qed.

Lemma is_digit_digit_char (d : Z) : 0 <= d <= 9 -> is_digit (digit_char d) = true.
Proof. intros Hd. apply is_digit_true. rewrite to_decimal_digit_char; eauto. Qed.

Lemma decimal_loop_digits (fuel : nat) (n : Z) (acc : str) :
  0 <= n -> Forall (fun c => is_digit c = true) acc ->
  Forall (fun c => is_digit c = true) (decimal_loop fuel n acc).
Proof.
  revert n acc. induction fuel as [|fuel IH]; intros n acc Hn Hacc; [done|].
  cbn [decimal_loop].
  assert (Forall (fun c => is_digit c = true) (digit_char (n mod 10) :: acc)).
  { constructor; [|done]. apply is_digit_digit_char.
    pose proof (Z.mod_pos_bound n 10). lia. }
  case_bool_decide; [done|]. apply IH; [|done]. apply Z.div_pos; lia.
Qed.

Lemma decimal_loop_nonempty (fuel : nat) (n : Z) (acc : str) :
  decimal_loop (S fuel) n acc <> [].
Proof.
  revert n acc. induction fuel as [|fuel IH]; intros n acc.
  - cbn [decimal_loop]. by case_bool_decide.
  - change (decimal_loop (S (S fuel)) n acc) with
      (let acc := digit_char (n mod 10) :: acc in
       if bool_decide (n < 10) then acc else decimal_loop (S fuel) (n / 10) acc).
    cbv zeta. case_bool_decide; [done|]. apply IH.
Qed.

Lemma decimal_loop_value (fuel : nat) (n : Z) (acc : str) :
  0 <= n < 2 ^ Z.of_nat fuel ->
  foldl horner 0 (decimal_loop fuel n acc) = foldl horner n acc.
Proof.
  revert n acc. induction fuel as [|fuel IH]; intros n acc Hn.
  - simpl in Hn. assert (n = 0) as -> by lia. done.
  - cbn [decimal_loop].
    pose proof (Z.mod_pos_bound n 10 ltac:(lia)) as Hmod.
    case_bool_decide as Hlt.
    + cbn [foldl]. unfold horner at 2.
      rewrite to_decimal_digit_char by lia. simpl.
      rewrite Z.mod_small by lia. done.
    + rewrite IH.
      * cbn [foldl]. unfold horner at 2.
        rewrite to_decimal_digit_char by lia. simpl.
        f_equal. pose proof (Z.div_mod n 10 ltac:(lia)). lia.
      * rewrite Nat2Z.inj_succ, Z.pow_succ_r in Hn by lia.
        split; [apply Z.div_pos; lia|].
        apply Z.div_lt_upper_bound; lia.
Qed.

Lemma decimal_digits (n : Z) : 0 <= n -> digits (decimal n).
Proof.
  intros Hn. split; [apply decimal_loop_nonempty|].
  by apply decimal_loop_digits.
Qed.

Lemma decimal_value (n : Z) : 0 <= n -> digits_value (decimal n) = n.
Proof.
  intros Hn. unfold digits_value, decimal. rewrite decimal_loop_value; [done|].
  split; [done|].
  destruct (decide (n = 0)) as [->|Hn0]; [done|].
  rewrite Nat2Z.inj_succ, Z2Nat.id by apply Z.log2_nonneg.
  apply Z.log2_spec. lia.
Qed.

Lemma zfill_digits (width : nat) (s : str) : digits s -> digits (zfill width s).
Proof.
  intros [Hne Hs]. unfold zfill. split.
  - destruct s; [done|]. by destruct (replicate _ _).
  - apply Forall_app. split; [|done].
    apply Forall_replicate. by apply (is_digit_digit_char 0).
Qed.

Lemma zfill_value (width : nat) (s : str) :
  digits_value (zfill width s) = digits_value s.
Proof.
  unfold zfill, digits_value. rewrite foldl_app. f_equal.
  induction (width - length s)%nat as [|k IH]; [done|].
  cbn [replicate foldl]. unfold horner at 2.
  change c_zero with (digit_char 0).
  rewrite (to_decimal_digit_char 0) by lia. apply IH.
Qed.

Lemma decimal_loop_length (fuel : nat) (n : Z) (acc : str) :
  (length (decimal_loop fuel n acc) <= fuel + length acc)%nat.
Proof.
  revert n acc. induction fuel as [|fuel IH]; intros n acc; [done|].
  cbn [decimal_loop]. case_bool_decide; [simpl; lia|].
  etrans; [apply IH|]. simpl. lia.
Qed.

Lemma decimal_length (n bound : Z) :
  0 <= n <= bound -> (length (decimal n) <= S (Z.to_nat (Z.log2 bound)))%nat.
Proof.
  intros Hn. unfold decimal. etrans; [apply decimal_loop_length|].
  pose proof (Z.log2_le_mono n bound ltac:(lia)).
  pose proof (Z.log2_nonneg n). simpl. lia.
Qed.

Lemma length_zfill (width : nat) (s : str) :
  length (zfill width s) = (width `max` length s)%nat.
Proof. unfold zfill. rewrite length_app, length_replicate. lia. Qed.

(** A number below 1000 padded to at most three digits is well within the
    limit of [int]. *)
Lemma zfill_within_limit (width : nat) (n : Z) :
  (width <= 3)%nat -> 0 <= n <= 999 -> within_limit (zfill width (decimal n)) = true.
Proof.
  intros Hw Hn. apply within_limit_short. rewrite length_zfill.
  pose proof (decimal_length n 999 Hn) as Hlen.
  change (Z.to_nat (Z.log2 999)) with 9%nat in Hlen. lia.
Qed.

Lemma canonical_format_ms (hours_width : nat) (ms : Z) :
  0 <= ms ->
  time_to_ms (canonical_format hours_width ms) =
    if within_limit (zfill hours_width (decimal (ms / 3600000))) then Some ms
    else None.
Proof.
  intros Hms. unfold canonical_format.
  pose proof (Z.mod_pos_bound (ms / 60000) 60 ltac:(lia)).
  pose proof (Z.mod_pos_bound (ms / 1000) 60 ltac:(lia)).
  pose proof (Z.mod_pos_bound ms 1000 ltac:(lia)).
  assert (0 <= ms / 3600000) by (apply Z.div_pos; lia).
  rewrite time_to_ms_digits by (apply zfill_digits, decimal_digits; lia).
  rewrite !(zfill_within_limit _ (_ mod _)) by lia. rewrite !andb_true_r.
  destruct (within_limit _); [|done].
  rewrite !zfill_value, !decimal_value by lia.
  f_equal.
  pose proof (Z.div_mod ms 1000 ltac:(lia)).
  pose proof (Z.div_mod (ms / 1000) 60 ltac:(lia)).
  pose proof (Z.div_mod (ms / 60000) 60 ltac:(lia)).
  assert (ms / 60000 = ms / 1000 / 60) by (rewrite Z.div_div by lia; done).
  assert (ms / 3600000 = ms / 60000 / 60) by (rewrite Z.div_div by lia; done).
  lia.
Qed.

End CanonicalFacts.

(** ** The matcher *)

Section RegexFacts.
Context `{UnicodeData}.

Lemma lstrip_with_app (p : char -> bool) (a b : str) :
  Forall (fun c => p c = true) a -> lstrip_with p (a ++ b) = lstrip_with p b.
Proof. induction 1 as [|c a Hc _ IH]; [done|]. simpl. by rewrite Hc. Qed.

Lemma lstrip_with_stops (p : char -> bool) (a b : str) :
  Forall (fun c => p c = true) a -> stops p b -> lstrip_with p (a ++ b) = b.
Proof. intros Ha Hb. rewrite lstrip_with_app by done. by apply lstrip_with_head. Qed.

Lemma lstrip_with_split (p : char -> bool) (s : str) :
  exists a, s = a ++ lstrip_with p s /\ Forall (fun c => p c = true) a /\
            stops p (lstrip_with p s).
Proof.
  induction s as [|c s (a & Hs & Ha & Hstop)].
  - exists []. by repeat split.
  - simpl. destruct (p c) eqn:Hc.
    + exists (c :: a). repeat split; [by rewrite Hs at 1|by constructor|done].
    + exists []. repeat split; [done|]. intros d [= <-]. done.
Qed.

Section Greedy.
Context {R : Type}.
Implicit Types (k : str -> option R) (K : str -> captures -> option R).

Lemma greedy_reject p s k :
  (forall c s', p c = true -> k (c :: s') = None) ->
  greedy p s k = k (lstrip_with p s).
Proof.
  intros Hk. induction s as [|c s IH]; [done|]. simpl.
  destruct (p c) eqn:Hc; [|done]. rewrite IH.
  destruct (k (lstrip_with p s)); [done|]. by apply Hk.
Qed.

Lemma greedy_accept p s k :
  is_Some (k (lstrip_with p s)) -> greedy p s k = k (lstrip_with p s).
Proof.
  induction s as [|c s IH]; [done|]. simpl.
  destruct (p c); [|done]. intros Hs. rewrite IH by done.
  by destruct Hs as [r ->].
Qed.

Lemma greedy_sound p s k r :
  greedy p s k = Some r ->
  exists a b, s = a ++ b /\ Forall (fun c => p c = true) a /\ k b = Some r.
Proof.
  induction s as [|c s IH]; simpl.
  - intros Hk. by exists [], [].
  - destruct (p c) eqn:Hc; [|intros Hk; by exists [], (c :: s)].
    destruct (greedy p s k) as [r'|] eqn:Hg.
    + intros [= <-]. destruct (IH eq_refl) as (a & b & -> & Ha & Hb).
      exists (c :: a), b. repeat split; [by constructor|done].
    + intros Hk. by exists [], (c :: s).
Qed.

(** Soundness: a successful match has consumed a string of the language and
    passed what follows to the continuation. *)
Lemma rmatch_sound r s g K res :
  rmatch r s g K = Some res ->
  exists a b g', s = a ++ b /\ lang r a /\ K b g' = Some res.
Proof.
  revert s g K. induction r as [c|cl|cl|cl|r1 IH1 r2 IH2|n r IH]; intros s g K; cbn [rmatch].
  - destruct s as [|c' s]; [done|]. destruct (N.eqb_spec c' c) as [->|]; [|done].
    intros HK. exists [c], s, g. repeat split; [constructor|done].
  - destruct s as [|c' s]; [done|]. destruct (in_class cl c') eqn:Hc; [|done].
    intros HK. exists [c'], s, g. repeat split; [by constructor|done].
  - destruct s as [|c' s]; [done|]. destruct (in_class cl c') eqn:Hc; [|done].
    intros (a & b & -> & Ha & HK)%greedy_sound.
    exists (c' :: a), b, g. repeat split; [|done].
    constructor; [done|by constructor].
  - intros (a & b & -> & Ha & HK)%greedy_sound.
    exists a, b, g. repeat split; [by constructor|done].
  - intros (a1 & b1 & g1 & -> & H1 & (a2 & b2 & g2 & -> & H2 & HK)%IH2)%IH1.
    exists (a1 ++ a2), b2, g2. repeat split; [by rewrite (assoc_L (++))|by constructor|done].
  - intros (a & b & g' & -> & Ha & HK)%IH.
    eexists a, b, _. repeat split; [by constructor|done].
Qed.

Lemma greedy_here p s k : is_Some (k s) -> is_Some (greedy p s k).
Proof.
  destruct s as [|c s]; [done|]. simpl.
  destruct (p c); [|done]. by destruct (greedy p s k).
Qed.

Lemma greedy_complete p a b k :
  Forall (fun c => p c = true) a -> is_Some (k b) ->
  is_Some (greedy p (a ++ b) k).
Proof.
  intros Ha Hk. induction Ha as [|c a Hc _ IH]; [by apply greedy_here|].
  cbn [app greedy]. rewrite Hc. by destruct IH as [r ->].
Qed.

(** Completeness: when a prefix is in the language and the continuation
    accepts what follows, the match succeeds. *)
Lemma rmatch_complete r a b g K :
  lang r a -> (forall g', is_Some (K b g')) -> is_Some (rmatch r (a ++ b) g K).
Proof.
  intros Ha. revert b g K.
  induction Ha as [c|cl c Hc|cl a Hne Ha|cl a Ha|r1 r2 a1 a2 _ IH1 _ IH2|n r a _ IH];
    intros b g K HK; cbn [rmatch app].
  - by rewrite N.eqb_refl.
  - by rewrite Hc.
  - destruct Ha as [|c a Hc Ha]; [done|]. cbn [app]. rewrite Hc.
    by apply greedy_complete.
  - by apply greedy_complete.
  - rewrite <-(assoc_L (++)). apply IH1. intros g'. by apply IH2.
  - apply IH. intros g'. apply HK.
Qed.

Lemma rmatch_plus cl a b g K :
  a <> [] -> Forall (fun c => in_class cl c = true) a -> stops (in_class cl) b ->
  rejects (in_class cl) K \/ is_Some (K b g) ->
  rmatch (Plus cl) (a ++ b) g K = K b g.
Proof.
  intros Hne Ha Hb HK. destruct Ha as [|c a Hc Ha]; [done|].
  cbn [rmatch app]. rewrite Hc. destruct HK as [HK|HK].
  - rewrite greedy_reject by (intros; by apply HK).
    by rewrite lstrip_with_stops.
  - rewrite greedy_accept; by rewrite lstrip_with_stops.
Qed.

Lemma rmatch_star cl a b g K :
  Forall (fun c => in_class cl c = true) a -> stops (in_class cl) b ->
  rejects (in_class cl) K \/ is_Some (K b g) ->
  rmatch (Star cl) (a ++ b) g K = K b g.
Proof.
  intros Ha Hb HK. cbn [rmatch]. destruct HK as [HK|HK].
  - rewrite greedy_reject by (intros; by apply HK).
    by rewrite lstrip_with_stops.
  - rewrite greedy_accept; by rewrite lstrip_with_stops.
Qed.

Lemma stops_digit_cons (c : char) (s : str) :
  is_digit c = false -> stops (in_class Digit) (c :: s).
Proof. by intros Hc d [= <-]. Qed.

Lemma rmatch_hms h m s b g K :
  digits h -> digits m -> digits s -> stops (in_class Digit) b ->
  rejects (in_class Digit) K \/ is_Some (K b g) ->
  rmatch hms (h ++ [c_colon] ++ m ++ [c_colon] ++ s ++ b) g K = K b g.
Proof.
  intros [? ?] [? ?] [? ?] Hb HK. unfold hms. cbn [rmatch app].
  assert (Hcolon : is_digit c_colon = false) by by apply is_digit_plain.
  assert (Hrej : forall K', rejects (in_class Digit)
            (fun s' g' => match s' with
                          | c' :: s'' => if (c' =? c_colon)%N then K' s'' g' else None
                          | [] => None
                          end)).
  { intros K' c s' g' Hc. by rewrite (is_digit_neq c c_colon). }
  change (rmatch (Plus Digit) (h ++ c_colon :: m ++ c_colon :: s ++ b) g
    (fun s' g' => match s' with
       | c' :: s'' => if (c' =? c_colon)%N then
           rmatch (Plus Digit) s'' g'
             (fun s1 g1 => match s1 with
                | c1 :: s2 => if (c1 =? c_colon)%N then rmatch (Plus Digit) s2 g1 K else None
                | [] => None
                end)
           else None
       | [] => None
       end) = K b g).
  rewrite rmatch_plus; [|done|done|by apply stops_digit_cons|left; apply Hrej].
  rewrite N.eqb_refl.
  rewrite rmatch_plus; [|done|done|by apply stops_digit_cons|left; apply Hrej].
  rewrite N.eqb_refl.
  by rewrite rmatch_plus.
Qed.

End Greedy.
End RegexFacts.

(** [re.match] succeeds exactly on the strings with a prefix in the
    language of the pattern. *)
Lemma re_match_lang `{UnicodeData} (r : regex) (s : str) :
  is_Some (re_match r s) <-> exists a b, s = a ++ b /\ lang r a.
Proof.
  unfold re_match. split.
  - intros [g (a & b & g' & -> & Ha & _)%rmatch_sound]. by exists a, b.
  - intros (a & b & -> & Ha). apply rmatch_complete; [done|]. by eexists.
Qed.

(** ** [timecode_pattern] *)

Section TimecodeFacts.
Context `{UnicodeData}.

Lemma take_consumed (a b : str) :
  take (length (a ++ b) - length b) (a ++ b) = a.
Proof.
  rewrite length_app.
  replace (length a + length b - length b)%nat with (length a) by lia.
  apply take_app_length.
Qed.

Lemma is_digit_not_sep (c : char) :
  is_digit c = true -> in_class (OneOf [c_comma; c_dot]) c = false.
Proof.
  intros Hc. apply bool_decide_eq_false.
  intros [->|[->|[]%elem_of_nil]%elem_of_cons]%elem_of_cons;
    by rewrite is_digit_plain in Hc.
Qed.

Section Unfold.
Context {R : Type}.
Implicit Types K : str -> captures -> option R.

Lemma rmatch_seq r1 r2 s g K :
  rmatch (r1 ⋅ r2) s g K = rmatch r1 s g (fun s' g' => rmatch r2 s' g' K).
Proof. done. Qed.

Lemma rmatch_seq3 r1 r2 r3 r4 s g K :
  rmatch (r1 ⋅ r2 ⋅ r3 ⋅ r4) s g K =
  rmatch (r1 ⋅ r2 ⋅ r3) s g (fun s' g' => rmatch r4 s' g' K).
Proof. done. Qed.

Lemma rmatch_group n r s g K :
  rmatch (Group n r) s g K =
  rmatch r s g (fun s' g' => K s' ((n, take (length s - length s') s) :: g')).
Proof. done. Qed.

Lemma rmatch_cls cl c s g K :
  rmatch (Cls cl) (c :: s) g K = if in_class cl c then K s g else None.
Proof. done. Qed.

Lemma rmatch_lit c d s g K :
  rmatch (Lit c) (d :: s) g K = if (d =? c)%N then K s g else None.
Proof. done. Qed.

Lemma rmatch_plus_cons cl c s g K :
  in_class cl c = false -> rmatch (Plus cl) (c :: s) g K = None.
Proof. intros Hc. cbn [rmatch]. by rewrite Hc. Qed.

Lemma rmatch_star_cons cl c s g K :
  in_class cl c = false -> rmatch (Star cl) (c :: s) g K = K (c :: s) g.
Proof. intros Hc. cbn [rmatch greedy]. by rewrite Hc. Qed.

Lemma rmatch_hms_app h m s b g K :
  digits h -> digits m -> digits s -> stops (in_class Digit) b ->
  rejects (in_class Digit) K \/ is_Some (K b g) ->
  rmatch hms ((h ++ [c_colon] ++ m ++ [c_colon] ++ s) ++ b) g K = K b g.
Proof.
  intros. rewrite <-(rmatch_hms h m s b g K) by done.
  f_equal. by rewrite <-!(assoc_L (++)).
Qed.

(** A time code followed by something that is not a digit is consumed
    whole, and the two groups hold its first three fields and its last. *)
Lemma rmatch_time_code n1 n2 t h m s ms b g K :
  time_code t h m s ms -> stops (in_class Digit) b ->
  rejects (in_class Digit) K \/
    is_Some (K b ((n2, ms) :: (n1, h ++ [c_colon] ++ m ++ [c_colon] ++ s) :: g)) ->
  rmatch (Group n1 hms ⋅ Cls (OneOf [c_comma; c_dot]) ⋅ Group n2 (Plus Digit))
    (t ++ b) g K =
  K b ((n2, ms) :: (n1, h ++ [c_colon] ++ m ++ [c_colon] ++ s) :: g).
Proof.
  intros (sep & Hh & Hm & Hs & Hms & Hsep & ->) Hb HK.
  assert ((h ++ [c_colon] ++ m ++ [c_colon] ++ s ++ [sep] ++ ms) ++ b =
          (h ++ [c_colon] ++ m ++ [c_colon] ++ s) ++ sep :: ms ++ b) as ->.
  { by rewrite <-!(assoc_L (++)). }
  assert (Hsep' : in_class (OneOf [c_comma; c_dot]) sep = true)
    by by apply bool_decide_eq_true.
  rewrite rmatch_seq, rmatch_group, rmatch_hms_app; [| done | done | done | |].
  - rewrite take_consumed, rmatch_seq, rmatch_cls, Hsep', rmatch_group.
    rewrite rmatch_plus; [| apply Hms | apply Hms | done |].
    + by rewrite take_consumed.
    + rewrite take_consumed. destruct HK as [HK|HK]; [|by right].
      left. intros c s' g' Hc. by apply HK.
  - intros c [= <-]. destruct (is_digit sep) eqn:Hd; [|done].
    apply is_digit_not_sep in Hd. congruence.
  - left. intros c s' g' Hc.
    by rewrite rmatch_seq, rmatch_cls, is_digit_not_sep.
Qed.

End Unfold.

Lemma time_code_head t h m s ms :
  time_code t h m s ms -> exists c t', t = c :: t' /\ is_digit c = true.
Proof.
  intros (sep & [Hne Hh] & _ & _ & _ & _ & ->).
  destruct Hh as [|c h Hc _]; [done|]. by eexists c, _.
Qed.

(** What the match returns on a timing line whose second time code is
    followed by something that is not a digit. *)
Lemma re_match_timing_line_stop t1 h m s ms w1 w2 t2 h2 m2 s2 ms2 rest :
  time_code t1 h m s ms -> spaces w1 -> spaces w2 ->
  time_code t2 h2 m2 s2 ms2 -> stops (in_class Digit) rest ->
  re_match timecode_pattern
    (t1 ++ w1 ++ [c_minus; c_minus; c_gt] ++ w2 ++ t2 ++ rest) =
  Some [(4%nat, ms2); (3%nat, h2 ++ [c_colon] ++ m2 ++ [c_colon] ++ s2);
        (2%nat, ms); (1%nat, h ++ [c_colon] ++ m ++ [c_colon] ++ s)].
Proof.
  intros Ht1 Hw1 Hw2 Ht2 Hrest.
  assert (Hminus : is_space c_minus = false) by by rewrite is_space_ascii.
  assert (Hminus' : is_digit c_minus = false) by by apply is_digit_plain.
  unfold re_match, timecode_pattern.
  rewrite rmatch_seq3.
  rewrite (rmatch_time_code 1 2 t1 h m s ms); [| done | |].
  - rewrite rmatch_seq, rmatch_star; [| done | by intros c [= <-] |].
    + cbn [app].
      rewrite rmatch_seq, rmatch_lit, N.eqb_refl.
      rewrite rmatch_seq, rmatch_lit, N.eqb_refl.
      rewrite rmatch_seq, rmatch_lit, N.eqb_refl.
      destruct (time_code_head _ _ _ _ _ Ht2) as (c & t2' & Heq & Hc).
      rewrite rmatch_seq, rmatch_star; [| done | |].
      * by rewrite (rmatch_time_code 3 4 t2 h2 m2 s2 ms2); [| done | done | right].
      * rewrite Heq. intros d [= <-]. by apply is_digit_not_space.
      * left. intros d s' g' Hd.
        rewrite rmatch_seq, rmatch_group. unfold hms.
        rewrite rmatch_seq, rmatch_plus_cons; [done|].
        by apply is_space_not_digit.
    + left. intros d s' g' Hd. rewrite rmatch_seq, rmatch_lit.
      destruct (N.eqb_spec d c_minus) as [->|]; [|done].
      cbn in Hd. congruence.
  - destruct Hw1 as [|c w1 Hc _]; intros d [= <-]; [done|].
    by apply is_space_not_digit.
  - left. intros d s' g' Hd.
    rewrite rmatch_seq, rmatch_star_cons by by apply is_digit_not_space.
    by rewrite rmatch_seq, rmatch_lit, (is_digit_neq d c_minus).
Qed.

Lemma time_code_extend t h m s ms d :
  time_code t h m s ms -> Forall (fun c => is_digit c = true) d ->
  time_code (t ++ d) h m s (ms ++ d).
Proof.
  intros (sep & Hh & Hm & Hs & [Hne Hms] & Hsep & ->) Hd.
  exists sep. split_and!; try done.
  - split; [by intros [? _]%app_eq_nil|by apply Forall_app].
  - by rewrite <-!(assoc_L (++)).
Qed.

Lemma re_match_timing_line line h m s ms :
  timing_line line h m s ms ->
  exists g, re_match timecode_pattern line = Some g /\
            group 1 g = h ++ [c_colon] ++ m ++ [c_colon] ++ s /\
            group 2 g = ms.
Proof.
  intros (t1 & w1 & w2 & t2 & h2 & m2 & s2 & ms2 & rest &
          Ht1 & Hw1 & Hw2 & Ht2 & ->).
  destruct (lstrip_with_split is_digit rest) as (d & Hrest & Hd & Hstop).
  rewrite Hrest, (assoc_L (++) t2 d).
  eexists. split.
  - apply re_match_timing_line_stop; [done..| |done].
    by apply time_code_extend.
  - done.
Qed.

Lemma lang_seq_inv r1 r2 x :
  lang (r1 ⋅ r2) x -> exists a b, x = a ++ b /\ lang r1 a /\ lang r2 b.
Proof. inversion 1; subst. by eexists _, _. Qed.

Lemma lang_lit_inv c x : lang (Lit c) x -> x = [c].
Proof. by inversion 1. Qed.

Lemma lang_cls_inv cl x :
  lang (Cls cl) x -> exists c, x = [c] /\ in_class cl c = true.
Proof. inversion 1; subst. by eexists. Qed.

Lemma lang_plus_digit_inv x : lang (Plus Digit) x -> digits x.
Proof. by inversion 1. Qed.

Lemma lang_star_space_inv x : lang (Star Space) x -> spaces x.
Proof. by inversion 1. Qed.

Lemma lang_group_inv n r x : lang (Group n r) x -> lang r x.
Proof. by inversion 1. Qed.

Lemma lang_hms x :
  lang hms x ->
  exists h m s, digits h /\ digits m /\ digits s /\
                x = h ++ [c_colon] ++ m ++ [c_colon] ++ s.
Proof.
  unfold hms.
  intros (h & ? & -> & Hh%lang_plus_digit_inv &
          (? & ? & -> & ->%lang_lit_inv &
           (m & ? & -> & Hm%lang_plus_digit_inv &
            (? & s & -> & ->%lang_lit_inv & Hs%lang_plus_digit_inv
            )%lang_seq_inv)%lang_seq_inv)%lang_seq_inv)%lang_seq_inv.
  by exists h, m, s.
Qed.

Lemma lang_time_code n1 n2 x :
  lang (Group n1 hms ⋅ Cls (OneOf [c_comma; c_dot]) ⋅ Group n2 (Plus Digit)) x ->
  exists h m s ms, time_code x h m s ms.
Proof.
  intros (? & ? & -> & (h & m & s & Hh & Hm & Hs & ->)%lang_group_inv%lang_hms &
          (? & ms & -> & (sep & -> & Hsep)%lang_cls_inv &
           Hms%lang_group_inv%lang_plus_digit_inv)%lang_seq_inv)%lang_seq_inv.
  exists h, m, s, ms, sep. split_and!; try done.
  - by apply bool_decide_eq_true in Hsep.
  - by rewrite <-!(assoc_L (++)).
Qed.

Lemma lang_seq3_inv r1 r2 r3 r4 x :
  lang (r1 ⋅ r2 ⋅ r3 ⋅ r4) x ->
  exists a b, x = a ++ b /\ lang (r1 ⋅ r2 ⋅ r3) a /\ lang r4 b.
Proof.
  intros (a1 & ? & -> & H1 & (a2 & ? & -> & H2 &
          (a3 & b & -> & H3 & H4)%lang_seq_inv)%lang_seq_inv)%lang_seq_inv.
  exists (a1 ++ a2 ++ a3), b. split_and!; [|by repeat apply lang_seq|done].
  by rewrite <-!(assoc_L (++)).
Qed.

Lemma re_match_sound line g :
  re_match timecode_pattern line = Some g ->
  exists h m s ms, timing_line line h m s ms.
Proof.
  intros (a & rest & g' & -> & Ha & _)%rmatch_sound.
  unfold timecode_pattern in Ha.
  apply lang_seq3_inv in Ha as
    (t1 & ? & -> & (h & m & s & ms & Ht1)%lang_time_code &
     (w1 & ? & -> & Hw1%lang_star_space_inv &
      (? & ? & -> & ->%lang_lit_inv &
       (? & ? & -> & ->%lang_lit_inv &
        (? & ? & -> & ->%lang_lit_inv &
         (w2 & t2 & -> & Hw2%lang_star_space_inv &
          (h2 & m2 & s2 & ms2 & Ht2)%lang_time_code
         )%lang_seq_inv)%lang_seq_inv)%lang_seq_inv)%lang_seq_inv)%lang_seq_inv).
  exists h, m, s, ms, t1, w1, w2, t2, h2, m2, s2, ms2, rest.
  split_and!; try done.
  by rewrite <-!(assoc_L (++)).
Qed.

End TimecodeFacts.

(** ** Time codes: results *)

Section TimecodeResults.
Context `{UnicodeData}.

Lemma ms_field_digits (ms : str) :
  digits ms -> digits (take 3 (ljust 3 c_zero ms)).
Proof.
  intros [Hne Hms]. unfold ljust. split.
  - destruct ms; [done|]. done.
  - apply Forall_take, Forall_app. split; [done|].
    apply Forall_replicate. by apply (is_digit_digit_char 0).
Qed.

Lemma timing_start_line line h m s ms :
  timing_line line h m s ms ->
  timing_start line =
    Some (h ++ [c_colon] ++ m ++ [c_colon] ++ s ++ [c_comma] ++
          take 3 (ljust 3 c_zero ms)).
Proof.
  intros (g & Hg & Hg1 & Hg2)%re_match_timing_line.
  unfold timing_start, start_of. rewrite Hg. simpl.
  rewrite Hg1, Hg2. by rewrite <-!(assoc_L (++)).
Qed.

Lemma timing_line_fields line h m s ms :
  timing_line line h m s ms -> digits h /\ digits m /\ digits s /\ digits ms.
Proof. intros (?&?&?&?&?&?&?&?&?&(?&?&?&?&?&?)&?). done. Qed.

Lemma ms_field_length (ms : str) : length (take 3 (ljust 3 c_zero ms)) = 3%nat.
Proof.
  unfold ljust. rewrite length_take, length_app, length_replicate. lia.
Qed.

(** What [time_to_ms] makes of a stored start time: the millisecond field
    has three digits, the other three fields are as long as the line has
    them. *)
Lemma time_to_ms_start (h m s ms : str) :
  digits h -> digits m -> digits s -> digits ms ->
  let mmm := take 3 (ljust 3 c_zero ms) in
  time_to_ms (h ++ [c_colon] ++ m ++ [c_colon] ++ s ++ [c_comma] ++ mmm) =
    if within_limit h && within_limit m && within_limit s
    then Some (digits_value h * 3600000 + digits_value m * 60000 +
               digits_value s * 1000 + digits_value mmm)
    else None.
Proof.
  intros Hh Hm Hs Hms mmm.
  rewrite time_to_ms_digits; [|done..|by apply ms_field_digits].
  rewrite (within_limit_short mmm), andb_true_r; [done|].
  unfold mmm. rewrite ms_field_length. lia.
Qed.

(** A stored start time of at most 4300 characters is one [time_to_ms]
    converts. *)
Lemma timing_start_short line start :
  timing_start line = Some start -> (length start <= 4300)%nat ->
  is_Some (time_to_ms start).
Proof.
  intros Hstart Hlen.
  assert (exists h m s ms, timing_line line h m s ms) as (h & m & s & ms & Hline).
  { unfold timing_start in Hstart.
    destruct (re_match timecode_pattern line) as [g|] eqn:Hg; [|done].
    by apply re_match_sound in Hg. }
  pose proof (timing_start_line _ _ _ _ _ Hline) as Hst.
  assert (start = h ++ [c_colon] ++ m ++ [c_colon] ++ s ++ [c_comma] ++
                  take 3 (ljust 3 c_zero ms)) as -> by congruence.
  destruct (timing_line_fields _ _ _ _ _ Hline) as (? & ? & ? & ?).
  rewrite !length_app in Hlen.
  rewrite time_to_ms_start, !within_limit_short by (done || lia). done.
Qed.

End TimecodeResults.

(** C4. For every millisecond count below 24 hours, [time_to_ms] applied to
    the canonical text H:MM:SS,mmm of the count (minutes and seconds padded
    to two digits, milliseconds to three, hours to any width [int] takes,
    which is up to 4300 digits) returns the count. With the hours padded
    to more digits than that, [int] raises, and [time_to_ms] with it. *)
Theorem canonical_round_trip `{UnicodeData} (hours_width : nat) (ms : Z) :
  0 <= ms < 86400000 ->
  time_to_ms (canonical_format hours_width ms) =
    if bool_decide (Z.of_nat hours_width <= int_max_str_digits) then Some ms
    else None.
Proof.
  intros [Hms Hday]. rewrite canonical_format_ms by done.
  assert (0 <= ms / 3600000 <= 23) as Hh.
  { split; [apply Z.div_pos; lia|]. apply Z.lt_succ_r, Z.div_lt_upper_bound; lia. }
  pose proof (decimal_length _ 23 Hh) as Hlen.
  change (Z.to_nat (Z.log2 23)) with 4%nat in Hlen.
  unfold within_limit, int_max_str_digits. rewrite length_zfill.
  repeat case_bool_decide; (done || lia).
Qed.

Lemma canonical_round_trip_witness :
  0 <= 3723004 < 86400000 /\
  canonical_format 1 3723004 = py "1:02:03,004" /\
  time_to_ms (canonical_format 1 3723004) = Some 3723004.
Proof.
  split; [lia|]. split; [reflexivity|].
  rewrite (canonical_round_trip 1 3723004) by lia. reflexivity.
Defined.

(** C5, as amended. [parse_srt] accepts a timing line exactly when the line
    starts with two time codes separated by an arrow, where hours, minutes,
    seconds and milliseconds are one or more digits each, the milliseconds
    follow a comma or a period, white space is optional round the arrow and
    anything may follow the second time code. The start time it stores is
    the first three fields, a comma, and the millisecond field padded with
    zeros to three digits or cut to three. When hours, minutes and seconds
    have at most 4300 digits each, [time_to_ms] reads the stored start time
    as H*3600000 + M*60000 + S*1000 + mmm; when one of them has more, the
    line is accepted all the same and [time_to_ms] raises on the start
    time, [int] taking no more than 4300 digits. *)
Theorem timing_line_accepted `{UnicodeData} (line : str) :
  (is_Some (timing_start line) <-> exists h m s ms, timing_line line h m s ms) /\
  (forall h m s ms, timing_line line h m s ms ->
     let mmm := take 3 (ljust 3 c_zero ms) in
     let start := h ++ [c_colon] ++ m ++ [c_colon] ++ s ++ [c_comma] ++ mmm in
     timing_start line = Some start /\
     time_to_ms start =
       if within_limit h && within_limit m && within_limit s
       then Some (digits_value h * 3600000 + digits_value m * 60000 +
                  digits_value s * 1000 + digits_value mmm)
       else None).
Proof.
  split.
  - split.
    + intros [start Hstart]. unfold timing_start in Hstart.
      destruct (re_match timecode_pattern line) as [g|] eqn:Hg; [|done].
      by apply re_match_sound in Hg.
    + intros (h & m & s & ms & Hline).
      rewrite (timing_start_line _ _ _ _ _ Hline). eauto.
  - intros h m s ms Hline. cbv zeta. split; [by apply timing_start_line|].
    destruct (timing_line_fields _ _ _ _ _ Hline) as (? & ? & ? & ?).
    by apply time_to_ms_start.
Qed.

(** C5, as stated, fails: a line with one-digit minutes and seconds is
    accepted, although it does not match the claimed pattern. *)
Lemma timing_line_counterexample :
  timing_start (py "0:1:2,5 --> 0:0:3,0") = Some (py "0:1:2,500") /\
  time_to_ms (py "0:1:2,500") = Some 62500 /\
  re_match claimed_pattern (py "0:1:2,5 --> 0:0:3,0") = None.
Proof. by vm_compute. Qed.

Example timing_line_example :
  timing_line (py "00:01:02.5678-->00:00:03,0 X")
    (py "00") (py "01") (py "02") (py "5678").
Proof.
  assert (Hd : forall s, nonempty s = true -> forallb is_digit s = true -> digits s).
  { intros s Hne Hs. split; [by destruct s|].
    apply Forall_forall. intros c Hc%list_elem_of_In.
    rewrite forallb_forall in Hs. auto. }
  exists (py "00:01:02.5678"), [], [], (py "00:00:03,0"),
    (py "00"), (py "00"), (py "03"), (py "0"), (py " X").
  split_and!; try done; try apply Forall_nil_2.
  - exists c_dot. split_and!; try (by apply Hd); [|done]. rewrite !elem_of_cons; auto.
  - exists c_comma. split_and!; try (by apply Hd); [|done]. rewrite !elem_of_cons; auto.
Qed.

Lemma timing_line_accepted_witness :
  timing_start (py "00:01:02.5678-->00:00:03,0 X") = Some (py "00:01:02,567") /\
  time_to_ms (py "00:01:02,567") = Some 62567.
Proof.
  exact (proj2 (timing_line_accepted (py "00:01:02.5678-->00:00:03,0 X"))
           _ _ _ _ timing_line_example).
Defined.

(** ** Blocks *)

Section BlockFacts.
Context `{UnicodeData}.

Lemma collect_from (acc : list entry) (blocks : list str) :
  foldl (fun entries block => entries ++ block_entries block) acc blocks =
  acc ++ collect blocks.
Proof.
  unfold collect. revert acc.
  induction blocks as [|b blocks IH]; intros acc; cbn [foldl].
  - by rewrite app_nil_r.
  - rewrite IH, (IH (_ ++ _)). by rewrite app_nil_l, (assoc_L (++)).
Qed.

Lemma collect_cons (block : str) (blocks : list str) :
  collect (block :: blocks) = block_entries block ++ collect blocks.
Proof. unfold collect at 1. cbn [foldl]. by rewrite collect_from. Qed.

Lemma collect_app (before after : list str) :
  collect (before ++ after) = collect before ++ collect after.
Proof.
  induction before as [|b before IH]; [done|].
  cbn [app]. by rewrite !collect_cons, IH, (assoc_L (++)).
Qed.

Lemma block_entries_malformed (block : str) :
  malformed block -> block_entries block = [].
Proof.
  unfold malformed, block_entries. cbv zeta. intros [Hlen|Hno].
  - by rewrite (proj2 (Nat.leb_gt _ _)).
  - destruct (_ <=? _)%nat; [|done].
    destruct (split [c_nl] block !! 1%nat) as [line|] eqn:Hline; [|done].
    cbn [mbind option_bind].
    destruct (re_match timecode_pattern line) as [g|] eqn:Hg; [|done].
    destruct Hno. apply re_match_sound in Hg as (h & m & s & ms & Hl).
    by exists line, h, m, s, ms.
Qed.

Lemma block_entries_nil (block : str) :
  block_entries block = [] -> malformed block.
Proof.
  unfold malformed, block_entries. cbv zeta.
  destruct (Nat.leb_spec 3 (length (split [c_nl] block))) as [Hlen|Hlen];
    [|intros _; by left].
  intros Hnil. right. intros (line & h & m & s & ms & Hline & Hl).
  rewrite Hline in Hnil. cbn [mbind option_bind] in Hnil.
  apply re_match_timing_line in Hl as (g & Hg & _). by rewrite Hg in Hnil.
Qed.

Lemma block_entries_well_formed (block : str) :
  ~ malformed block -> exists e, block_entries block = [e].
Proof.
  intros Hwf. destruct (block_entries block) as [|e entries] eqn:He.
  { by apply block_entries_nil in He. }
  exists e. revert He. unfold block_entries. cbv zeta.
  destruct (_ <=? _)%nat; [|done]. destruct (_ ≫= _); [|done]. by intros [= <- <-].
Qed.

(** The entry of a block, by way of [timing_start]. *)
Lemma block_entries_timing_start (block : str) :
  block_entries block =
    let lines := split [c_nl] block in
    if (3 <=? length lines)%nat then
      match lines !! 1%nat ≫= timing_start with
      | Some start =>
        [(start, replace c_nl c_space (join [c_space] (drop 2 lines)))]
      | None => []
      end
    else [].
Proof.
  unfold block_entries, timing_start. cbv zeta.
  destruct (_ <=? _)%nat; [|done].
  destruct (split [c_nl] block !! 1%nat) as [line|]; [|done]. simpl.
  by destruct (re_match timecode_pattern line).
Qed.

(** Two newlines after a tidy block are the next separator. *)
Lemma split_tidy (a b : str) :
  tidy_block a ->
  split [c_nl; c_nl] (a ++ [c_nl; c_nl] ++ b) = a :: split [c_nl; c_nl] b.
Proof.
  intros [Hfind Hlast]. apply split_app; [done|].
  intros a1 [|c [|d a2]] -> Hne; [done| |].
  - cbn [app startswith]. destruct (N.eqb_spec c_nl c) as [<-|]; [|done].
    by rewrite last_snoc in Hlast.
  - cbn [app startswith].
    destruct (N.eqb_spec c_nl c) as [<-|]; [|done].
    destruct (N.eqb_spec c_nl d) as [<-|]; [|done].
    apply find_none_app in Hfind. done.
Qed.

Lemma split_one_tidy (a : str) :
  tidy_block a -> split [c_nl; c_nl] a = [a].
Proof. intros [Hfind _]. rewrite split_unfold by done. by rewrite Hfind. Qed.

Lemma split_join_tidy (blocks : list str) :
  blocks <> [] -> Forall tidy_block blocks ->
  split [c_nl; c_nl] (join [c_nl; c_nl] blocks) = blocks.
Proof.
  intros Hne Hall. induction Hall as [|a blocks Ha Hall IH]; [done|].
  destruct blocks as [|b blocks].
  - by apply split_one_tidy.
  - change (join [c_nl; c_nl] (a :: b :: blocks)) with
      (a ++ [c_nl; c_nl] ++ join [c_nl; c_nl] (b :: blocks)).
    rewrite split_tidy by done. f_equal. by apply IH.
Qed.

(** What [strip] leaves does not end in white space. *)
Lemma lstrip_with_stop (p : char -> bool) (s : str) (c : char) :
  head (lstrip_with p s) = Some c -> p c = false.
Proof.
  induction s as [|d s IH]; [done|]. simpl.
  destruct (p d) eqn:Hd; [done|]. by intros [= <-].
Qed.

Lemma strip_last (s : str) (c : char) :
  last (strip s) = Some c -> is_space c = false.
Proof.
  unfold strip, strip_with. rewrite last_reverse. apply lstrip_with_stop.
Qed.

Lemma strip_no_trailing_newline (s : str) : last (strip s) <> Some c_nl.
Proof.
  intros Hl%strip_last. by rewrite is_space_ascii in Hl.
Qed.

(** No block ends in a newline, whatever the number of blank lines. *)
Lemma split_blocks_last (s : str) :
  last s <> Some c_nl ->
  Forall (fun b => last b <> Some c_nl) (split [c_nl; c_nl] s).
Proof.
  remember (length s) as n eqn:Hn. revert s Hn.
  induction n as [n IH] using lt_wf_ind. intros s -> Hlast.
  rewrite split_unfold by done. change (length [c_nl; c_nl]) with 2%nat.
  destruct (find [c_nl; c_nl] s) as [i|] eqn:Hf; [|by repeat constructor].
  pose proof (find_bound _ _ _ Hf) as Hb. cbn [length] in Hb.
  pose proof (find_here _ _ _ Hf) as [t Ht]%startswith_inv.
  constructor.
  - intros [l' Hl']%last_Some.
    assert (length l' < i)%nat as Hlt.
    { apply (f_equal length) in Hl'.
      rewrite length_take, length_app in Hl'. simpl in Hl'. lia. }
    pose proof (find_first _ _ _ _ Hf Hlt) as Hno.
    rewrite <-(take_drop i s), Hl', Ht, <-(assoc_L (++)) in Hno.
    by rewrite drop_app_length in Hno.
  - apply (IH (length (drop (i + 2) s))); [rewrite length_drop; lia|done|].
    intros Hl. apply Hlast.
    rewrite <-(take_drop (i + 2) s), last_app. by rewrite Hl.
Qed.

(** The last line of a block that does not end in a newline is not empty. *)
Lemma split_lines_last (b l : str) :
  b <> [] -> last b <> Some c_nl -> last (split [c_nl] b) = Some l -> l <> [].
Proof.
  remember (length b) as n eqn:Hn. revert b Hn.
  induction n as [n IH] using lt_wf_ind. intros b -> Hne Hlast.
  rewrite split_unfold by done. change (length [c_nl]) with 1%nat.
  destruct (find [c_nl] b) as [i|] eqn:Hf; [|by intros [= <-]].
  pose proof (find_bound _ _ _ Hf) as Hb. cbn [length] in Hb.
  pose proof (find_split _ _ _ Hf) as Hs. cbn [length] in Hs.
  set (rest := drop (i + 1) b) in *.
  assert (rest <> []) as Hrest.
  { intros Hr. apply Hlast. rewrite Hs, Hr. cbn [app].
    by rewrite last_snoc. }
  pose proof (split_nonempty [c_nl] rest) as Hsp.
  destruct (split [c_nl] rest) as [|x xs] eqn:Hx; [done|].
  rewrite last_cons_cons, <-Hx.
  apply (IH (length rest)); [unfold rest; rewrite length_drop; lia|done|done|].
  intros Hl. apply Hlast. rewrite Hs, (assoc_L (++)), last_app. by rewrite Hl.
Qed.

Lemma join_nonempty (sep : str) (l : list str) (x : str) :
  sep <> [] -> l <> [] -> last l = Some x -> x <> [] -> join sep l <> [].
Proof.
  intros Hsep Hl Hlast Hx. destruct l as [|a [|b l]]; [done| |].
  - by injection Hlast as ->.
  - change (join sep (a :: b :: l)) with (a ++ sep ++ join sep (b :: l)).
    intros [_ [? _]%app_eq_nil]%app_eq_nil. done.
Qed.

(** An entry of a block that does not end in a newline has a text that is
    not empty, and a start time that [time_to_ms] converts when it has at
    most 4300 characters. *)
Lemma block_entries_sound (block : str) (e : entry) :
  last block <> Some c_nl -> e ∈ block_entries block ->
  ((length e.1 <= 4300)%nat -> is_Some (time_to_ms e.1)) /\ e.2 <> [].
Proof.
  intros Hlast. unfold block_entries. cbv zeta.
  destruct (Nat.leb_spec 3 (length (split [c_nl] block))) as [Hlen|]; [|by intros ?%elem_of_nil].
  destruct (split [c_nl] block !! 1%nat) as [line|] eqn:Hline; [|by intros ?%elem_of_nil].
  cbn [mbind option_bind].
  destruct (re_match timecode_pattern line) as [g|] eqn:Hg; [|by intros ?%elem_of_nil].
  intros ->%list_elem_of_singleton. cbn [fst snd]. split.
  - apply (timing_start_short line). unfold timing_start. by rewrite Hg.
  - unfold replace. intros Hnil%fmap_nil_inv. revert Hnil.
    assert (block <> []) as Hne.
    { intros ->. revert Hlen. unfold split. simpl. lia. }
    destruct (split [c_nl] block) as [|l0 [|l1 [|l2 ls]]] eqn:Hs;
      try (simpl in Hlen; lia).
    cbn [drop].
    destruct (last (l2 :: ls)) as [x|] eqn:Hx; [|by apply last_None in Hx].
    apply (join_nonempty _ _ x); [done|done|done|].
    apply (split_lines_last block); [done|done|].
    by rewrite Hs, !last_cons_cons.
Qed.

Lemma collect_elem (blocks : list str) (e : entry) :
  e ∈ collect blocks -> exists b, b ∈ blocks /\ e ∈ block_entries b.
Proof.
  induction blocks as [|b blocks IH].
  - by intros ?%elem_of_nil.
  - rewrite collect_cons. intros [He|He]%elem_of_app.
    + exists b. split; [left|done].
    + destruct (IH He) as (b' & ? & ?). exists b'. split; [by right|done].
Qed.

(** Every track [parse_srt] returns has texts that are not empty, and time
    codes that [time_to_ms] converts when none has more than 4300
    characters. *)
Lemma parse_content_sound (content : str) :
  (short_time_codes (parse_content content) ->
   well_formed (parse_content content)) /\
  has_text (parse_content content).
Proof.
  assert (forall e, e ∈ parse_content content ->
            ((length e.1 <= 4300)%nat -> is_Some (time_to_ms e.1)) /\
            e.2 <> []) as Hall.
  { intros e (b & Hb & He)%collect_elem.
    apply (block_entries_sound b); [|done].
    pose proof (split_blocks_last (strip content)
                  (strip_no_trailing_newline content)) as Hbl.
    rewrite Forall_forall in Hbl. by apply Hbl. }
  split.
  - intros Hshort. apply Forall_forall. intros e He.
    apply Hall; [done|]. unfold short_time_codes in Hshort.
    rewrite Forall_forall in Hshort. by apply Hshort.
  - apply Forall_forall. intros e He. by apply Hall.
Qed.

Lemma short_time_codes_check (track : list entry) :
  forallb (fun e : entry => (length e.1 <=? 4300)%nat) track = true ->
  short_time_codes track.
Proof.
  intros Hall. apply Forall_forall. intros e He%list_elem_of_In.
  rewrite forallb_forall in Hall. by apply Nat.leb_le, Hall.
Qed.

End BlockFacts.

(** ** The parser: results *)

Lemma collect_malformed `{UnicodeData} (blocks : list str) :
  Forall malformed blocks -> collect blocks = [].
Proof.
  induction 1 as [|b blocks Hb _ IH]; [done|].
  by rewrite collect_cons, block_entries_malformed, IH.
Qed.

(** C6, as amended. The parser strips the white space at both ends of the
    document and cuts what is left at each occurrence, from the left, of
    two consecutive newline characters: a separator is exactly one empty
    line. After a block that has no empty line inside and no newline at
    its end, the next two newlines are the separator and whatever follows
    them, a further newline included, is cut on its own; and when what is
    left of the document is made of such blocks joined by single blank
    lines, the document gives the entries of the blocks in order. *)
Theorem single_blank_line_separator `{UnicodeData}
    (content block rest : str) (blocks : list str) :
  (tidy_block block ->
   split [c_nl; c_nl] (block ++ [c_nl; c_nl] ++ rest) =
     block :: split [c_nl; c_nl] rest) /\
  (blocks <> [] -> Forall tidy_block blocks ->
   strip content = join [c_nl; c_nl] blocks ->
   parse_srt (Some content) = Some (collect blocks)).
Proof.
  split; [apply split_tidy|].
  intros Hne Hall Hstrip. unfold parse_srt, parse_content. cbv zeta.
  by rewrite Hstrip, split_join_tidy.
Qed.

Lemma single_blank_line_separator_witness :
  let b1 := unlines ["1"; "00:00:01,000 --> 00:00:02,000"; "a"] in
  let b2 := unlines ["2"; "00:00:03,000 --> 00:00:04,000"; "b"; "c"] in
  split [c_nl; c_nl] (b1 ++ [c_nl; c_nl] ++ c_nl :: b2) =
    b1 :: split [c_nl; c_nl] (c_nl :: b2) /\
  parse_srt (Some (c_nl :: join [c_nl; c_nl] [b1; b2] ++ py " " ++ [c_nl])) =
    Some [(py "00:00:01,000", py "a"); (py "00:00:03,000", py "b c")].
Proof.
  intros b1 b2.
  assert (Ht : forall b, find [c_nl; c_nl] b = None ->
                         bool_decide (last b = Some c_nl) = false ->
                         tidy_block b).
  { intros b Hf Hl. split; [done|]. by apply bool_decide_eq_false in Hl. }
  split.
  - apply (proj1 (single_blank_line_separator [] b1 (c_nl :: b2) [])).
    by apply Ht.
  - rewrite (proj2 (single_blank_line_separator
                      (c_nl :: join [c_nl; c_nl] [b1; b2] ++ py " " ++ [c_nl])
                      [] [] [b1; b2])).
    + reflexivity.
    + done.
    + repeat constructor; by apply Ht.
    + reflexivity.
Defined.

(** C6, as stated, fails: with two blank lines between the blocks the
    second block starts with an empty line, its number is taken for the
    timing line, and its entry is lost. *)
Lemma two_blank_lines_counterexample :
  parse_srt (Some (unlines ["1"; "00:00:01,000 --> 00:00:02,000"; "a"; "";
                            "2"; "00:00:03,000 --> 00:00:04,000"; "b"])) =
    Some [(py "00:00:01,000", py "a"); (py "00:00:03,000", py "b")] /\
  parse_srt (Some (unlines ["1"; "00:00:01,000 --> 00:00:02,000"; "a"; ""; "";
                            "2"; "00:00:03,000 --> 00:00:04,000"; "b"])) =
    Some [(py "00:00:01,000", py "a")].
Proof. by vm_compute. Qed.

Lemma collect_nil `{UnicodeData} (blocks : list str) :
  collect blocks = [] -> Forall malformed blocks.
Proof.
  induction blocks as [|b blocks IH]; [done|].
  rewrite collect_cons. intros [Hb Hbs]%app_eq_nil.
  constructor; [by apply block_entries_nil|by apply IH].
Qed.

(** C8, as amended. The blocks that add no entry are exactly those with
    fewer than three lines or with a second line that does not start with
    a range of two time codes as the parser reads them (one or more digits
    for every field, see C5). Such a block leaves the entries of the
    blocks before and after it as they are; every readable document is
    parsed to a track, and to the empty track exactly when all its blocks
    are of this kind. *)
Theorem malformed_blocks_skipped `{UnicodeData}
    (content block : str) (before after : list str) :
  (malformed block <-> block_entries block = []) /\
  (malformed block ->
   collect (before ++ block :: after) = collect before ++ collect after) /\
  is_Some (parse_srt (Some content)) /\
  (Forall malformed (split [c_nl; c_nl] (strip content)) <->
   parse_srt (Some content) = Some []).
Proof.
  split_and!.
  - split; [apply block_entries_malformed|apply block_entries_nil].
  - intros Hb. by rewrite collect_app, collect_cons, block_entries_malformed.
  - by eexists.
  - unfold parse_srt, parse_content. cbv zeta. split.
    + intros Hall. by rewrite collect_malformed.
    + intros [= Hnil]. by apply collect_nil.
Qed.

Lemma malformed_blocks_skipped_witness :
  let b1 := unlines ["1"; "00:00:01,000 --> 00:00:02,000"; "a"] in
  let bad := unlines ["2"; "no timing here"; "x"] in
  let short := unlines ["3"; "00:00:05,000 --> 00:00:06,000"] in
  let b4 := unlines ["4"; "00:00:07,000 --> 00:00:08,000"; "d"] in
  collect ([b1] ++ bad :: [b4]) =
    [(py "00:00:01,000", py "a"); (py "00:00:07,000", py "d")] /\
  parse_srt (Some (join [c_nl; c_nl] [bad; short])) = Some [].
Proof.
  intros b1 bad short b4.
  assert (Hbad : malformed bad).
  { by apply (proj2 (proj1 (malformed_blocks_skipped [] bad [] []))). }
  assert (Hshort : malformed short) by (left; vm_compute; lia).
  split.
  - rewrite (proj1 (proj2 (malformed_blocks_skipped [] bad [b1] [b4])) Hbad).
    reflexivity.
  - apply (proj1 (proj2 (proj2 (proj2 (malformed_blocks_skipped
                           (join [c_nl; c_nl] [bad; short]) [] [] []))))).
    change (split [c_nl; c_nl] (strip (join [c_nl; c_nl] [bad; short])))
      with [bad; short].
    constructor; [exact Hbad|]. constructor; [exact Hshort|]. constructor.
Defined.

(** C8, as stated, fails: the second line of this block does not match
    the pattern of the specification (minutes and seconds of two digits),
    so the block is malformed as the specification has it; yet the parser
    takes an entry from it. *)
Lemma malformed_blocks_counterexample :
  let block := unlines ["1"; "0:1:2,5 --> 0:0:3,0"; "text"] in
  malformed_as_specified block /\
  block_entries block = [(py "0:1:2,500", py "text")] /\
  parse_srt (Some block) = Some [(py "0:1:2,500", py "text")].
Proof. split; [by right|by vm_compute]. Qed.

(** ** The loops of [align_subtitles] *)

Section LoopFacts.
Context `{UnicodeData}.
Variables (ko_entries ja_entries : list entry) (threshold : Z).

Lemma merge_nil_l (jas : list entry) :
  merge threshold [] jas = Some (solo_ja <$> jas).
Proof. done. Qed.

Lemma merge_nil_r (kos : list entry) :
  merge threshold kos [] = Some (solo_ko <$> kos).
Proof. by destruct kos. Qed.

Lemma merge_cons_cons (ko ja : entry) (kos jas : list entry) :
  merge threshold (ko :: kos) (ja :: jas) =
    ko_time ← time_to_ms ko.1;
    ja_time ← time_to_ms ja.1;
    if bool_decide (Z.abs (ko_time - ja_time) <= threshold) then
      cons (merged ko ja) <$> merge threshold kos jas
    else if bool_decide (ko_time < ja_time) then
      cons (solo_ko ko) <$> merge threshold kos (ja :: jas)
    else
      cons (solo_ja ja) <$> merge threshold (ko :: kos) jas.
Proof. done. Qed.

Lemma merge_ind (P : list entry -> list entry -> Prop) :
  (forall jas, P [] jas) ->
  (forall ko kos, P (ko :: kos) []) ->
  (forall ko kos ja jas,
     P kos jas -> P kos (ja :: jas) -> P (ko :: kos) jas ->
     P (ko :: kos) (ja :: jas)) ->
  forall kos jas, P kos jas.
Proof.
  intros Hl Hr Hstep kos.
  induction kos as [|ko kos IHko]; [done|].
  intros jas. induction jas as [|ja jas IHja]; [done|].
  by apply Hstep.
Qed.

(** The two loops that drain a track. *)
Lemma while_ko_left (fuel i j : nat) (acc : list row) :
  (length ko_entries - i <= fuel)%nat ->
  while fuel (ko_left ko_entries) (ko_body ko_entries) (Locals i j acc) =
  Done (Locals (i `max` length ko_entries) j
          (acc ++ (solo_ko <$> drop i ko_entries))).
Proof.
  revert i acc. induction fuel as [|fuel IH]; intros i acc Hfuel.
  - cbn [while]. unfold ko_left. cbn [ko_ptr].
    rewrite bool_decide_eq_false_2 by lia.
    rewrite drop_ge by lia. rewrite app_nil_r. f_equal. f_equal. lia.
  - cbn [while]. unfold ko_left, ko_body. cbn [ko_ptr ja_ptr aligned].
    case_bool_decide as Hi.
    + destruct (lookup_lt_is_Some_2 ko_entries i Hi) as [ko Hko].
      rewrite Hko. cbn [mbind option_bind].
      rewrite IH by lia. rewrite (drop_S _ _ _ Hko).
      rewrite fmap_cons, <-(assoc_L (++)). cbn [app]. f_equal. f_equal. lia.
    + rewrite drop_ge by lia. rewrite app_nil_r. f_equal. f_equal. lia.
Qed.

Lemma while_ja_left (fuel i j : nat) (acc : list row) :
  (length ja_entries - j <= fuel)%nat ->
  while fuel (ja_left ja_entries) (ja_body ja_entries) (Locals i j acc) =
  Done (Locals i (j `max` length ja_entries)
          (acc ++ (solo_ja <$> drop j ja_entries))).
Proof.
  revert j acc. induction fuel as [|fuel IH]; intros j acc Hfuel.
  - cbn [while]. unfold ja_left. cbn [ja_ptr].
    rewrite bool_decide_eq_false_2 by lia.
    rewrite drop_ge by lia. rewrite app_nil_r. f_equal. f_equal. lia.
  - cbn [while]. unfold ja_left, ja_body. cbn [ko_ptr ja_ptr aligned].
    case_bool_decide as Hj.
    + destruct (lookup_lt_is_Some_2 ja_entries j Hj) as [ja Hja].
      rewrite Hja. cbn [mbind option_bind].
      rewrite IH by lia. rewrite (drop_S _ _ _ Hja).
      rewrite fmap_cons, <-(assoc_L (++)). cbn [app]. f_equal. f_equal. lia.
    + rewrite drop_ge by lia. rewrite app_nil_r. f_equal. f_equal. lia.
Qed.

Lemma while_both_left (fuel i j : nat) (acc : list row)
    (K : locals -> outcome (list row)) :
  (forall st, K st = Done (drained ko_entries ja_entries st)) ->
  ((length ko_entries - i) + (length ja_entries - j) <= fuel)%nat ->
  and_then
    (while fuel (both_left ko_entries ja_entries)
       (main_body ko_entries ja_entries threshold) (Locals i j acc)) K =
  of_option (app acc <$> merge threshold (drop i ko_entries) (drop j ja_entries)).
Proof.
  intros HK. revert i j acc.
  induction fuel as [|fuel IH]; intros i j acc Hfuel.
  - cbn [while]. unfold both_left. cbn [ko_ptr ja_ptr].
    rewrite !bool_decide_eq_false_2 by lia. cbn [andb and_then].
    rewrite HK. unfold drained. cbn [ko_ptr ja_ptr aligned].
    by rewrite !drop_ge by lia.
  - cbn [while]. unfold both_left. cbn [ko_ptr ja_ptr].
    case_bool_decide as Hi; cbn [andb]; [case_bool_decide as Hj|].
    + destruct (lookup_lt_is_Some_2 ko_entries i Hi) as [ko Hko].
      destruct (lookup_lt_is_Some_2 ja_entries j Hj) as [ja Hja].
      rewrite (drop_S _ _ _ Hko), (drop_S _ _ _ Hja), merge_cons_cons.
      unfold main_body. cbn [ko_ptr ja_ptr aligned].
      rewrite Hko, Hja. cbn [mbind option_bind].
      destruct (time_to_ms ko.1) as [ko_time|]; [|done].
      destruct (time_to_ms ja.1) as [ja_time|]; [|done].
      cbn [mbind option_bind].
      repeat case_bool_decide; rewrite IH by lia;
        rewrite <-?(drop_S _ _ _ Hko), <-?(drop_S _ _ _ Hja);
        (destruct (merge threshold _ _) as [rows|]; [|done]);
        cbn [fmap option_fmap option_map of_option];
        by rewrite <-(assoc_L (++)).
    + cbn [and_then]. rewrite HK. unfold drained. cbn [ko_ptr ja_ptr aligned].
      rewrite (drop_ge ja_entries) by lia. rewrite merge_nil_r.
      cbn [fmap option_fmap option_map of_option]. by rewrite fmap_nil, app_nil_r.
    + cbn [and_then]. rewrite HK. unfold drained. cbn [ko_ptr ja_ptr aligned].
      rewrite (drop_ge ko_entries) by lia. by rewrite merge_nil_l.
Qed.

(** The loops compute [merge], and [length ko_entries + length ja_entries]
    iterations are enough for every loop. *)
Lemma align_run_merge (fuel : nat) :
  (length ko_entries + length ja_entries <= fuel)%nat ->
  align_run ko_entries ja_entries threshold fuel =
  of_option (merge threshold ko_entries ja_entries).
Proof.
  intros Hfuel. unfold align_run.
  rewrite (while_both_left fuel 0 0 []); [|..|lia].
  - rewrite !drop_0. by destruct (merge _ _ _).
  - intros [i j acc]. rewrite while_ko_left by lia. cbn [and_then].
    rewrite while_ja_left by lia. cbn [and_then aligned].
    unfold drained. cbn [ko_ptr ja_ptr aligned].
    by rewrite (assoc_L (++)).
Qed.

End LoopFacts.

Lemma align_subtitles_merge `{UnicodeData} (kos jas : list entry) (t : Z) :
  align_subtitles kos jas t = of_option (merge t kos jas).
Proof. by apply align_run_merge. Qed.

(** ** Rows and entries *)

Section CoverFacts.
Context `{UnicodeData}.

Lemma covers_solo_ja (jas : list entry) : covers (solo_ja <$> jas) [] jas.
Proof. induction jas; [constructor|]. rewrite fmap_cons. by constructor. Qed.

Lemma covers_solo_ko (kos : list entry) : covers (solo_ko <$> kos) kos [].
Proof. induction kos; [constructor|]. rewrite fmap_cons. by constructor. Qed.

Lemma merge_covers (t : Z) (kos jas : list entry) (rows : list row) :
  merge t kos jas = Some rows -> covers rows kos jas.
Proof.
  revert rows. pattern kos, jas. apply merge_ind; clear kos jas.
  - intros jas rows. rewrite merge_nil_l. intros [= <-]. apply covers_solo_ja.
  - intros ko kos rows. rewrite merge_nil_r. intros [= <-]. apply (covers_solo_ko (ko :: kos)).
  - intros ko kos ja jas IH1 IH2 IH3 rows. rewrite merge_cons_cons.
    destruct (time_to_ms ko.1) as [ko_time|]; [|done].
    destruct (time_to_ms ja.1) as [ja_time|]; [|done].
    cbn [mbind option_bind].
    repeat case_bool_decide.
    + destruct (merge t kos jas) as [rows'|]; [|done].
      intros [= <-]. constructor. auto.
    + destruct (merge t kos (ja :: jas)) as [rows'|]; [|done].
      intros [= <-]. constructor. auto.
    + destruct (merge t (ko :: kos) jas) as [rows'|]; [|done].
      intros [= <-]. constructor. auto.
Qed.

Lemma merge_well_formed (t : Z) (kos jas : list entry) :
  well_formed kos -> well_formed jas -> is_Some (merge t kos jas).
Proof.
  pattern kos, jas. apply merge_ind; clear kos jas.
  - intros jas _ _. by rewrite merge_nil_l.
  - intros ko kos _ _. by rewrite merge_nil_r.
  - intros ko kos ja jas IH1 IH2 IH3 Hko Hja. rewrite merge_cons_cons.
    pose proof Hko as [[ko_time ->] Hkos]%Forall_cons.
    pose proof Hja as [[ja_time ->] Hjas]%Forall_cons.
    cbn [mbind option_bind].
    repeat case_bool_decide.
    + destruct (IH1 Hkos Hjas) as [rows ->]. by eexists.
    + destruct (IH2 Hkos Hja) as [rows ->]. by eexists.
    + destruct (IH3 Hko Hjas) as [rows ->]. by eexists.
Qed.

Lemma covers_length (rows : list row) (kos jas : list entry) :
  covers rows kos jas -> (length rows <= length kos + length jas)%nat.
Proof. induction 1; simpl; lia. Qed.

Lemma covers_texts (rows : list row) (kos jas : list entry) :
  covers rows kos jas -> has_text kos -> has_text jas ->
  filter (fun s => nonempty s = true) (row_ko <$> rows) = snd <$> kos /\
  filter (fun s => nonempty s = true) (row_ja <$> rows) = snd <$> jas.
Proof.
  assert (Hne : forall s : str, s <> [] -> nonempty s = true) by by intros [].
  induction 1 as [|ko ja rows kos jas _ IH|ko rows kos jas _ IH|ja rows kos jas _ IH];
    intros Hko Hja; [done|..].
  - apply Forall_cons in Hko as [Hko Hkos], Hja as [Hja Hjas].
    destruct (IH Hkos Hjas) as [IHk IHj].
    rewrite !fmap_cons. cbn [merged row_ko row_ja fst snd].
    rewrite !filter_cons_True by (apply Hne; first [apply Hko|apply Hja]).
    by rewrite IHk, IHj.
  - apply Forall_cons in Hko as [Hko Hkos].
    destruct (IH Hkos Hja) as [IHk IHj].
    rewrite !fmap_cons. cbn [solo_ko row_ko row_ja fst snd].
    rewrite filter_cons_True by (apply Hne, Hko).
    rewrite filter_cons_False by done.
    by rewrite IHk, IHj.
  - apply Forall_cons in Hja as [Hja Hjas].
    destruct (IH Hko Hjas) as [IHk IHj].
    rewrite !fmap_cons. cbn [solo_ja row_ko row_ja fst snd].
    rewrite filter_cons_False by done.
    rewrite filter_cons_True by (apply Hne, Hja).
    by rewrite IHk, IHj.
Qed.

Lemma covers_some_text (rows : list row) (kos jas : list entry) :
  covers rows kos jas -> has_text kos -> has_text jas ->
  Forall (fun r => ~ (row_ko r = [] /\ row_ja r = [])) rows.
Proof.
  induction 1 as [|ko ja rows kos jas _ IH|ko rows kos jas _ IH|ja rows kos jas _ IH];
    intros Hko Hja; [done|..].
  - apply Forall_cons in Hko as [Hko Hkos], Hja as [Hja Hjas].
    constructor; [|by apply IH]. by intros [? _].
  - apply Forall_cons in Hko as [Hko Hkos].
    constructor; [|by apply IH]. by intros [? _].
  - apply Forall_cons in Hja as [Hja Hjas].
    constructor; [|by apply IH]. by intros [_ ?].
Qed.

Lemma align_subtitles_done (kos jas : list entry) (t : Z) (rows : list row) :
  align_subtitles kos jas t = Done rows <-> merge t kos jas = Some rows.
Proof.
  rewrite align_subtitles_merge. destruct (merge t kos jas); simpl; naive_solver.
Qed.

End CoverFacts.

(** C2. A track is a sequence of entries as the parser makes them, none
    with an empty text ([parse_content_sound]). For two such tracks and
    every threshold, the rows [align_subtitles] returns take every entry of
    both tracks exactly once and in order, each alone or paired with one
    entry of the other track; the non-empty Korean texts of the rows are
    the texts of the Korean track, the non-empty Japanese texts those of
    the Japanese track, and their number is the number of entries of both
    tracks. Rows are returned whenever [time_to_ms] converts the time
    codes. *)
Theorem align_partition `{UnicodeData} (kos jas : list entry) (t : Z) :
  has_text kos -> has_text jas ->
  (forall rows, align_subtitles kos jas t = Done rows ->
     covers rows kos jas /\
     contributions rows = (length kos + length jas)%nat /\
     filter (fun s => nonempty s = true) (row_ko <$> rows) = snd <$> kos /\
     filter (fun s => nonempty s = true) (row_ja <$> rows) = snd <$> jas) /\
  (well_formed kos -> well_formed jas ->
   exists rows, align_subtitles kos jas t = Done rows).
Proof.
  intros Hko Hja. split.
  - intros rows Hrows%align_subtitles_done%merge_covers.
    split; [done|].
    destruct (covers_texts _ _ _ Hrows Hko Hja) as [Hk Hj].
    split; [|done]. unfold contributions. by rewrite Hk, Hj, !length_fmap.
  - intros Hkw Hjw. destruct (merge_well_formed t kos jas Hkw Hjw) as [rows Hrows].
    exists rows. by apply align_subtitles_done.
Qed.

Lemma align_partition_witness :
  let ko := unlines ["1"; "0:00:01,000 --> 0:00:02,000"; "a"; "";
                     "2"; "0:00:05,000 --> 0:00:06,000"; "b"] in
  let ja := unlines ["1"; "0:00:01,200 --> 0:00:02,000"; "x"; "";
                     "2"; "0:00:03,000 --> 0:00:04,000"; "y"] in
  let rows := [(py "0:00:01,000", py "a", py "x");
               (py "0:00:03,000", [], py "y");
               (py "0:00:05,000", py "b", [])] in
  align_subtitles (parse_content ko) (parse_content ja) 500 = Done rows /\
  covers rows (parse_content ko) (parse_content ja) /\
  contributions rows = 4%nat.
Proof.
  intros ko ja rows.
  assert (Hrows : align_subtitles (parse_content ko) (parse_content ja) 500 =
                  Done rows) by reflexivity.
  destruct (align_partition (parse_content ko) (parse_content ja) 500)
    as [Hpart _]; [apply parse_content_sound..|].
  destruct (Hpart rows Hrows) as (Hc & Hn & _).
  split; [done|]. split; [done|]. exact Hn.
Defined.

(** C7. With an empty Korean track the rows are the Japanese entries in
    order, each with an empty Korean text; with an empty Japanese track
    they are the Korean entries in order, each with an empty Japanese text;
    with both tracks empty there is no row. *)
Theorem align_empty_track `{UnicodeData} (track : list entry) (t : Z) :
  align_subtitles [] track t = Done ((fun e => (e.1, [], e.2)) <$> track) /\
  align_subtitles track [] t = Done ((fun e => (e.1, e.2, [])) <$> track) /\
  align_subtitles [] [] t = Done [].
Proof.
  rewrite !align_subtitles_merge, merge_nil_l, merge_nil_r. done.
Qed.

(** C9. For tracks that [parse_srt] returns and every threshold, no row
    that [align_subtitles] returns has both texts empty; and rows are
    returned whenever no time code of the tracks has more than 4300
    characters (with a longer field [int] raises). *)
Theorem aligned_rows_have_text `{UnicodeData}
    (ko_file ja_file : option str) (kos jas : list entry) (t : Z) :
  parse_srt ko_file = Some kos -> parse_srt ja_file = Some jas ->
  (forall rows, align_subtitles kos jas t = Done rows ->
     Forall (fun r => ~ (row_ko r = [] /\ row_ja r = [])) rows) /\
  (short_time_codes kos -> short_time_codes jas ->
   exists rows, align_subtitles kos jas t = Done rows).
Proof.
  destruct ko_file as [ko_content|]; [|done].
  destruct ja_file as [ja_content|]; [|done].
  intros [= <-] [= <-].
  destruct (parse_content_sound ko_content) as [Hko Hko'].
  destruct (parse_content_sound ja_content) as [Hja Hja'].
  split.
  - intros rows Hrows%align_subtitles_done%merge_covers.
    by apply (covers_some_text rows _ _ Hrows).
  - intros Hks Hjs.
    destruct (merge_well_formed t _ _ (Hko Hks) (Hja Hjs)) as [rows Hrows].
    exists rows. by apply align_subtitles_done.
Qed.

Lemma aligned_rows_have_text_witness :
  let ko := unlines ["1"; "00:00:01,000 --> 00:00:02,000"; "a"; "";
                     "2"; "00:00:05,000 --> 00:00:06,000"; "b"] in
  let ja := unlines ["1"; "00:00:01,200 --> 00:00:02,000"; "x"] in
  exists kos jas rows,
    parse_srt (Some ko) = Some kos /\ parse_srt (Some ja) = Some jas /\
    align_subtitles kos jas 500 = Done rows /\
    Forall (fun r => ~ (row_ko r = [] /\ row_ja r = [])) rows.
Proof.
  intros ko ja.
  destruct (aligned_rows_have_text (Some ko) (Some ja) _ _ 500 eq_refl eq_refl)
    as [Htext Hreturns].
  destruct Hreturns as [rows Hrows]; [by apply short_time_codes_check..|].
  exists (parse_content ko), (parse_content ja), rows.
  split_and!; [done|done|exact Hrows|by apply Htext].
Defined.

(** ** Steps and termination *)

Section StepFacts.
Context `{UnicodeData}.
Variables (ko_entries ja_entries : list entry) (threshold : Z).

Lemma main_body_advances (st st' : locals) :
  main_body ko_entries ja_entries threshold st = Some st' ->
  advances st st' /\
  (ko_ptr st' <= length ko_entries)%nat /\ (ja_ptr st' <= length ja_entries)%nat.
Proof.
  unfold main_body, advances.
  destruct (ko_entries !! ko_ptr st) as [ko|] eqn:Hko; [|done].
  destruct (ja_entries !! ja_ptr st) as [ja|] eqn:Hja; [|done].
  apply lookup_lt_Some in Hko, Hja. cbn [mbind option_bind].
  destruct (time_to_ms ko.1) as [ko_time|]; [|done].
  destruct (time_to_ms ja.1) as [ja_time|]; [|done].
  cbn [mbind option_bind].
  repeat case_bool_decide; intros [= <-]; cbn [ko_ptr ja_ptr aligned];
    rewrite length_app; simpl; lia.
Qed.

Lemma ko_body_advances (st st' : locals) :
  ko_body ko_entries st = Some st' ->
  advances st st' /\ (ko_ptr st' <= length ko_entries)%nat.
Proof.
  unfold ko_body, advances.
  destruct (ko_entries !! ko_ptr st) as [ko|] eqn:Hko; [|done].
  apply lookup_lt_Some in Hko. intros [= <-]. cbn [ko_ptr ja_ptr aligned].
  rewrite length_app. simpl. lia.
Qed.

Lemma ja_body_advances (st st' : locals) :
  ja_body ja_entries st = Some st' ->
  advances st st' /\ (ja_ptr st' <= length ja_entries)%nat.
Proof.
  unfold ja_body, advances.
  destruct (ja_entries !! ja_ptr st) as [ja|] eqn:Hja; [|done].
  apply lookup_lt_Some in Hja. intros [= <-]. cbn [ko_ptr ja_ptr aligned].
  rewrite length_app. simpl. lia.
Qed.

End StepFacts.

(** C3. In an iteration of the main loop, with [ko] and [ja] the entries
    under the cursors and [ko_time], [ja_time] their times: when the times
    are at most [threshold] apart (exactly [threshold] included), one row
    with the Korean time code and both texts is appended and both cursors
    move on; when they are [threshold + 1] or more apart, the earlier entry
    alone is appended as a row with the other text empty and its cursor
    alone moves on (the Japanese one also when the times are equal, which
    a negative threshold allows). *)
Theorem main_body_step `{UnicodeData} (ko_entries ja_entries : list entry)
    (threshold : Z) (st : locals) (ko ja : entry) (ko_time ja_time : Z) :
  ko_entries !! ko_ptr st = Some ko -> ja_entries !! ja_ptr st = Some ja ->
  time_to_ms ko.1 = Some ko_time -> time_to_ms ja.1 = Some ja_time ->
  both_left ko_entries ja_entries st = true /\
  (Z.abs (ko_time - ja_time) <= threshold ->
   main_body ko_entries ja_entries threshold st =
     Some (Locals (S (ko_ptr st)) (S (ja_ptr st))
             (aligned st ++ [(ko.1, ko.2, ja.2)]))) /\
  (threshold + 1 <= Z.abs (ko_time - ja_time) -> ko_time < ja_time ->
   main_body ko_entries ja_entries threshold st =
     Some (Locals (S (ko_ptr st)) (ja_ptr st)
             (aligned st ++ [(ko.1, ko.2, [])]))) /\
  (threshold + 1 <= Z.abs (ko_time - ja_time) -> ja_time <= ko_time ->
   main_body ko_entries ja_entries threshold st =
     Some (Locals (ko_ptr st) (S (ja_ptr st))
             (aligned st ++ [(ja.1, [], ja.2)]))).
Proof.
  intros Hko Hja Hkt Hjt. split_and!.
  - unfold both_left. apply lookup_lt_Some in Hko, Hja.
    by rewrite !bool_decide_eq_true_2.
  - intros Hnear. unfold main_body. rewrite Hko, Hja. cbn [mbind option_bind].
    rewrite Hkt, Hjt. cbn [mbind option_bind].
    by rewrite bool_decide_eq_true_2.
  - intros Hfar Hlt. unfold main_body. rewrite Hko, Hja. cbn [mbind option_bind].
    rewrite Hkt, Hjt. cbn [mbind option_bind].
    rewrite bool_decide_eq_false_2 by lia. by rewrite bool_decide_eq_true_2.
  - intros Hfar Hle. unfold main_body. rewrite Hko, Hja. cbn [mbind option_bind].
    rewrite Hkt, Hjt. cbn [mbind option_bind].
    by rewrite !bool_decide_eq_false_2 by lia.
Qed.

Lemma main_body_step_witness :
  let kos := [(py "0:00:01,000", py "a"); (py "0:00:02,501", py "b")] in
  let jas := [(py "0:00:01,500", py "x"); (py "0:00:02,000", py "y")] in
  main_body kos jas 500 (Locals 0 0 []) =
    Some (Locals 1 1 [(py "0:00:01,000", py "a", py "x")]) /\
  main_body kos jas 500 (Locals 1 1 []) =
    Some (Locals 1 2 [(py "0:00:02,000", [], py "y")]) /\
  main_body kos jas 500 (Locals 0 1 []) =
    Some (Locals 1 1 [(py "0:00:01,000", py "a", [])]).
Proof.
  intros kos jas.
  assert (H1000 : time_to_ms (py "0:00:01,000") = Some 1000) by reflexivity.
  assert (H1500 : time_to_ms (py "0:00:01,500") = Some 1500) by reflexivity.
  assert (H2000 : time_to_ms (py "0:00:02,000") = Some 2000) by reflexivity.
  assert (H2501 : time_to_ms (py "0:00:02,501") = Some 2501) by reflexivity.
  destruct (main_body_step kos jas 500 (Locals 0 0 []) _ _ 1000 1500
              eq_refl eq_refl H1000 H1500) as (_ & Hnear & _ & _).
  destruct (main_body_step kos jas 500 (Locals 1 1 []) _ _ 2501 2000
              eq_refl eq_refl H2501 H2000) as (_ & _ & _ & Hja).
  destruct (main_body_step kos jas 500 (Locals 0 1 []) _ _ 1000 2000
              eq_refl eq_refl H1000 H2000) as (_ & _ & Hko & _).
  split_and!.
  - apply Hnear. simpl. lia.
  - apply Hja; simpl; lia.
  - apply Hko; simpl; lia.
Defined.

(** C10. On tracks whose time codes [time_to_ms] converts, in any order,
    [align_subtitles] returns rows, at most as many as the two tracks have
    entries; every iteration of each of its loops moves at least one
    cursor on, none back, and appends one row, so that as many iterations
    per loop as there are entries are never used up. *)
Theorem align_subtitles_terminates `{UnicodeData}
    (ko_entries ja_entries : list entry) (threshold : Z) :
  well_formed ko_entries -> well_formed ja_entries ->
  (exists rows,
     align_subtitles ko_entries ja_entries threshold = Done rows /\
     (length rows <= length ko_entries + length ja_entries)%nat /\
     forall fuel, (length ko_entries + length ja_entries <= fuel)%nat ->
       align_run ko_entries ja_entries threshold fuel = Done rows) /\
  (forall st st',
     main_body ko_entries ja_entries threshold st = Some st' \/
     ko_body ko_entries st = Some st' \/ ja_body ja_entries st = Some st' ->
     advances st st').
Proof.
  intros Hko Hja. split.
  - destruct (merge_well_formed threshold _ _ Hko Hja) as [rows Hrows].
    exists rows. split_and!.
    + by apply align_subtitles_done.
    + by apply (covers_length rows), (merge_covers threshold).
    + intros fuel Hfuel. by rewrite align_run_merge, Hrows.
  - intros st st' [Hst|[Hst|Hst]].
    + by apply main_body_advances in Hst as [? _].
    + by apply ko_body_advances in Hst as [? _].
    + by apply ja_body_advances in Hst as [? _].
Qed.

Lemma align_subtitles_terminates_witness :
  let kos := [(py "0:00:05,000", py "a"); (py "0:00:01,000", py "b")] in
  let jas := [(py "0:00:03,000", py "x"); (py "0:00:00,000", py "y")] in
  exists rows,
    align_subtitles kos jas 500 = Done rows /\ (length rows <= 4)%nat.
Proof.
  intros kos jas.
  assert (Hko : well_formed kos) by (repeat constructor; eexists; reflexivity).
  assert (Hja : well_formed jas) by (repeat constructor; eexists; reflexivity).
  destruct (align_subtitles_terminates kos jas 500 Hko Hja)
    as [(rows & Hrows & Hlen & _) _].
  by exists rows.
Defined.

(** Whatever the tracks, the budget of [align_subtitles] is never used
    up: the function returns rows or raises. *)
Lemma align_subtitles_fuel `{UnicodeData}
    (ko_entries ja_entries : list entry) (threshold : Z) :
  align_subtitles ko_entries ja_entries threshold <> OutOfFuel.
Proof. rewrite align_subtitles_merge. by destruct (merge _ _ _). Qed.

(** ** Order of the rows *)

Section OrderFacts.
Context `{UnicodeData}.

Lemma within_slack_cons (slack x : Z) (l : list Z) :
  within_slack slack (x :: l) = true <->
  Forall (fun y => x - slack <= y) l /\ within_slack slack l = true.
Proof.
  cbn [within_slack]. rewrite andb_true_iff, forallb_forall, Forall_forall.
  split; intros [Hx Hl]; (split; [|done]); intros y Hy.
  - apply list_elem_of_In in Hy. specialize (Hx y Hy).
    by apply bool_decide_eq_true in Hx.
  - apply list_elem_of_In in Hy. by apply bool_decide_eq_true, Hx.
Qed.

(** The same, by positions: an element is never more than [slack] below
    one at an earlier position. *)
Lemma within_slack_lookup (slack : Z) (l : list Z) :
  within_slack slack l = true <->
  forall (i j : nat) (x y : Z),
    (i < j)%nat -> l !! i = Some x -> l !! j = Some y -> x - slack <= y.
Proof.
  induction l as [|a l IH]; [by split|].
  rewrite within_slack_cons, IH, Forall_forall. split.
  - intros [Ha Hl] [|i] [|j] x y Hij Hx Hy; try lia.
    + injection Hx as <-. apply Ha. by apply (list_elem_of_lookup_2 l j).
    + apply (Hl i j); [lia|exact Hx|exact Hy].
  - intros Hall. split.
    + intros y [j Hj]%list_elem_of_lookup_1.
      apply (Hall 0%nat (S j)); [lia|done..].
    + intros i j x y Hij Hx Hy. apply (Hall (S i) (S j)); [lia|done..].
Qed.

Lemma within_slack_mono (slack slack' : Z) (l : list Z) :
  slack <= slack' -> within_slack slack l = true -> within_slack slack' l = true.
Proof.
  intros Hle. induction l as [|x l IH]; [done|].
  rewrite !within_slack_cons. intros [Hx Hl]. split; [|by apply IH].
  eapply Forall_impl; [exact Hx|]. simpl. lia.
Qed.

Lemma nondecreasing_cons (x : Z) (l : list Z) :
  nondecreasing (x :: l) = true ->
  Forall (fun y => x <= y) l /\ nondecreasing l = true.
Proof.
  unfold nondecreasing. rewrite within_slack_cons. intros [Hx Hl].
  split; [|done]. eapply Forall_impl; [exact Hx|]. simpl. lia.
Qed.

Lemma track_times_cons (e : entry) (track : list entry) (times : list Z) :
  track_times (e :: track) = Some times ->
  exists x xs, time_to_ms e.1 = Some x /\ track_times track = Some xs /\
               times = x :: xs.
Proof.
  unfold track_times. cbn [mapM].
  destruct (time_to_ms e.1) as [x|]; [|done]. cbn [mbind option_bind].
  destruct (mapM _ track) as [xs|]; [|done]. intros [= <-]. by eexists _, _.
Qed.

Lemma row_times_cons (r : row) (rows : list row) (x : Z) (xs : list Z) :
  time_to_ms (row_time r) = Some x -> row_times rows = Some xs ->
  row_times (r :: rows) = Some (x :: xs).
Proof. unfold row_times. cbn [mapM]. by intros -> ->. Qed.

Lemma row_times_solo_ko (track : list entry) :
  row_times (solo_ko <$> track) = track_times track.
Proof.
  unfold row_times, track_times. induction track as [|e track IH]; [done|].
  rewrite fmap_cons. cbn [mapM]. by rewrite IH.
Qed.

Lemma row_times_solo_ja (track : list entry) :
  row_times (solo_ja <$> track) = track_times track.
Proof.
  unfold row_times, track_times. induction track as [|e track IH]; [done|].
  rewrite fmap_cons. cbn [mapM]. by rewrite IH.
Qed.

(** On two non-decreasing tracks: the time of a row is at most
    [Z.max 0 t] above the time of every later row, and no row is earlier
    than a common lower bound of the two tracks. *)
Lemma merge_order (t : Z) (kos jas : list entry) :
  forall ko_times ja_times,
    track_times kos = Some ko_times -> track_times jas = Some ja_times ->
    nondecreasing ko_times = true -> nondecreasing ja_times = true ->
    exists rows times,
      merge t kos jas = Some rows /\ row_times rows = Some times /\
      within_slack (Z.max 0 t) times = true /\
      forall x, Forall (fun y => x <= y) ko_times ->
                Forall (fun y => x <= y) ja_times ->
                Forall (fun y => x <= y) times.
Proof.
  pattern kos, jas. apply merge_ind; clear kos jas.
  - intros jas ko_times ja_times [= <-] Hja _ Hsorted.
    exists (solo_ja <$> jas), ja_times. rewrite merge_nil_l, row_times_solo_ja.
    split_and!; [done|done| |done].
    apply (within_slack_mono 0); [lia|done].
  - intros ko kos ko_times ja_times Hko [= <-] Hsorted _.
    exists (solo_ko <$> ko :: kos), ko_times.
    rewrite merge_nil_r, row_times_solo_ko.
    split_and!; [done|done| |done].
    apply (within_slack_mono 0); [lia|done].
  - intros ko kos ja jas IH1 IH2 IH3 ko_times ja_times Hko Hja Hks Hjs.
    pose proof Hko as (a & tk & Ha & Htk & ->)%track_times_cons.
    pose proof Hja as (b & tj & Hb & Htj & ->)%track_times_cons.
    pose proof Hks as [Hak Hks']%nondecreasing_cons.
    pose proof Hjs as [Hbj Hjs']%nondecreasing_cons.
    rewrite merge_cons_cons, Ha, Hb. cbn [mbind option_bind].
    case_bool_decide as Hnear; [|case_bool_decide as Hlt].
    + destruct (IH1 tk tj Htk Htj Hks' Hjs') as (rows & times & -> & Hr & Hw & Hlow).
      exists (merged ko ja :: rows), (a :: times). split_and!.
      * done.
      * by apply row_times_cons.
      * apply within_slack_cons. split; [|done].
        apply (Hlow (a - Z.max 0 t)).
        -- eapply Forall_impl; [exact Hak|]. simpl. lia.
        -- eapply Forall_impl; [exact Hbj|]. simpl. lia.
      * intros x [Hxa Hxk]%Forall_cons [Hxb Hxj]%Forall_cons.
        constructor; [done|by apply Hlow].
    + destruct (IH2 tk (b :: tj) Htk Hja Hks' Hjs) as (rows & times & -> & Hr & Hw & Hlow).
      exists (solo_ko ko :: rows), (a :: times). split_and!.
      * done.
      * by apply row_times_cons.
      * apply within_slack_cons. split; [|done].
        apply (Hlow (a - Z.max 0 t)).
        -- eapply Forall_impl; [exact Hak|]. simpl. lia.
        -- constructor; [lia|]. eapply Forall_impl; [exact Hbj|]. simpl. lia.
      * intros x [Hxa Hxk]%Forall_cons Hxj.
        constructor; [done|by apply Hlow].
    + destruct (IH3 (a :: tk) tj Hko Htj Hks Hjs') as (rows & times & -> & Hr & Hw & Hlow).
      exists (solo_ja ja :: rows), (b :: times). split_and!.
      * done.
      * by apply row_times_cons.
      * apply within_slack_cons. split; [|done].
        apply (Hlow (b - Z.max 0 t)).
        -- constructor; [lia|]. eapply Forall_impl; [exact Hak|]. simpl. lia.
        -- eapply Forall_impl; [exact Hbj|]. simpl. lia.
      * intros x Hxk [Hxb Hxj]%Forall_cons.
        constructor; [done|by apply Hlow].
Qed.

End OrderFacts.

(** C1, as amended. For two tracks whose times are non-decreasing,
    [align_subtitles] returns rows in which no row is more than the
    threshold (or nothing, for a threshold below zero) earlier than any row
    before it, next to it or not; with a threshold of zero or less the
    times of the rows are non-decreasing. *)
Theorem align_order `{UnicodeData} (kos jas : list entry) (t : Z)
    (ko_times ja_times : list Z) :
  track_times kos = Some ko_times -> track_times jas = Some ja_times ->
  nondecreasing ko_times = true -> nondecreasing ja_times = true ->
  exists rows times,
    align_subtitles kos jas t = Done rows /\ row_times rows = Some times /\
    (forall (i j : nat) (x y : Z),
       (i < j)%nat -> times !! i = Some x -> times !! j = Some y ->
       x - Z.max 0 t <= y) /\
    within_slack (Z.max 0 t) times = true /\
    (t <= 0 -> nondecreasing times = true).
Proof.
  intros Hko Hja Hks Hjs.
  destruct (merge_order t kos jas _ _ Hko Hja Hks Hjs)
    as (rows & times & Hrows & Htimes & Hslack & _).
  exists rows, times.
  split_and!; [by apply align_subtitles_done|done| |done|].
  - by apply within_slack_lookup.
  - intros Ht. unfold nondecreasing. by rewrite Z.max_l in Hslack by lia.
Qed.

Lemma align_order_witness :
  let kos := [(py "0:00:01,000", py "a"); (py "0:00:05,000", py "b")] in
  let jas := [(py "0:00:00,600", py "x"); (py "0:00:00,700", py "y");
              (py "0:00:03,000", py "z")] in
  exists rows times,
    align_subtitles kos jas 500 = Done rows /\ row_times rows = Some times /\
    within_slack (Z.max 0 500) times = true.
Proof.
  intros kos jas.
  destruct (align_order kos jas 500 [1000; 5000] [600; 700; 3000])
    as (rows & times & Hrows & Htimes & _ & Hslack & _); [reflexivity..|].
  by exists rows, times.
Defined.

(** C1, as stated, fails: a Korean entry at 1.000 s merges with the
    Japanese entry at 0.600 s and gives a row at 1.000 s; the next Japanese
    entry, at 0.700 s, gives a later row with an earlier time. *)
Lemma align_order_counterexample :
  let kos := [(py "0:00:01,000", py "a")] in
  let jas := [(py "0:00:00,600", py "b"); (py "0:00:00,700", py "c")] in
  let rows := [(py "0:00:01,000", py "a", py "b");
               (py "0:00:00,700", [], py "c")] in
  track_times kos = Some [1000] /\ nondecreasing [1000] = true /\
  track_times jas = Some [600; 700] /\ nondecreasing [600; 700] = true /\
  align_subtitles kos jas 500 = Done rows /\
  row_times rows = Some [1000; 700] /\ nondecreasing [1000; 700] = false.
Proof. by vm_compute. Qed.

(** The bound is against every earlier row: times that drift down step by
    step are not within the slack. *)
Example within_slack_drift :
  within_slack 500 [1000; 500; 0; -500] = false /\
  within_slack 500 [1000; 700; 3000; 5000] = true.
Proof. by vm_compute. Qed.

(** ** Scenarios *)

Example scenario_merged :
  align_subtitles [(py "00:00:01,000", py "hi")]
    [(py "00:00:01,200", [50504; 45397]%N)] default_threshold =
  Done [(py "00:00:01,000", py "hi", [50504; 45397]%N)].
Proof. reflexivity. Qed.

Example scenario_apart :
  align_subtitles [(py "00:00:01,000", py "a")] [(py "00:00:05,000", py "b")]
    default_threshold =
  Done [(py "00:00:01,000", py "a", []); (py "00:00:05,000", [], py "b")].
Proof. reflexivity. Qed.

Example scenario_threshold :
  align_subtitles [(py "00:00:01,500", py "a")] [(py "00:00:01,000", py "b")]
    500 =
  Done [(py "00:00:01,500", py "a", py "b")] /\
  align_subtitles [(py "00:00:01,501", py "a")] [(py "00:00:01,000", py "b")]
    500 =
  Done [(py "00:00:01,000", [], py "b"); (py "00:00:01,501", py "a", [])].
Proof. split; reflexivity. Qed.

Example scenario_malformed_block :
  parse_srt (Some (unlines ["1"; "00:00:01,000 --> 00:00:02,000"; "a"; "";
                            "2"; "b"; "";
                            "3"; "00:00:05.5 --> 00:00:06,000"; "c"; "d"])) =
  Some [(py "00:00:01,000", py "a"); (py "00:00:05,500", py "c d")].
Proof. reflexivity. Qed.

Example scenario_time_to_ms :
  time_to_ms (py "01:02:03,004") = Some 3723004 /\
  time_to_ms (py "1:2:3,4") = Some 3723004 /\
  time_to_ms (py "01:02:03.004") = None /\
  time_to_ms (py "01:02,004") = None /\
  time_to_ms (py " 1:02 :-3,0_4") = Some 3717004.
Proof. repeat split; reflexivity. Qed.

(** A time code with an hours field of 4301 digits is stored by the
    parser and rejected by [time_to_ms]; with 4300 digits it converts. *)
Example scenario_digit_limit :
  let long := replicate 4301 c_zero ++ py ":00:01,000" in
  let longest := replicate 4300 c_zero ++ py ":00:01,000" in
  parse_srt (Some (py "1" ++ [c_nl] ++ long ++ py " --> 00:00:02,000" ++
                   [c_nl] ++ py "a")) = Some [(long, py "a")] /\
  time_to_ms long = None /\ time_to_ms longest = Some 1000 /\
  align_subtitles [(long, py "a")] [(py "00:00:01,000", py "b")]
    default_threshold = Raised.
Proof. by vm_compute. Qed.

Example scenario_raises :
  align_subtitles [(py "soon", py "a")] [(py "00:00:05,000", py "b")]
    default_threshold = Raised /\
  align_subtitles [] [(py "soon", py "b")] default_threshold =
    Done [(py "soon", [], py "b")].
Proof. split; reflexivity. Qed.

(** ** More on [split], [strip] and [int] *)

Section SplitFacts.
Context `{UnicodeData}.

Lemma join_cons (sep x : str) (l : list str) :
  l <> [] -> join sep (x :: l) = x ++ sep ++ join sep l.
Proof. by destruct l. Qed.

(** [sep.join(s.split(sep)) == s] *)
Lemma join_split (sep s : str) : sep <> [] -> join sep (split sep s) = s.
Proof.
  intros Hsep. remember (length s) as n eqn:Hn. revert s Hn.
  induction n as [n IH] using lt_wf_ind. intros s ->.
  rewrite split_unfold by done.
  destruct (find sep s) as [i|] eqn:Hf; [|done].
  pose proof (find_bound _ _ _ Hf) as Hb.
  assert (0 < length sep)%nat by (destruct sep; [done|simpl; lia]).
  rewrite join_cons by apply split_nonempty.
  rewrite (IH (length (drop (i + length sep) s))); [|rewrite length_drop; lia|done].
  symmetry. by apply find_split.
Qed.

Lemma find_char_take (c : char) (s : str) (i : nat) :
  find [c] s = Some i -> c ∉ take i s.
Proof.
  revert i. induction s as [|d s IH]; intros i; [done|].
  rewrite find_unfold. cbn [startswith].
  destruct (N.eqb_spec c d) as [->|Hcd]; cbn [andb].
  - intros [= <-]. apply not_elem_of_nil.
  - destruct (find [c] s) as [j|]; [|done]. intros [= <-].
    cbn [take]. apply not_elem_of_cons. split; [done|]. by apply IH.
Qed.

Lemma find_char_elem (c : char) (s : str) : find [c] s = None -> c ∉ s.
Proof.
  induction s as [|d s IH]; [intros _; apply not_elem_of_nil|].
  rewrite find_unfold. cbn [startswith].
  destruct (N.eqb_spec c d) as [->|Hcd]; cbn [andb]; [done|].
  destruct (find [c] s) as [j|]; [done|]. intros _.
  apply not_elem_of_cons. split; [done|]. by apply IH.
Qed.

(** No piece of [s.split(c)] contains [c]. *)
Lemma split_char_pieces (c : char) (s : str) :
  Forall (fun piece => c ∉ piece) (split [c] s).
Proof.
  remember (length s) as n eqn:Hn. revert s Hn.
  induction n as [n IH] using lt_wf_ind. intros s ->.
  rewrite split_unfold by done. change (length [c]) with 1%nat.
  destruct (find [c] s) as [i|] eqn:Hf.
  - pose proof (find_bound _ _ _ Hf) as Hb. cbn [length] in Hb.
    constructor; [by apply find_char_take|].
    apply (IH (length (drop (i + 1) s))); [rewrite length_drop; lia|done].
  - repeat constructor. by apply find_char_elem.
Qed.

Lemma split_char_three (c : char) (s a b d : str) :
  split [c] s = [a; b; d] <->
  s = a ++ c :: b ++ c :: d /\ (c ∉ a) /\ (c ∉ b) /\ (c ∉ d).
Proof.
  split.
  - intros Hs. pose proof (split_char_pieces c s) as Hp.
    pose proof (join_split [c] s ltac:(done)) as Hj.
    rewrite Hs in Hp, Hj.
    apply Forall_cons in Hp as [? [? [? _]%Forall_cons]%Forall_cons].
    split_and!; try done; by rewrite <-Hj.
  - intros (-> & Ha & Hb & Hd).
    by rewrite !split_char_app, split_char_none.
Qed.

Lemma split_char_two (c : char) (s a b : str) :
  split [c] s = [a; b] <-> s = a ++ c :: b /\ (c ∉ a) /\ (c ∉ b).
Proof.
  split.
  - intros Hs. pose proof (split_char_pieces c s) as Hp.
    pose proof (join_split [c] s ltac:(done)) as Hj.
    rewrite Hs in Hp, Hj.
    apply Forall_cons in Hp as [? [? _]%Forall_cons].
    split_and!; try done; by rewrite <-Hj.
  - intros (-> & Ha & Hb). by rewrite split_char_app, split_char_none.
Qed.

(** What [strip] removes is white space. *)
Lemma strip_with_split (p : char -> bool) (s : str) :
  exists a b, s = a ++ strip_with p s ++ b /\
              Forall (fun c => p c = true) a /\ Forall (fun c => p c = true) b.
Proof.
  destruct (lstrip_with_split p s) as (a & Hs & Ha & _).
  destruct (lstrip_with_split p (reverse (lstrip_with p s))) as (b & Hr & Hb & _).
  exists a, (reverse b). split_and!; [|done|by apply Forall_reverse].
  unfold strip_with. rewrite <-reverse_app, <-Hr, reverse_involutive. done.
Qed.

Lemma int_digits_chars (acc : Z) (u : bool) (s : str) (v : Z) :
  int_digits acc u s = Some v -> Forall int_char s.
Proof.
  revert acc u. induction s as [|c s IH]; intros acc u; [done|].
  cbn [int_digits]. destruct (N.eqb_spec c c_underscore) as [->|_].
  - destruct u; [done|]. intros Hs%IH. constructor; [|done].
    unfold int_char. auto.
  - destruct (to_decimal c) as [d|] eqn:Hd; [|done]. intros Hs%IH.
    constructor; [|done]. right. right. right. right.
    apply is_digit_true. by rewrite Hd.
Qed.

Lemma int_unsigned_chars (s : str) (v : Z) :
  int_unsigned s = Some v -> Forall int_char s.
Proof.
  destruct s as [|c s]; [done|]. cbn [int_unsigned].
  destruct (to_decimal c) as [d|] eqn:Hd; [|done]. cbn [mbind option_bind].
  destruct (int_digits d false s) as [w|] eqn:Hs; [|done].
  apply int_digits_chars in Hs. intros _. constructor; [|done].
  right. right. right. right. apply is_digit_true. by rewrite Hd.
Qed.

Lemma int_chars (s : str) (v : Z) : int s = Some v -> Forall int_char s.
Proof.
  unfold int. destruct (strip_with_split int_space s) as (a & b & Hs & Ha & Hb).
  intros Hv. rewrite Hs. apply Forall_app. split.
  { eapply Forall_impl; [exact Ha|]. intros c Hc. by left. }
  apply Forall_app. split.
  2:{ eapply Forall_impl; [exact Hb|]. intros c Hc. by left. }
  destruct (strip_with int_space s) as [|c core]; [done|].
  destruct (N.eqb_spec c c_minus) as [->|_].
  { destruct (int_unsigned core) as [w|] eqn:Hw; [|done].
    constructor; [unfold int_char; auto|by apply (int_unsigned_chars _ w)]. }
  destruct (N.eqb_spec c c_plus) as [->|_].
  { constructor; [unfold int_char; auto|by apply (int_unsigned_chars _ v)]. }
  by apply (int_unsigned_chars _ v).
Qed.

Lemma int_no_char (s : str) (v : Z) (c : char) :
  int s = Some v -> (c < 127)%N ->
  ((c =? 32) || ((9 <=? c) && (c <=? 13)) || ((48 <=? c) && (c <=? 57)) ||
   (c =? c_minus) || (c =? c_plus) || (c =? c_underscore))%N = false ->
  c ∉ s.
Proof.
  intros Hs%int_chars Hc Hno Hin. rewrite Forall_forall in Hs.
  repeat (apply orb_false_elim in Hno as [Hno ?]).
  destruct (Hs c Hin) as [Hsp|[->|[->|[->|Hd]]]]; try done.
  - unfold int_space in Hsp. rewrite (proj2 (N.ltb_lt _ _) Hc) in Hsp.
    apply orb_prop in Hsp as [?|?]; congruence.
  - apply is_digit_true in Hd as [d Hd].
    rewrite to_decimal_ascii in Hd by lia.
    by destruct ((48 <=? c) && (c <=? 57))%N.
Qed.

End SplitFacts.

(** X1. [time_to_ms] returns a value exactly for the strings [h:m:s,ms]
    whose four fields are each a string [int] accepts (digits, with white
    space round them, a sign or single underscores allowed), and the value
    is then [int h * 3600000 + int m * 60000 + int s * 1000 + int ms]; for
    every other string it raises. *)
Theorem time_to_ms_fields_iff `{UnicodeData} (time_str : str) (v : Z) :
  time_to_ms time_str = Some v <->
  exists h m s ms vh vm vs vms,
    time_str = h ++ [c_colon] ++ m ++ [c_colon] ++ s ++ [c_comma] ++ ms /\
    int h = Some vh /\ int m = Some vm /\ int s = Some vs /\ int ms = Some vms /\
    v = vh * 3600000 + vm * 60000 + vs * 1000 + vms.
Proof.
  unfold time_to_ms. split.
  - destruct (split [c_colon] time_str) as [|h [|m [|x [|? ?]]]] eqn:Hsplit; try done.
    apply split_char_three in Hsplit as (-> & _ & _ & _).
    destruct (split [c_comma] x) as [|s [|ms [|? ?]]] eqn:Hx; try done.
    apply split_char_two in Hx as (-> & _ & _).
    destruct (int h) as [vh|] eqn:Hh; [|done].
    destruct (int m) as [vm|] eqn:Hm; [|done].
    destruct (int s) as [vs|] eqn:Hs; [|done].
    destruct (int ms) as [vms|] eqn:Hms; [|done].
    intros [= <-]. by exists h, m, s, ms, vh, vm, vs, vms.
  - intros (h & m & s & ms & vh & vm & vs & vms & -> & Hh & Hm & Hs & Hms & ->).
    assert (forall x w, int x = Some w -> c_colon ∉ x) as Hcolon
      by (intros x w Hx; by apply (int_no_char x w)).
    assert (forall x w, int x = Some w -> c_comma ∉ x) as Hcomma
      by (intros x w Hx; by apply (int_no_char x w)).
    cbn [app].
    rewrite (proj2 (split_char_three c_colon _ h m (s ++ c_comma :: ms))).
    2:{ split_and!; eauto. intros [?|[?|?]%elem_of_cons]%elem_of_app;
          [by apply (Hcolon s vs)|done|by apply (Hcolon ms vms)]. }
    rewrite (proj2 (split_char_two c_comma _ s ms)) by (split_and!; eauto).
    by rewrite Hh, Hm, Hs, Hms.
Qed.

Lemma time_to_ms_fields_iff_witness :
  time_to_ms (py " 1:02 :-3,0_4") = Some 3717004 /\
  time_to_ms (py "01:02:03.004") = None.
Proof.
  split.
  - apply time_to_ms_fields_iff.
    by exists (py " 1"), (py "02 "), (py "-3"), (py "0_4"), 1, 2, (-3), 4.
  - destruct (time_to_ms (py "01:02:03.004")) as [v|] eqn:Hv; [|done].
    apply time_to_ms_fields_iff in Hv
      as (h & m & s & ms & ? & ? & ? & ? & Heq & _).
    assert (c_comma ∈ py "01:02:03.004") as Hin.
    { rewrite Heq. rewrite !elem_of_app, !elem_of_cons. auto 10. }
    by vm_compute in Hin; repeat (apply elem_of_cons in Hin as [?|Hin]; [done|]);
      apply elem_of_nil in Hin.
Defined.

(** ** More on [parse_srt] *)

Section ParserFacts.
Context `{UnicodeData}.

Lemma digits_value_bound (s : str) :
  Forall (fun c => is_digit c = true) s ->
  0 <= digits_value s < 10 ^ Z.of_nat (length s).
Proof.
  unfold digits_value. induction s as [|c s IH] using rev_ind; intros Hs.
  - simpl. lia.
  - apply Forall_app in Hs as [Hs [Hc _]%Forall_cons]. specialize (IH Hs).
    rewrite foldl_app, length_app. cbn [foldl length].
    rewrite Nat2Z.inj_add, Z.pow_add_r by lia. change (10 ^ Z.of_nat 1) with 10.
    apply is_digit_true in Hc as [d Hd]. unfold horner at 1 3. rewrite Hd.
    pose proof (to_decimal_range c d Hd). simpl. lia.
Qed.

(** The entry of a block comes from a timing line. *)
Lemma block_entries_inv (block : str) (e : entry) :
  e ∈ block_entries block ->
  exists line h m s ms,
    split [c_nl] block !! 1%nat = Some line /\ timing_line line h m s ms /\
    e.1 = h ++ [c_colon] ++ m ++ [c_colon] ++ s ++ [c_comma] ++
          take 3 (ljust 3 c_zero ms) /\
    e.2 = replace c_nl c_space (join [c_space] (drop 2 (split [c_nl] block))).
Proof.
  rewrite block_entries_timing_start. cbv zeta.
  destruct (_ <=? _)%nat; [|by intros ?%elem_of_nil].
  destruct (split [c_nl] block !! 1%nat) as [line|] eqn:Hline; [|by intros ?%elem_of_nil].
  cbn [mbind option_bind].
  destruct (timing_start line) as [start|] eqn:Hstart; [|by intros ?%elem_of_nil].
  intros ->%list_elem_of_singleton. cbn [fst snd].
  assert (exists h m s ms, timing_line line h m s ms) as (h & m & s & ms & Hl).
  { unfold timing_start in Hstart.
    destruct (re_match timecode_pattern line) as [g|] eqn:Hg; [|done].
    by apply re_match_sound in Hg. }
  exists line, h, m, s, ms. split_and!; try done.
  pose proof (timing_start_line _ _ _ _ _ Hl). congruence.
Qed.

Lemma replace_id (old new : char) (s : str) : old ∉ s -> replace old new s = s.
Proof.
  unfold replace. induction s as [|c s IH]; [done|].
  intros [Hc Hs]%not_elem_of_cons. cbn [fmap list_fmap].
  rewrite (proj2 (N.eqb_neq c old)) by done. f_equal. by apply IH.
Qed.

Lemma join_not_elem (c : char) (sep : str) (l : list str) :
  c ∉ sep -> Forall (fun x => c ∉ x) l -> c ∉ join sep l.
Proof.
  intros Hsep Hl. induction Hl as [|x l Hx Hl IH]; [apply not_elem_of_nil|].
  destruct l as [|y l]; [done|]. rewrite join_cons by done.
  rewrite !not_elem_of_app. auto.
Qed.

(** White space round the document. *)
Lemma lstrip_with_all (p : char -> bool) (w : str) :
  Forall (fun c => p c = true) w -> lstrip_with p w = [].
Proof. intros Hw. rewrite <-(app_nil_r w). by rewrite lstrip_with_app. Qed.

Lemma strip_with_app_r (p : char -> bool) (s w : str) :
  Forall (fun c => p c = true) w -> strip_with p (s ++ w) = strip_with p s.
Proof.
  intros Hw. unfold strip_with. f_equal.
  destruct (lstrip_with_split p s) as (a & Hs & Ha & Hstop).
  rewrite Hs at 1. rewrite <-(assoc_L (++)), lstrip_with_app by done.
  destruct (lstrip_with p s) as [|c x] eqn:Hx.
  - cbn [app]. by rewrite (lstrip_with_all p w).
  - rewrite (lstrip_with_head p ((c :: x) ++ w))
      by (intros d [= <-]; by apply Hstop).
    rewrite reverse_app. by rewrite lstrip_with_app by by apply Forall_reverse.
Qed.

Lemma strip_with_app_l (p : char -> bool) (w s : str) :
  Forall (fun c => p c = true) w -> strip_with p (w ++ s) = strip_with p s.
Proof. intros Hw. unfold strip_with. by rewrite lstrip_with_app. Qed.

Lemma length_lstrip_with (p : char -> bool) (s : str) :
  (length (lstrip_with p s) <= length s)%nat.
Proof.
  destruct (lstrip_with_split p s) as (a & Hs & _). rewrite Hs at 2.
  rewrite length_app. lia.
Qed.

Lemma strip_with_fixed (p : char -> bool) (s : str) :
  strip_with p s = s ->
  (forall c, head s = Some c -> p c = false) /\
  (forall c, last s = Some c -> p c = false).
Proof.
  intros Hfix.
  assert (lstrip_with p s = s) as Hl.
  { destruct (lstrip_with_split p s) as (a & Hs & _).
    assert (length s <= length (lstrip_with p s))%nat as Hlen.
    { rewrite <-Hfix at 1. unfold strip_with.
      rewrite length_reverse.
      etrans; [apply length_lstrip_with|]. by rewrite length_reverse. }
    destruct a as [|c a]; [done|].
    apply (f_equal length) in Hs. rewrite length_app in Hs. simpl in Hs. lia. }
  split.
  - intros c Hc. apply (lstrip_with_stop p s). by rewrite Hl.
  - intros c Hc. unfold strip_with in Hfix. rewrite Hl in Hfix.
    apply (lstrip_with_stop p (reverse s)).
    assert (lstrip_with p (reverse s) = reverse s) as ->.
    { rewrite <-Hfix at 2. by rewrite reverse_involutive. }
    by rewrite <-(last_reverse (reverse s)), reverse_involutive.
Qed.

(** [split] and concatenation. *)
Lemma startswith_app_l (p s t : str) :
  (length p <= length s)%nat -> startswith p (s ++ t) = startswith p s.
Proof.
  revert s. induction p as [|a p IH]; intros s Hlen; [done|].
  destruct s as [|b s]; [simpl in Hlen; lia|].
  cbn [app startswith]. rewrite IH; [done|simpl in Hlen; lia].
Qed.

Lemma find_app_l (sep s t : str) (i : nat) :
  find sep s = Some i -> find sep (s ++ t) = Some i.
Proof.
  revert i. induction s as [|c s IH]; intros i Hf.
  - pose proof (find_bound _ _ _ Hf) as Hb. simpl in Hb.
    assert (sep = []) as -> by (destruct sep; [done|simpl in Hb; lia]).
    rewrite find_unfold in Hf. simpl in Hf. injection Hf as <-.
    by rewrite find_unfold.
  - pose proof (find_bound _ _ _ Hf) as Hb.
    rewrite find_unfold in Hf. rewrite find_unfold.
    rewrite startswith_app_l by lia.
    destruct (startswith sep (c :: s)); [done|].
    cbn [app]. destruct (find sep s) as [j|]; [|done].
    by rewrite (IH j).
Qed.

Lemma split_app_blocks (d1 d2 : str) :
  last d1 <> Some c_nl ->
  split [c_nl; c_nl] (d1 ++ [c_nl; c_nl] ++ d2) =
  split [c_nl; c_nl] d1 ++ split [c_nl; c_nl] d2.
Proof.
  remember (length d1) as n eqn:Hn. revert d1 Hn.
  induction n as [n IH] using lt_wf_ind. intros d1 -> Hlast.
  destruct (find [c_nl; c_nl] d1) as [i|] eqn:Hf.
  - pose proof (find_bound _ _ _ Hf) as Hb. cbn [length] in Hb.
    rewrite (split_unfold _ (d1 ++ _)), (split_unfold _ d1) by done.
    rewrite (find_app_l _ _ _ _ Hf), Hf. change (length [c_nl; c_nl]) with 2%nat.
    rewrite take_app_le, drop_app_le by lia. cbn [app]. f_equal.
    apply (IH (length (drop (i + 2) d1))); [rewrite length_drop; lia|done|].
    intros Hl. apply Hlast.
    rewrite <-(take_drop (i + 2) d1), last_app. by rewrite Hl.
  - rewrite split_tidy by done. by rewrite (split_one_tidy d1).
Qed.

End ParserFacts.

(** X2. Every time code [parse_srt] stores has the form [h:m:s,mmm] with
    one or more digits for hours, minutes and seconds and exactly three
    digits after a comma, whatever the timing line had. When hours,
    minutes and seconds have at most 4300 digits each, [time_to_ms]
    converts it to [h*3600000 + m*60000 + s*1000 + mmm], which is not
    negative, with [mmm] below 1000; when one of them has more digits,
    [time_to_ms] raises on it. *)
Theorem parse_srt_time_codes `{UnicodeData} (file : option str)
    (entries : list entry) (e : entry) :
  parse_srt file = Some entries -> e ∈ entries ->
  exists h m s mmm,
    digits h /\ digits m /\ digits s /\ digits mmm /\ length mmm = 3%nat /\
    e.1 = h ++ [c_colon] ++ m ++ [c_colon] ++ s ++ [c_comma] ++ mmm /\
    time_to_ms e.1 =
      (if within_limit h && within_limit m && within_limit s
       then Some (digits_value h * 3600000 + digits_value m * 60000 +
                  digits_value s * 1000 + digits_value mmm)
       else None) /\
    0 <= digits_value h /\ 0 <= digits_value m /\ 0 <= digits_value s /\
    0 <= digits_value mmm < 1000.
Proof.
  destruct file as [content|]; [|done]. intros [= <-].
  intros (block & _ & (line & h & m & s & ms & _ & Hl & He & _)%block_entries_inv)%collect_elem.
  destruct (timing_line_fields _ _ _ _ _ Hl) as (Hh & Hm & Hs & Hms).
  pose proof (ms_field_digits ms Hms) as Hmmm.
  exists h, m, s, (take 3 (ljust 3 c_zero ms)).
  split_and!; try done.
  - apply ms_field_length.
  - rewrite He. by apply time_to_ms_start.
  - apply digits_value_bound, Hh.
  - apply digits_value_bound, Hm.
  - apply digits_value_bound, Hs.
  - apply digits_value_bound, Hmmm.
  - pose proof (digits_value_bound _ (proj2 Hmmm)) as Hb.
    rewrite ms_field_length in Hb. simpl in Hb. lia.
Qed.

Lemma parse_srt_time_codes_witness :
  let file := Some (unlines ["7"; "1:2:3.98765 -->4:5:6,7 (x)"; "text"]) in
  parse_srt file = Some [(py "1:2:3,987", py "text")] /\
  exists h m s mmm,
    length mmm = 3%nat /\
    py "1:2:3,987" = h ++ [c_colon] ++ m ++ [c_colon] ++ s ++ [c_comma] ++ mmm /\
    0 <= digits_value mmm < 1000.
Proof.
  intros file.
  assert (Hp : parse_srt file = Some [(py "1:2:3,987", py "text")]) by reflexivity.
  split; [done|].
  destruct (parse_srt_time_codes file _ (py "1:2:3,987", py "text") Hp)
    as (h & m & s & mmm & _ & _ & _ & _ & Hlen & He & _ & _ & _ & _ & Hr); [left|].
  by exists h, m, s, mmm.
Defined.

(** X3. The text [parse_srt] stores for a block is its lines from the third
    on, joined by single spaces; it holds no newline (the [replace] of line
    74 never changes anything) and it is not empty. *)
Theorem parse_srt_text `{UnicodeData} (content : str) (e : entry) :
  e ∈ parse_content content ->
  exists block,
    block ∈ split [c_nl; c_nl] (strip content) /\
    e.2 = join [c_space] (drop 2 (split [c_nl] block)) /\
    (c_nl ∉ e.2) /\ e.2 <> [].
Proof.
  intros He. pose proof He as (block & Hb & Hin)%collect_elem.
  exists block. split; [done|].
  pose proof Hin as (line & h & m & s & ms & _ & _ & _ & Ht)%block_entries_inv.
  assert (c_nl ∉ join [c_space] (drop 2 (split [c_nl] block))) as Hnl.
  { apply join_not_elem; [by intros [?|?%elem_of_nil]%elem_of_cons|].
    apply Forall_drop, split_char_pieces. }
  rewrite replace_id in Ht by done. split_and!; [done|by rewrite Ht|].
  pose proof (parse_content_sound content) as [_ Htext].
  unfold has_text in Htext. rewrite Forall_forall in Htext. by apply Htext.
Qed.

Lemma parse_srt_text_witness :
  let content := unlines ["1"; "00:00:03,000 --> 00:00:04,000"; "b"; "c"; ""] in
  exists block,
    block ∈ split [c_nl; c_nl] (strip content) /\
    py "b c" = join [c_space] (drop 2 (split [c_nl] block)) /\
    (c_nl ∉ py "b c") /\ py "b c" <> [].
Proof.
  intros content.
  apply (parse_srt_text content (py "00:00:03,000", py "b c")).
  change (parse_content content) with [(py "00:00:03,000", py "b c")]. left.
Defined.

(** X4. White space before and after the document (blank lines, spaces, a
    final newline) does not change what [parse_srt] returns. *)
Theorem parse_srt_outer_space `{UnicodeData} (before content after : str) :
  spaces before -> spaces after ->
  parse_srt (Some (before ++ content ++ after)) = parse_srt (Some content).
Proof.
  intros Hb Ha. unfold parse_srt, parse_content, strip. cbv zeta.
  by rewrite strip_with_app_l, strip_with_app_r.
Qed.

Lemma parse_srt_outer_space_witness :
  let content := unlines ["1"; "00:00:01,000 --> 00:00:02,000"; "a"] in
  parse_srt (Some (py "  " ++ [c_nl] ++ content ++ [c_nl; c_nl; c_space; c_nl])) =
  Some [(py "00:00:01,000", py "a")].
Proof.
  intros content.
  change (py "  " ++ [c_nl] ++ content ++ [c_nl; c_nl; c_space; c_nl])
    with ((py "  " ++ [c_nl]) ++ content ++ [c_nl; c_nl; c_space; c_nl]).
  rewrite parse_srt_outer_space; [reflexivity|..];
    by repeat constructor.
Defined.

(** X5. Two documents, neither empty nor with white space at its ends,
    written one after the other with one blank line between them, are
    parsed to the entries of the first followed by the entries of the
    second. *)
Theorem parse_srt_concat `{UnicodeData} (d1 d2 : str) :
  d1 <> [] -> d2 <> [] -> strip d1 = d1 -> strip d2 = d2 ->
  parse_srt (Some (d1 ++ [c_nl; c_nl] ++ d2)) =
  Some (parse_content d1 ++ parse_content d2).
Proof.
  intros Hne1 Hne2 Hs1 Hs2. unfold parse_srt, parse_content. cbv zeta. f_equal.
  destruct (strip_with_fixed _ _ Hs1) as [Hh1 Hl1].
  destruct (strip_with_fixed _ _ Hs2) as [Hh2 Hl2].
  assert (strip (d1 ++ [c_nl; c_nl] ++ d2) = d1 ++ [c_nl; c_nl] ++ d2) as ->.
  { apply strip_with_id.
    - destruct d1 as [|c1 d1]; [done|]. intros c Hc. by apply Hh1.
    - intros c Hc. apply Hl2. rewrite (assoc_L (++)), last_app in Hc.
      destruct (last d2) eqn:Hd2; [done|]. by apply last_None in Hd2. }
  rewrite Hs1, Hs2, split_app_blocks; [by rewrite collect_app|].
  intros Hl. apply Hl1 in Hl. by rewrite is_space_ascii in Hl.
Qed.

Lemma parse_srt_concat_witness :
  let d1 := unlines ["1"; "00:00:01,000 --> 00:00:02,000"; "a"; ""; ""; "x"] in
  let d2 := unlines ["2"; "00:00:03,000 --> 00:00:04,000"; "b"] in
  parse_srt (Some (d1 ++ [c_nl; c_nl] ++ d2)) =
  Some [(py "00:00:01,000", py "a"); (py "00:00:03,000", py "b")].
Proof.
  intros d1 d2. by rewrite parse_srt_concat.
Defined.

(** ** More on [align_subtitles] *)

Section AlignFacts.
Context `{UnicodeData}.

Lemma covers_length_max (rows : list row) (kos jas : list entry) :
  covers rows kos jas -> (length kos `max` length jas <= length rows)%nat.
Proof. induction 1; simpl; lia. Qed.

Lemma covers_app (rows1 rows2 : list row) (kos1 kos2 jas1 jas2 : list entry) :
  covers rows1 kos1 jas1 -> covers rows2 kos2 jas2 ->
  covers (rows1 ++ rows2) (kos1 ++ kos2) (jas1 ++ jas2).
Proof. induction 1; intros H2; cbn [app]; [done|by constructor; auto..]. Qed.

Lemma merge_negative (t : Z) (kos jas : list entry) (rows : list row) :
  t < 0 -> merge t kos jas = Some rows ->
  length rows = (length kos + length jas)%nat /\
  Forall (fun r => (exists e, e ∈ kos /\ r = solo_ko e) \/
                   (exists e, e ∈ jas /\ r = solo_ja e)) rows.
Proof.
  intros Ht. revert rows. pattern kos, jas. apply merge_ind; clear kos jas.
  - intros jas rows. rewrite merge_nil_l. intros [= <-].
    split; [by rewrite length_fmap|].
    apply Forall_fmap, Forall_forall. intros e He. right. by exists e.
  - intros ko kos rows. rewrite merge_nil_r. intros Heq.
    assert (rows = solo_ko <$> (ko :: kos)) as -> by congruence.
    split; [rewrite length_fmap; simpl; lia|].
    apply Forall_fmap, Forall_forall. intros e He. left. by exists e.
  - intros ko kos ja jas _ IH2 IH3 rows. rewrite merge_cons_cons.
    destruct (time_to_ms ko.1) as [ko_time|]; [|done].
    destruct (time_to_ms ja.1) as [ja_time|]; [|done].
    cbn [mbind option_bind].
    rewrite bool_decide_eq_false_2 by lia. case_bool_decide.
    + destruct (merge t kos (ja :: jas)) as [rows'|]; [|done].
      intros [= <-]. destruct (IH2 rows' eq_refl) as [Hlen Hall].
      split; [simpl in *; lia|]. constructor.
      * left. exists ko. split; [left|done].
      * eapply Forall_impl; [exact Hall|]. intros r [(e & ? & ?)|?]; [|by right].
        left. exists e. split; [by right|done].
    + destruct (merge t (ko :: kos) jas) as [rows'|]; [|done].
      intros [= <-]. destruct (IH3 rows' eq_refl) as [Hlen Hall].
      split; [simpl in *; lia|]. constructor.
      * right. exists ja. split; [left|done].
      * eapply Forall_impl; [exact Hall|]. intros r [?|(e & ? & ?)]; [by left|].
        right. exists e. split; [by right|done].
Qed.

Lemma merge_near (t : Z) (kos jas : list entry) :
  Forall2 (near t) kos jas -> merge t kos jas = Some (zip_with merged kos jas).
Proof.
  induction 1 as [|ko ja kos jas (a & b & Ha & Hb & Hab) _ IH]; [done|].
  rewrite merge_cons_cons, Ha, Hb. cbn [mbind option_bind].
  rewrite bool_decide_eq_true_2 by done. by rewrite IH.
Qed.

Lemma merge_raises (t : Z) (kos jas : list entry) :
  merge t kos jas = None ->
  exists e, (e ∈ kos \/ e ∈ jas) /\ time_to_ms e.1 = None.
Proof.
  pattern kos, jas. apply merge_ind; clear kos jas.
  - intros jas. by rewrite merge_nil_l.
  - intros ko kos. by rewrite merge_nil_r.
  - intros ko kos ja jas IH1 IH2 IH3. rewrite merge_cons_cons.
    destruct (time_to_ms ko.1) as [ko_time|] eqn:Hko.
    2:{ intros _. exists ko. split; [left; left|done]. }
    destruct (time_to_ms ja.1) as [ja_time|] eqn:Hja.
    2:{ intros _. exists ja. split; [right; left|done]. }
    cbn [mbind option_bind]. repeat case_bool_decide.
    + destruct (merge t kos jas); [done|]. intros _.
      destruct (IH1 eq_refl) as (e & [?|?] & ?); exists e;
        (split; [|done]); [left|right]; by right.
    + destruct (merge t kos (ja :: jas)); [done|]. intros _.
      destruct (IH2 eq_refl) as (e & [?|?] & ?); exists e;
        (split; [|done]); [left; by right|by right].
    + destruct (merge t (ko :: kos) jas); [done|]. intros _.
      destruct (IH3 eq_refl) as (e & [?|?] & ?); exists e;
        (split; [|done]); [by left|right; by right].
Qed.

Lemma covers_ko_column (rows : list row) (kos jas : list entry) :
  covers rows kos jas -> has_text kos ->
  row_time <$> filter (fun r => nonempty (row_ko r) = true) rows = fst <$> kos.
Proof.
  assert (Hne : forall s : str, s <> [] -> nonempty s = true) by by intros [].
  induction 1 as [|ko ja rows kos jas _ IH|ko rows kos jas _ IH|ja rows kos jas _ IH];
    intros Hko; [done|..].
  - apply Forall_cons in Hko as [Hko Hkos].
    rewrite filter_cons_True by (apply Hne, Hko).
    rewrite !fmap_cons. by rewrite IH.
  - apply Forall_cons in Hko as [Hko Hkos].
    rewrite filter_cons_True by (apply Hne, Hko).
    rewrite !fmap_cons. by rewrite IH.
  - rewrite filter_cons_False by done. by apply IH.
Qed.

End AlignFacts.

(** X6. Whenever [align_subtitles] returns rows, there are at least as many
    as the longer track has entries and at most as many as both tracks
    have together. *)
Theorem align_row_count `{UnicodeData} (kos jas : list entry) (t : Z)
    (rows : list row) :
  align_subtitles kos jas t = Done rows ->
  (length kos `max` length jas <= length rows <= length kos + length jas)%nat.
Proof.
  intros Hc%align_subtitles_done%merge_covers.
  split; [by apply covers_length_max|by apply covers_length].
Qed.

Lemma align_row_count_witness :
  let kos := [(py "0:00:01,000", py "a"); (py "0:00:05,000", py "b")] in
  let jas := [(py "0:00:01,200", py "x")] in
  exists rows,
    align_subtitles kos jas 500 = Done rows /\ (2 <= length rows <= 3)%nat.
Proof.
  intros kos jas. eexists. split; [reflexivity|].
  by apply (align_row_count kos jas 500).
Defined.

(** X7. With a threshold below zero nothing is merged: every row is one
    entry alone, and there are exactly as many rows as entries. *)
Theorem align_negative_threshold `{UnicodeData} (kos jas : list entry) (t : Z)
    (rows : list row) :
  t < 0 -> align_subtitles kos jas t = Done rows ->
  length rows = (length kos + length jas)%nat /\
  Forall (fun r => (exists e, e ∈ kos /\ r = (e.1, e.2, [])) \/
                   (exists e, e ∈ jas /\ r = (e.1, [], e.2))) rows.
Proof. intros Ht Hrows%align_subtitles_done. by apply (merge_negative t). Qed.

Lemma align_negative_threshold_witness :
  let kos := [(py "0:00:01,000", py "a")] in
  let jas := [(py "0:00:01,000", py "x")] in
  align_subtitles kos jas (-1) =
    Done [(py "0:00:01,000", [], py "x"); (py "0:00:01,000", py "a", [])] /\
  length [(py "0:00:01,000", @nil char, py "x"); (py "0:00:01,000", py "a", [])] =
    (length kos + length jas)%nat.
Proof.
  intros kos jas.
  assert (Hrows : align_subtitles kos jas (-1) =
            Done [(py "0:00:01,000", [], py "x"); (py "0:00:01,000", py "a", [])])
    by reflexivity.
  split; [done|].
  apply (align_negative_threshold kos jas (-1) _ ltac:(lia) Hrows).
Defined.

(** X8. Two tracks of the same length whose entries are, one by one, at
    most [threshold] apart are merged entry by entry, in any order of
    times: each row has the Korean time code and both texts. In
    particular a track aligned with itself gives one row per entry. *)
Theorem align_near_tracks `{UnicodeData} (kos jas : list entry) (t : Z) :
  Forall2 (near t) kos jas ->
  align_subtitles kos jas t =
    Done (zip_with (fun ko ja => (ko.1, ko.2, ja.2)) kos jas).
Proof. intros Hnear. by rewrite align_subtitles_merge, merge_near. Qed.

Lemma align_near_tracks_witness :
  let kos := [(py "0:00:09,000", py "a"); (py "0:00:01,000", py "b")] in
  let jas := [(py "0:00:09,500", py "x"); (py "0:00:00,500", py "y")] in
  align_subtitles kos jas 500 =
    Done [(py "0:00:09,000", py "a", py "x"); (py "0:00:01,000", py "b", py "y")].
Proof.
  intros kos jas. apply (align_near_tracks kos jas 500).
  repeat constructor.
  - exists 9000, 9500. split_and!; [reflexivity..|simpl; lia].
  - exists 1000, 500. split_and!; [reflexivity..|simpl; lia].
Defined.

(** X9. The loops keep an invariant: at the start, and after every
    iteration of each of the three loops, the cursors are within the tracks
    and the rows appended so far are exactly the entries before the two
    cursors, each taken once, in order, alone or paired. *)
Theorem align_loop_invariant `{UnicodeData} (kos jas : list entry) (t : Z) :
  rows_so_far kos jas (Locals 0 0 []) /\
  forall st st',
    rows_so_far kos jas st ->
    main_body kos jas t st = Some st' \/ ko_body kos st = Some st' \/
      ja_body jas st = Some st' ->
    rows_so_far kos jas st'.
Proof.
  split.
  - unfold rows_so_far. cbn [ko_ptr ja_ptr aligned].
    split_and!; [lia..|constructor].
  - intros [i j acc] st' (Hi & Hj & Hc). cbn [ko_ptr ja_ptr aligned] in *.
    assert (forall ko, kos !! i = Some ko ->
              covers [solo_ko ko] [ko] [] /\ take (S i) kos = take i kos ++ [ko]) as Hko.
    { intros ko Hko. split; [repeat constructor|by apply take_S_r]. }
    assert (forall ja, jas !! j = Some ja ->
              covers [solo_ja ja] [] [ja] /\ take (S j) jas = take j jas ++ [ja]) as Hja.
    { intros ja Hja. split; [repeat constructor|by apply take_S_r]. }
    unfold main_body, ko_body, ja_body, rows_so_far. cbn [ko_ptr ja_ptr aligned].
    intros [Hst|[Hst|Hst]].
    + destruct (kos !! i) as [ko|] eqn:Eko; [|done].
      destruct (jas !! j) as [ja|] eqn:Eja; [|done].
      pose proof (lookup_lt_Some _ _ _ Eko). pose proof (lookup_lt_Some _ _ _ Eja).
      destruct (Hko ko eq_refl) as [Hcko Htko].
      destruct (Hja ja eq_refl) as [Hcja Htja].
      cbn [mbind option_bind] in Hst.
      destruct (time_to_ms ko.1) as [ko_time|]; [|done].
      destruct (time_to_ms ja.1) as [ja_time|]; [|done].
      cbn [mbind option_bind] in Hst.
      repeat case_bool_decide; injection Hst as <-; cbn [ko_ptr ja_ptr aligned].
      * split_and!; [lia..|]. rewrite Htko, Htja.
        apply covers_app; [done|]. repeat constructor.
      * split_and!; [lia..|]. rewrite Htko, <-(app_nil_r (take j jas)).
        by apply covers_app.
      * split_and!; [lia..|]. rewrite Htja, <-(app_nil_r (take i kos)).
        by apply covers_app.
    + destruct (kos !! i) as [ko|] eqn:Eko; [|done].
      pose proof (lookup_lt_Some _ _ _ Eko).
      destruct (Hko ko eq_refl) as [Hcko Htko].
      injection Hst as <-. cbn [ko_ptr ja_ptr aligned].
      split_and!; [lia..|]. rewrite Htko, <-(app_nil_r (take j jas)).
      by apply covers_app.
    + destruct (jas !! j) as [ja|] eqn:Eja; [|done].
      pose proof (lookup_lt_Some _ _ _ Eja).
      destruct (Hja ja eq_refl) as [Hcja Htja].
      injection Hst as <-. cbn [ko_ptr ja_ptr aligned].
      split_and!; [lia..|]. rewrite Htja, <-(app_nil_r (take i kos)).
      by apply covers_app.
Qed.

Lemma align_loop_invariant_witness :
  let kos := [(py "0:00:01,000", py "a"); (py "0:00:05,000", py "b")] in
  let jas := [(py "0:00:01,200", py "x")] in
  rows_so_far kos jas (Locals 1 1 [(py "0:00:01,000", py "a", py "x")]).
Proof.
  intros kos jas.
  destruct (align_loop_invariant kos jas 500) as [Hinit Hstep].
  apply (Hstep (Locals 0 0 [])); [done|]. left. reflexivity.
Defined.

(** X10. When no Korean entry has an empty text, the rows that show a
    Korean text carry, in order, exactly the time codes of the Korean
    track: a merged row never shows the time code of its Japanese entry. *)
Theorem align_korean_time_codes `{UnicodeData} (kos jas : list entry) (t : Z)
    (rows : list row) :
  has_text kos -> align_subtitles kos jas t = Done rows ->
  row_time <$> filter (fun r => nonempty (row_ko r) = true) rows = fst <$> kos.
Proof.
  intros Hko Hrows%align_subtitles_done%merge_covers.
  by apply (covers_ko_column rows kos jas).
Qed.

Lemma align_korean_time_codes_witness :
  let kos := [(py "0:00:01,000", py "a")] in
  let jas := [(py "0:00:00,600", py "b"); (py "0:00:00,700", py "c")] in
  exists rows,
    align_subtitles kos jas 500 = Done rows /\
    row_time <$> filter (fun r => nonempty (row_ko r) = true) rows =
      [py "0:00:01,000"].
Proof.
  intros kos jas. eexists. split; [reflexivity|].
  apply (align_korean_time_codes kos jas 500); [by repeat constructor|reflexivity].
Defined.

(** X11. [align_subtitles] raises only when a time code of one of the
    tracks is one [time_to_ms] rejects; no cursor is ever out of range. *)
Theorem align_raises `{UnicodeData} (kos jas : list entry) (t : Z) :
  align_subtitles kos jas t = Raised ->
  exists e, (e ∈ kos \/ e ∈ jas) /\ time_to_ms e.1 = None.
Proof.
  rewrite align_subtitles_merge.
  destruct (merge t kos jas) as [rows|] eqn:Hm; [done|]. intros _.
  by apply (merge_raises t).
Qed.

Lemma align_raises_witness :
  exists e : entry,
    (e ∈ [(py "soon", py "a")] \/ e ∈ [(py "00:00:05,000", py "b")]) /\
    time_to_ms e.1 = None.
Proof.
  apply (align_raises [(py "soon", py "a")] [(py "00:00:05,000", py "b")] 500).
  reflexivity.
Defined.

(** ** Removing tags *)

Section TagFacts.

Lemma match_tag_Some (s rest : str) :
  match_tag s = Some rest <->
  exists body, body <> [] /\ (c_gt ∉ body) /\ s = c_lt :: body ++ c_gt :: rest.
Proof.
  assert (Hnot : forall l, Forall (fun c => not_gt c = true) l <-> c_gt ∉ l).
  { intros l. rewrite Forall_forall. unfold not_gt. split.
    - intros Hl Hin. specialize (Hl _ Hin). by rewrite N.eqb_refl in Hl.
    - intros Hl c Hc. apply negb_true_iff, N.eqb_neq. by intros ->. }
  split.
  - destruct s as [|c [|d s2]]; cbn [match_tag]; [done|by destruct (c =? c_lt)%N|].
    destruct (N.eqb_spec c c_lt) as [->|]; [|done].
    destruct (not_gt d) eqn:Hd; [|done].
    intros (a & b & -> & Ha & Hk)%greedy_sound.
    destruct b as [|e b]; [done|].
    destruct (N.eqb_spec e c_gt) as [->|]; [|done]. injection Hk as ->.
    exists (d :: a). split_and!; [done| |done].
    apply Hnot. by constructor.
  - intros (body & Hne & Hbody & ->). destruct body as [|d a]; [done|].
    apply Hnot, Forall_cons in Hbody as [Hd Ha].
    cbn [match_tag app]. rewrite N.eqb_refl, Hd.
    rewrite greedy_reject.
    + rewrite lstrip_with_stops; [by rewrite N.eqb_refl|done|].
      intros c [= <-]. unfold not_gt. by rewrite N.eqb_refl.
    + intros c s' Hc. destruct (N.eqb_spec c c_gt) as [->|]; [|done].
      unfold not_gt in Hc. by rewrite N.eqb_refl in Hc.
Qed.

Lemma match_tag_length (s rest : str) :
  match_tag s = Some rest -> (length rest < length s)%nat.
Proof.
  intros (body & _ & _ & ->)%match_tag_Some.
  cbn [length]. rewrite length_app. simpl. lia.
Qed.

Lemma match_tag_first (c : char) (s : str) :
  c <> c_lt -> match_tag (c :: s) = None.
Proof. intros Hc. cbn [match_tag]. by rewrite (proj2 (N.eqb_neq _ _) Hc). Qed.

Lemma sub_tags_loop_enough (n m : nat) (s : str) :
  (length s <= n)%nat -> (length s <= m)%nat ->
  sub_tags_loop n s = sub_tags_loop m s.
Proof.
  revert m s. induction n as [|n IH]; intros m s Hn Hm.
  - destruct s; [|simpl in Hn; lia]. by destruct m.
  - destruct m as [|m]; [destruct s; [done|simpl in Hm; lia]|].
    cbn [sub_tags_loop]. destruct s as [|c s]; [done|].
    destruct (match_tag (c :: s)) as [rest|] eqn:Hr.
    + apply match_tag_length in Hr. simpl in *. apply IH; lia.
    + f_equal. simpl in *. apply IH; lia.
Qed.

Lemma remove_tags_nil : remove_tags [] = [].
Proof. done. Qed.

Lemma remove_tags_match (s rest : str) :
  match_tag s = Some rest -> remove_tags s = remove_tags rest.
Proof.
  intros Hr. pose proof (match_tag_length _ _ Hr) as Hlen.
  unfold remove_tags. destruct s as [|c s]; [done|].
  cbn [length sub_tags_loop]. rewrite Hr.
  apply sub_tags_loop_enough; simpl in *; lia.
Qed.

Lemma remove_tags_keep (c : char) (s : str) :
  match_tag (c :: s) = None -> remove_tags (c :: s) = c :: remove_tags s.
Proof. intros Hr. unfold remove_tags. cbn [length sub_tags_loop]. by rewrite Hr. Qed.

(** A property of all characters of a text holds for what is left of it. *)
Lemma remove_tags_Forall (P : char -> Prop) (s : str) :
  Forall P s -> Forall P (remove_tags s).
Proof.
  remember (length s) as n eqn:Hn. revert s Hn.
  induction n as [n IH] using lt_wf_ind. intros s -> Hs.
  destruct s as [|c s]; [done|].
  destruct (match_tag (c :: s)) as [rest|] eqn:Hr.
  - rewrite (remove_tags_match _ _ Hr).
    apply (IH (length rest)); [by apply match_tag_length|done|].
    apply match_tag_Some in Hr as (body & _ & _ & Heq). rewrite Heq in Hs.
    by apply Forall_cons in Hs as [_ [_ [_ ?]%Forall_cons]%Forall_app].
  - rewrite (remove_tags_keep _ _ Hr). apply Forall_cons in Hs as [Hc Hs].
    constructor; [done|]. by apply (IH (length s)); [simpl; lia|..].
Qed.

Lemma remove_tags_not_elem (c : char) (s : str) : c ∉ s -> c ∉ remove_tags s.
Proof.
  intros Hc Hin.
  pose proof (remove_tags_Forall (fun d => d <> c) s) as Hall.
  rewrite !Forall_forall in Hall. by apply (Hall ltac:(by intros d Hd ->) c).
Qed.

Lemma remove_tags_sublist (s : str) : remove_tags s `sublist_of` s.
Proof.
  remember (length s) as n eqn:Hn. revert s Hn.
  induction n as [n IH] using lt_wf_ind. intros s ->.
  destruct s as [|c s]; [done|].
  destruct (match_tag (c :: s)) as [rest|] eqn:Hr.
  - rewrite (remove_tags_match _ _ Hr).
    pose proof (match_tag_length _ _ Hr).
    apply match_tag_Some in Hr as (body & _ & _ & ->).
    apply sublist_cons, sublist_inserts_l, sublist_cons.
    by apply (IH (length rest)).
  - rewrite (remove_tags_keep _ _ Hr). apply sublist_skip.
    by apply (IH (length s)); [simpl; lia|].
Qed.

Lemma remove_tags_tag_free (s : str) : tag_free (remove_tags s).
Proof.
  remember (length s) as n eqn:Hn. revert s Hn.
  induction n as [n IH] using lt_wf_ind. intros s ->.
  destruct s as [|c s]; [by intros [|i]|].
  destruct (match_tag (c :: s)) as [rest|] eqn:Hr.
  - rewrite (remove_tags_match _ _ Hr).
    by apply (IH (length rest)); [apply match_tag_length|].
  - rewrite (remove_tags_keep _ _ Hr).
    intros [|i]; [|by apply (IH (length s)); [simpl; lia|]].
    cbn [drop].
    destruct (match_tag (c :: remove_tags s)) as [rest|] eqn:Hr'; [|done].
    exfalso. apply match_tag_Some in Hr' as (body & Hne & Hbody & Heq).
    injection Heq as -> HR.
    assert (c_gt ∈ remove_tags s) as Hin.
    { rewrite HR. rewrite elem_of_app, elem_of_cons. auto. }
    destruct s as [|d s]; [by apply elem_of_nil in Hin|].
    destruct (decide (d = c_gt)) as [->|Hd].
    + rewrite remove_tags_keep in HR by (by apply match_tag_first).
      destruct body as [|b body]; [done|]. injection HR as <- _.
      apply Hbody. left.
    + destruct (decide (c_gt ∈ d :: s)) as [Hgt|Hgt].
      2:{ by apply (remove_tags_not_elem c_gt (d :: s)). }
      apply elem_of_cons in Hgt as [?|Hgt]; [done|].
      apply list_elem_of_split_l in Hgt as (a & b & -> & Ha).
      assert (match_tag (c_lt :: d :: a ++ c_gt :: b) = Some b) as Hm; [|congruence].
      apply match_tag_Some. exists (d :: a). split_and!; [done| |done].
      by intros [?|?]%elem_of_cons.
Qed.

Lemma remove_tags_fixed (s : str) : tag_free s -> remove_tags s = s.
Proof.
  induction s as [|c s IH]; intros Hs; [done|].
  rewrite remove_tags_keep by apply (Hs 0%nat).
  f_equal. apply IH. intros i. apply (Hs (S i)).
Qed.

Lemma tag_free_no_gt (s : str) : c_gt ∉ s -> tag_free s.
Proof.
  intros Hs i. destruct (match_tag (drop i s)) as [rest|] eqn:Hr; [|done].
  apply match_tag_Some in Hr as (body & _ & _ & Heq). exfalso. apply Hs.
  rewrite <-(take_drop i s), Heq.
  rewrite !elem_of_app, !elem_of_cons, elem_of_app, elem_of_cons. auto 10.
Qed.

Lemma tag_free_no_lt (s : str) : c_lt ∉ s -> tag_free s.
Proof.
  intros Hs i. destruct (match_tag (drop i s)) as [rest|] eqn:Hr; [|done].
  apply match_tag_Some in Hr as (body & _ & _ & Heq). exfalso. apply Hs.
  rewrite <-(take_drop i s), Heq. rewrite !elem_of_app, !elem_of_cons. auto.
Qed.

(** Tags and the matcher. *)
Lemma match_tag_tag (s rest : str) :
  match_tag s = Some rest <-> exists t, tag t /\ s = t ++ rest.
Proof.
  rewrite match_tag_Some. split.
  - intros (body & Hne & Hbody & ->). exists ([c_lt] ++ body ++ [c_gt]).
    split; [by exists body|]. by rewrite <-!(assoc_L (++)).
  - intros (t & (body & Hne & Hbody & ->) & ->). exists body.
    split_and!; [done..|]. by rewrite <-!(assoc_L (++)).
Qed.

Lemma no_tag_starts_nil (rest : str) : no_tag_starts [] rest.
Proof. intros i t after Hi. simpl in Hi. lia. Qed.

Lemma no_tag_starts_cons (c : char) (plain rest : str) :
  no_tag_starts (c :: plain) rest <->
  match_tag (c :: plain ++ rest) = None /\ no_tag_starts plain rest.
Proof.
  split.
  - intros Hno. split.
    + destruct (match_tag (c :: plain ++ rest)) as [after|] eqn:Hm; [|done].
      apply match_tag_tag in Hm as (t & Ht & Heq).
      destruct (Hno 0%nat t after); [simpl; lia|done..].
    + intros i t after Hi Ht. apply (Hno (S i) t after); [simpl; lia|done].
  - intros [Hm Hno] [|i] t after Hi Ht.
    + cbn [drop app]. intros Heq.
      assert (match_tag (c :: plain ++ rest) = Some after) as Hm'; [|congruence].
      apply match_tag_tag. by exists t.
    + apply (Hno i t after); [simpl in Hi; lia|done].
Qed.

Lemma no_tag_starts_tag_free (plain : str) :
  no_tag_starts plain [] -> tag_free plain.
Proof.
  induction plain as [|c plain IH]; [by intros _ [|i]|].
  intros [Hm Hno]%no_tag_starts_cons. rewrite app_nil_r in Hm.
  intros [|i]; [done|]. by apply IH.
Qed.

Lemma remove_tags_no_tag_starts (plain rest : str) :
  no_tag_starts plain rest -> remove_tags (plain ++ rest) = plain ++ remove_tags rest.
Proof.
  induction plain as [|c plain IH]; [done|].
  intros [Hm Hno]%no_tag_starts_cons. cbn [app].
  rewrite remove_tags_keep by done. f_equal. by apply IH.
Qed.

Lemma without_tags_unique (text out : str) :
  without_tags text out -> out = remove_tags text.
Proof.
  induction 1 as [plain Hno|plain t rest out Hno Ht _ IH].
  - symmetry. by apply remove_tags_fixed, no_tag_starts_tag_free.
  - rewrite remove_tags_no_tag_starts by done. f_equal.
    rewrite (remove_tags_match (t ++ rest) rest); [done|].
    apply match_tag_tag. by exists t.
Qed.

Lemma without_tags_cons (c : char) (text out : str) :
  match_tag (c :: text) = None -> without_tags text out ->
  without_tags (c :: text) (c :: out).
Proof.
  intros Hm Hout. destruct Hout as [plain Hno|plain t rest out Hno Ht Hout].
  - apply without_tags_plain, no_tag_starts_cons. by rewrite app_nil_r.
  - apply (without_tags_tag (c :: plain)); [|done..].
    by apply no_tag_starts_cons.
Qed.

Lemma without_tags_remove_tags (text : str) :
  without_tags text (remove_tags text).
Proof.
  remember (length text) as n eqn:Hn. revert text Hn.
  induction n as [n IH] using lt_wf_ind. intros s ->.
  destruct s as [|c s]; [apply without_tags_plain, no_tag_starts_nil|].
  destruct (match_tag (c :: s)) as [rest|] eqn:Hr.
  - rewrite (remove_tags_match _ _ Hr).
    pose proof (match_tag_length _ _ Hr) as Hlen.
    apply match_tag_tag in Hr as (t & Ht & ->).
    apply (without_tags_tag [] t rest); [apply no_tag_starts_nil|done|].
    by apply (IH (length rest)).
  - rewrite (remove_tags_keep _ _ Hr). apply without_tags_cons; [done|].
    by apply (IH (length s)); [simpl; lia|].
Qed.

End TagFacts.

(** X12. What [re.sub(r'<[^>]+>', '', text)] returns holds no tag any more:
    nowhere a [<], one or more characters other than [>], and a [>]. So
    removing tags a second time changes nothing. *)
Theorem remove_tags_no_tag (text : str) :
  (forall a body b, body <> [] -> c_gt ∉ body ->
     remove_tags text <> a ++ [c_lt] ++ body ++ [c_gt] ++ b) /\
  remove_tags (remove_tags text) = remove_tags text.
Proof.
  pose proof (remove_tags_tag_free text) as Hfree. split.
  - intros a body b Hne Hbody Heq.
    specialize (Hfree (length a)). rewrite Heq, drop_app_length in Hfree.
    assert (match_tag ([c_lt] ++ body ++ [c_gt] ++ b) = Some b) as Hm; [|congruence].
    apply match_tag_Some. by exists body.
  - by apply remove_tags_fixed.
Qed.

(** X13. Removing tags drops the leftmost non-overlapping tags and
    nothing else: when the text is cut into the stretches in which no tag
    starts and the tags that follow them, what is returned is these
    stretches, whole and in order, and it is the only text of this kind.
    So the characters outside the tags are all kept, in their order, and
    none is added; a text without [<], or without [>], is returned as it
    is. *)
Theorem remove_tags_keeps (text : str) :
  without_tags text (remove_tags text) /\
  (forall out, without_tags text out -> out = remove_tags text) /\
  remove_tags text `sublist_of` text /\
  (c_lt ∉ text \/ c_gt ∉ text -> remove_tags text = text).
Proof.
  split_and!;
    [apply without_tags_remove_tags|apply without_tags_unique|
     apply remove_tags_sublist|].
  intros [Hlt|Hgt]; apply remove_tags_fixed;
    [by apply tag_free_no_lt|by apply tag_free_no_gt].
Qed.

(** X14. A tag that follows text without [<] is dropped and the text before
    it kept; the scan goes on behind the tag. The tag ends at the first
    [>], so its body may hold a further [<]. *)
Theorem remove_tags_tag (before body after : str) :
  c_lt ∉ before -> body <> [] -> c_gt ∉ body ->
  remove_tags (before ++ [c_lt] ++ body ++ [c_gt] ++ after) =
  before ++ remove_tags after.
Proof.
  intros Hb Hne Hbody. induction before as [|c before IH].
  - apply remove_tags_match, match_tag_Some. by exists body.
  - apply not_elem_of_cons in Hb as [Hc Hb]. cbn [app].
    rewrite remove_tags_keep by by apply match_tag_first.
    f_equal. by apply IH.
Qed.

Lemma remove_tags_tag_witness :
  remove_tags (py "He said <i><b>no</b></i> <<x>> & 1 < 2") =
  py "He said no > & 1 < 2".
Proof.
  change (py "He said <i><b>no</b></i> <<x>> & 1 < 2") with
    (py "He said " ++ [c_lt] ++ py "i" ++ [c_gt] ++
     py "<b>no</b></i> <<x>> & 1 < 2").
  rewrite remove_tags_tag; [reflexivity|..|done|];
    intros Hin%list_elem_of_In; vm_compute in Hin; intuition discriminate.
Defined.

Lemma remove_tags_keeps_witness :
  remove_tags (py "1 < 2") = py "1 < 2" /\
  remove_tags (py "a -> b") = py "a -> b" /\
  py "<> b" ++ py "c" = remove_tags (py "<> b" ++ py "<i>" ++ py "c").
Proof.
  split_and!.
  - apply remove_tags_keeps. right.
    intros Hin%list_elem_of_In; vm_compute in Hin; intuition discriminate.
  - apply remove_tags_keeps. left.
    intros Hin%list_elem_of_In; vm_compute in Hin; intuition discriminate.
  - destruct (remove_tags_keeps (py "<> b" ++ py "<i>" ++ py "c"))
      as (_ & Honly & _).
    apply Honly. apply without_tags_tag.
    + apply no_tag_starts_cons. split; [done|].
      apply no_tag_starts_cons. split; [done|].
      apply no_tag_starts_cons. split; [done|].
      apply no_tag_starts_cons. split; [done|]. apply no_tag_starts_nil.
    + exists (py "i"). split_and!; [done| |done].
      intros Hin%list_elem_of_In; vm_compute in Hin; intuition discriminate.
    + apply without_tags_plain.
      apply no_tag_starts_cons. split; [done|]. apply no_tag_starts_nil.
Defined.

(** ** The program round the three functions: properties *)

Section ProgramFacts.
Context `{UnicodeData}.
Variable w : world.

Lemma quiet_not_elem (events : list event) :
  Forall quiet events ->
  (Showinfo ∉ events) /\ forall p data, Build p data ∉ events.
Proof.
  intros Hq. rewrite Forall_forall in Hq.
  split; [|intros p data]; intros Hin; by apply Hq in Hin.
Qed.

Lemma register_ko_skip (bad fonts : list font) :
  Forall (fun g => font_loads w (font_name g)
                     (resource_path w (font_file g)) = false) bad ->
  register_ko w (bad ++ fonts) = register_ko w fonts.
Proof. induction 1 as [|g bad Hg _ IH]; [done|]. cbn [app register_ko]. by rewrite Hg. Qed.

Lemma register_ko_quiet (fonts : list font) :
  Forall quiet (register_ko w fonts).1.
Proof.
  induction fonts as [|g fonts IH]; cbn [register_ko]; [by repeat constructor|].
  destruct (font_loads w _ _); [by repeat constructor|done].
Qed.

Lemma register_fonts_quiet (ja : font) (ko : list font) :
  Forall quiet (register_fonts_with w ja ko).1.
Proof.
  unfold register_fonts_with. destruct (font_loads w _ _); [|by repeat constructor].
  pose proof (register_ko_quiet ko) as Hq.
  destruct (register_ko w ko) as [events name]. by constructor.
Qed.

Lemma parse_srt_at_quiet (file_path : str) :
  Forall quiet (parse_srt_at w file_path).1.
Proof.
  unfold parse_srt_at. cbn [fst]. destruct (parse_srt _); by repeat constructor.
Qed.

(** [align_subtitles] returns rows or raises, and raises only on a time
    code [time_to_ms] rejects. *)
Lemma align_outcome (kos jas : list entry) (t : Z) :
  (exists rows, align_subtitles kos jas t = Done rows) \/
  align_subtitles kos jas t = Raised /\
  exists e, (e ∈ kos \/ e ∈ jas) /\ time_to_ms e.1 = None.
Proof.
  rewrite align_subtitles_merge.
  destruct (merge t kos jas) as [rows|] eqn:Hm; [left; by exists rows|right].
  split; [done|]. by apply (merge_raises t).
Qed.

(** In the program [align_subtitles] is given what [parse_srt] returned,
    so it returns rows when no time code is longer than [int] allows. *)
Lemma align_parsed (ko_path ja_path : str) (kos jas : list entry) (t : Z) :
  parse_srt (read_file w ko_path) = Some kos ->
  parse_srt (read_file w ja_path) = Some jas ->
  short_time_codes kos -> short_time_codes jas ->
  exists rows, align_subtitles kos jas t = Done rows.
Proof.
  destruct (read_file w ko_path) as [ko_content|]; [|done].
  destruct (read_file w ja_path) as [ja_content|]; [|done].
  intros [= <-] [= <-] Hks Hjs.
  destruct (parse_content_sound ko_content) as [Hko _].
  destruct (parse_content_sound ja_content) as [Hja _].
  destruct (merge_well_formed t _ _ (Hko Hks) (Hja Hjs)) as [rows Hrows].
  exists rows. by apply align_subtitles_done.
Qed.

End ProgramFacts.

(** X15. [register_fonts] gives up, with one error box and no Korean font
    tried, when the Japanese font does not load; otherwise it registers the
    Japanese font and the first Korean font of the configuration that
    loads, returns the name of that one and leaves the fonts after it
    alone; when no Korean font loads it shows one error box and returns
    nothing. *)
Theorem register_fonts_first (w : world) (ja : font) (ko : list font) :
  let path := fun g => resource_path w (font_file g) in
  let loads := fun g => font_loads w (font_name g) (path g) in
  (loads ja = false ->
   register_fonts_with w ja ko = ([Showerror JaFontFailed], None)) /\
  (loads ja = true ->
   forall bad g rest,
     ko = bad ++ g :: rest -> Forall (fun b => loads b = false) bad ->
     loads g = true ->
     register_fonts_with w ja ko =
       ([RegisterFont (font_name ja) (path ja);
         RegisterFont (font_name g) (path g)], Some (font_name g))) /\
  (loads ja = true -> Forall (fun b => loads b = false) ko ->
   register_fonts_with w ja ko =
     ([RegisterFont (font_name ja) (path ja); Showerror KoFontMissing], None)).
Proof.
  intros path loads. unfold register_fonts_with. subst loads path. cbv beta.
  split_and!.
  - by intros ->.
  - intros -> bad g rest -> Hbad Hg.
    rewrite register_ko_skip by done. cbn [register_ko]. by rewrite Hg.
  - intros -> Hko. rewrite <-(app_nil_r ko), register_ko_skip by done. done.
Qed.

Lemma register_fonts_first_witness :
  let w := World None (py "/app") (fun base rel => base ++ py "/" ++ rel)
             (fun name _ => negb (bool_decide (name = py "Batang")))
             (fun _ => None) (fun _ _ => true) in
  register_fonts_with w (Font (py "IPAexGothic") (py "ipaexg.ttf"))
    [Font (py "Batang") (py "batang.ttf");
     Font (py "NanumGothic") (py "NanumGothic.ttf");
     Font (py "Gulim") (py "gulim.ttf")] =
  ([RegisterFont (py "IPAexGothic") (py "/app/ipaexg.ttf");
    RegisterFont (py "NanumGothic") (py "/app/NanumGothic.ttf")],
   Some (py "NanumGothic")).
Proof.
  intros w.
  set (ja := Font (py "IPAexGothic") (py "ipaexg.ttf")).
  set (batang := Font (py "Batang") (py "batang.ttf")).
  set (nanum := Font (py "NanumGothic") (py "NanumGothic.ttf")).
  set (gulim := Font (py "Gulim") (py "gulim.ttf")).
  destruct (register_fonts_first w ja [batang; nanum; gulim]) as (_ & Hfirst & _).
  apply (Hfirst eq_refl [batang] nanum [gulim]); [done| |done].
  by repeat constructor.
Defined.

(** X16. When the three fields are filled, the fonts load, both files can
    be read and each gives at least one entry, [run] sets the progress to
    50 and aligns the two parsed tracks with the threshold 500. This
    returns rows whenever no time code has more than 4300 characters; with
    the rows, [run] sets the progress to 80 and hands their table data to
    the document builder, and, when that returns, sets the progress to 100
    and reports success; when the builder raises, [run] raises with the
    progress at 80 and no success is reported. When [align_subtitles]
    raises, on a time code that [time_to_ms] rejects, [run] raises with
    the progress at 50. *)
Theorem run_builds `{UnicodeData} (w : world)
    (ko_file ja_file output_file ko_font_name : str)
    (font_events : list event) (ko_entries ja_entries : list entry) :
  ko_file <> [] -> ja_file <> [] -> output_file <> [] ->
  register_fonts w = (font_events, Some ko_font_name) ->
  parse_srt (read_file w ko_file) = Some ko_entries -> ko_entries <> [] ->
  parse_srt (read_file w ja_file) = Some ja_entries -> ja_entries <> [] ->
  let started :=
    font_events ++
    [SetProgress 20; UpdateIdletasks; SetProgress 50; UpdateIdletasks] in
  (short_time_codes ko_entries -> short_time_codes ja_entries ->
   exists aligned, align_subtitles ko_entries ja_entries 500 = Done aligned) /\
  (forall aligned,
     align_subtitles ko_entries ja_entries 500 = Done aligned ->
     let data := table_data ko_font_name aligned in
     let before := started ++ [SetProgress 80; UpdateIdletasks] in
     run w ko_file ja_file output_file =
       if builds w output_file data then
         (before ++
          [Build output_file data; SetProgress 100; UpdateIdletasks; Showinfo],
          Done tt)
       else (before, Raised)) /\
  (align_subtitles ko_entries ja_entries 500 = Raised ->
   (exists e, (e ∈ ko_entries \/ e ∈ ja_entries) /\ time_to_ms e.1 = None) /\
   run w ko_file ja_file output_file = (started, Raised)).
Proof.
  intros Hko_file Hja_file Hout Hfonts Hko Hko_ne Hja Hja_ne started.
  assert (ko_font_name <> []) as Hname.
  { revert Hfonts. unfold register_fonts, register_fonts_with, FONT_CONFIG_ko.
    cbn [register_ko]. repeat destruct (font_loads w _ _); by intros [= _ <-]. }
  assert (run w ko_file ja_file output_file =
          match align_subtitles ko_entries ja_entries 500 with
          | Done aligned =>
            if builds w output_file (table_data ko_font_name aligned) then
              ((started ++ [SetProgress 80; UpdateIdletasks]) ++
               [Build output_file (table_data ko_font_name aligned);
                SetProgress 100; UpdateIdletasks; Showinfo], Done tt)
            else (started ++ [SetProgress 80; UpdateIdletasks], Raised)
          | Raised => (started, Raised)
          | OutOfFuel => (started, OutOfFuel)
          end) as Hrun.
  { unfold run. destruct ko_file, ja_file, output_file; try done.
    cbn [nonempty negb orb]. rewrite Hfonts.
    destruct ko_font_name as [|? name]; [done|].
    unfold parse_srt_at. rewrite Hko, Hja.
    destruct ko_entries as [|ko kos]; [done|].
    destruct ja_entries as [|ja jas]; [done|].
    unfold default_threshold, started.
    destruct (align_subtitles _ _ 500) as [aligned| |];
      [|by rewrite <-?(assoc_L (++))..].
    unfold create_pdf. destruct (builds w _ _); by rewrite <-?(assoc_L (++)). }
  split_and!.
  - intros Hks Hjs. by apply (align_parsed w ko_file ja_file).
  - intros aligned Haligned. cbv zeta. by rewrite Hrun, Haligned.
  - intros Hraised. split; [|by rewrite Hrun, Hraised].
    destruct (align_outcome ko_entries ja_entries 500)
      as [[rows Hrows]|[_ He]]; [congruence|done].
Qed.

Lemma run_builds_witness :
  exists aligned data,
    align_subtitles [(py "00:00:01,000", py "<i>a</i>")]
      [(py "00:00:01,200", py "x")] 500 = Done aligned /\
    data = table_data (py "NanumGothic") aligned /\
    run example_world (py "ko.srt") (py "ja.srt") (py "out.pdf") =
      ([RegisterFont (py "IPAexGothic") (py "/app/ipaexg.ttf");
        RegisterFont (py "NanumGothic") (py "/app/NanumGothic.ttf");
        SetProgress 20; UpdateIdletasks; SetProgress 50; UpdateIdletasks;
        SetProgress 80; UpdateIdletasks;
        Build (py "out.pdf") data; SetProgress 100; UpdateIdletasks; Showinfo],
       Done tt).
Proof.
  destruct (run_builds example_world (py "ko.srt") (py "ja.srt") (py "out.pdf")
              (py "NanumGothic") _ _ _
              ltac:(done) ltac:(done) ltac:(done) eq_refl eq_refl ltac:(done)
              eq_refl ltac:(done)) as (Hreturns & Hrun & _).
  destruct Hreturns as [aligned Haligned]; [by apply short_time_codes_check..|].
  exists aligned, (table_data (py "NanumGothic") aligned).
  split_and!; [done|done|]. by rewrite (Hrun aligned Haligned).
Defined.

(** X17. When the fields are filled, the fonts load and both files can be
    read, but one of them gives no entry, [run] stops after setting the
    progress to 20: it opens no box for this, aligns nothing and writes no
    document. *)
Theorem run_empty_track `{UnicodeData} (w : world)
    (ko_file ja_file output_file ko_font_name : str)
    (font_events : list event) (ko_entries ja_entries : list entry) :
  ko_file <> [] -> ja_file <> [] -> output_file <> [] ->
  register_fonts w = (font_events, Some ko_font_name) ->
  parse_srt (read_file w ko_file) = Some ko_entries ->
  parse_srt (read_file w ja_file) = Some ja_entries ->
  ko_entries = [] \/ ja_entries = [] ->
  run w ko_file ja_file output_file =
    (font_events ++ [SetProgress 20; UpdateIdletasks], Done tt).
Proof.
  intros Hko_file Hja_file Hout Hfonts Hko Hja Hempty.
  assert (ko_font_name <> []) as Hname.
  { revert Hfonts. unfold register_fonts, register_fonts_with, FONT_CONFIG_ko.
    cbn [register_ko]. repeat destruct (font_loads w _ _); by intros [= _ <-]. }
  unfold run. destruct ko_file, ja_file, output_file; try done.
  cbn [nonempty negb orb]. rewrite Hfonts.
  destruct ko_font_name as [|? name]; [done|].
  unfold parse_srt_at. rewrite Hko, Hja.
  destruct Hempty as [-> | ->].
  - by rewrite !app_nil_r.
  - destruct ko_entries; by rewrite !app_nil_r.
Qed.

Lemma run_empty_track_witness :
  run example_world (py "ko.srt") (py "empty.srt") (py "out.pdf") =
  ([RegisterFont (py "IPAexGothic") (py "/app/ipaexg.ttf");
    RegisterFont (py "NanumGothic") (py "/app/NanumGothic.ttf");
    SetProgress 20; UpdateIdletasks], Done tt).
Proof.
  rewrite (run_empty_track example_world (py "ko.srt") (py "empty.srt")
             (py "out.pdf") (py "NanumGothic")
             [RegisterFont (py "IPAexGothic") (py "/app/ipaexg.ttf");
              RegisterFont (py "NanumGothic") (py "/app/NanumGothic.ttf")]
             [(py "00:00:01,000", py "<i>a</i>")] []); try done.
  by right.
Defined.



(** ** The table data and the fonts *)

Section TableFacts.

Lemma table_data_fmap (ko_font_name : str) (aligned_entries : list row) :
  table_data ko_font_name aligned_entries =
  table_row ko_font_name <$> aligned_entries.
Proof.
  unfold table_data.
  enough (forall data,
            foldl (fun data r => data ++ [table_row ko_font_name r]) data
              aligned_entries =
            data ++ (table_row ko_font_name <$> aligned_entries)) as Hacc
    by apply (Hacc []).
  induction aligned_entries as [|r rows IH]; intros data; cbn [foldl fmap list_fmap].
  - by rewrite app_nil_r.
  - rewrite IH. by rewrite <-(assoc_L (++)).
Qed.

Lemma remove_tags_app_no_lt (s rest : str) :
  c_lt ∉ s -> remove_tags (s ++ rest) = s ++ remove_tags rest.
Proof.
  induction s as [|c s IH]; [done|]. intros [Hc Hs]%not_elem_of_cons.
  cbn [app]. rewrite remove_tags_keep by by apply match_tag_first.
  f_equal. by apply IH.
Qed.

Lemma not_elem_of_py (c : char) (s : string) :
  forallb (fun d => negb (d =? c)%N) (py s) = true -> c ∉ py s.
Proof.
  intros Hall Hin%list_elem_of_In. rewrite forallb_forall in Hall.
  specialize (Hall _ Hin). by rewrite N.eqb_refl in Hall.
Qed.

(** The text of a paragraph without its tags. *)
Lemma remove_tags_markup (colour : string) (timecode text : str) :
  c_gt ∉ py colour -> c_lt ∉ timecode ->
  remove_tags (py "<font color='" ++ py colour ++ py "' size='8'>" ++ timecode ++
               py "</font><br/>" ++ remove_tags text) =
  timecode ++ remove_tags text.
Proof.
  intros Hcolour Htime.
  rewrite (remove_tags_match _ (timecode ++ py "</font><br/>" ++ remove_tags text)).
  2:{ apply match_tag_Some.
      exists (py "font color='" ++ py colour ++ py "' size='8'").
      split_and!; [done| |by rewrite <-!(assoc_L (++))].
      rewrite !not_elem_of_app. split_and!; [|done|]; by apply not_elem_of_py. }
  rewrite remove_tags_app_no_lt by done. f_equal.
  rewrite (remove_tags_match _ (py "<br/>" ++ remove_tags text)).
  2:{ apply match_tag_Some. exists (py "/font"). split_and!; [done| |done].
      by apply not_elem_of_py. }
  rewrite (remove_tags_match _ (remove_tags text)).
  2:{ apply match_tag_Some. exists (py "br/"). split_and!; [done| |done].
      by apply not_elem_of_py. }
  apply remove_tags_fixed, remove_tags_tag_free.
Qed.

End TableFacts.

(** X19. The table has one pair of paragraphs for every aligned row, in the
    order of the rows. The Korean paragraph of a row is set in the font
    given, the Japanese one in the Japanese font of the configuration; when
    the time code of the row holds no [<], the only tags in the text of
    either paragraph are the three the program writes itself: without them
    the text is the time code followed by the subtitle text without its
    tags. *)
Theorem table_data_rows (ko_font_name : str) (aligned_entries : list row) :
  length (table_data ko_font_name aligned_entries) = length aligned_entries /\
  forall (i : nat) timecode ko_text ja_text,
    aligned_entries !! i = Some (timecode, ko_text, ja_text) ->
    exists ko_para ja_para,
      table_data ko_font_name aligned_entries !! i = Some (ko_para, ja_para) /\
      fontName (para_style ko_para) = ko_font_name /\
      fontName (para_style ja_para) = py "IPAexGothic" /\
      (c_lt ∉ timecode ->
       remove_tags (para_text ko_para) = timecode ++ remove_tags ko_text /\
       remove_tags (para_text ja_para) = timecode ++ remove_tags ja_text).
Proof.
  rewrite table_data_fmap. split; [by rewrite length_fmap|].
  intros i timecode ko_text ja_text Hi.
  apply (f_equal (fmap (M:=option) (table_row ko_font_name))) in Hi.
  rewrite <-(list_lookup_fmap (table_row ko_font_name)) in Hi.
  cbn [fmap option_fmap option_map table_row] in Hi.
  eexists _, _. split; [exact Hi|]. cbn [para_style para_text fontName ko_style ja_style].
  split_and!; [done|done|]. intros Htime. split.
  - exact (remove_tags_markup "#0066CC" timecode ko_text
             ltac:(by apply not_elem_of_py) Htime).
  - exact (remove_tags_markup "#CC0033" timecode ja_text
             ltac:(by apply not_elem_of_py) Htime).
Qed.

Lemma table_data_rows_witness :
  exists ko_para ja_para,
    table_data (py "NanumGothic")
      [(py "00:00:01,000", py "<i>a</i>", py "x <b>y</b>")] !! 0%nat =
      Some (ko_para, ja_para) /\
    para_text ko_para =
      py "<font color='#0066CC' size='8'>00:00:01,000</font><br/>a" /\
    remove_tags (para_text ko_para) = py "00:00:01,000a" /\
    remove_tags (para_text ja_para) = py "00:00:01,000x y".
Proof.
  destruct (table_data_rows (py "NanumGothic")
              [(py "00:00:01,000", py "<i>a</i>", py "x <b>y</b>")])
    as [_ Hrows].
  destruct (Hrows 0%nat _ _ _ eq_refl) as (ko_para & ja_para & Hi & _ & _ & Htext).
  exists ko_para, ja_para. split; [done|].
  destruct Htext as [Hko Hja].
  { by apply (not_elem_of_py c_lt "00:00:01,000"). }
  injection Hi as <- <-. by split_and!.
Defined.

Section FontFacts.
Context `{UnicodeData}.
Variable w : world.

Lemma register_ko_registered (fonts : list font) (events : list event) (name : str) :
  register_ko w fonts = (events, Some name) ->
  exists path, events = [RegisterFont name path] /\ font_loads w name path = true.
Proof.
  induction fonts as [|g fonts IH]; cbn [register_ko]; [done|].
  destruct (font_loads w _ _) eqn:Hg; [|done]. intros [= <- <-]. eauto.
Qed.

Lemma register_fonts_registered (ja : font) (ko : list font)
    (events : list event) (name : str) :
  register_fonts_with w ja ko = (events, Some name) ->
  exists ja_path ko_path,
    events = [RegisterFont (font_name ja) ja_path; RegisterFont name ko_path] /\
    font_loads w (font_name ja) ja_path = true /\
    font_loads w name ko_path = true.
Proof.
  unfold register_fonts_with. destruct (font_loads w _ _) eqn:Hja; [|done].
  destruct (register_ko w ko) as [ko_events ko_name] eqn:Hko. intros [= <- ->].
  apply register_ko_registered in Hko as (ko_path & -> & Hload). eauto.
Qed.

(** A document is written on one path through [run] only. *)
Lemma run_build_inv (ko_file ja_file output_file p : str)
    (data : list (paragraph * paragraph)) :
  Build p data ∈ (run w ko_file ja_file output_file).1 ->
  exists font_events ko_font_name ko_entries ja_entries aligned,
    register_fonts w = (font_events, Some ko_font_name) /\
    parse_srt (read_file w ko_file) = Some ko_entries /\
    parse_srt (read_file w ja_file) = Some ja_entries /\
    align_subtitles ko_entries ja_entries 500 = Done aligned /\
    p = output_file /\ data = table_data ko_font_name aligned /\
    builds w output_file data = true /\
    run w ko_file ja_file output_file =
      (font_events ++
       [SetProgress 20; UpdateIdletasks; SetProgress 50; UpdateIdletasks;
        SetProgress 80; UpdateIdletasks;
        Build output_file data; SetProgress 100; UpdateIdletasks; Showinfo],
       Done tt).
Proof.
  assert (forall events : list event,
            Forall quiet events -> Build p data ∉ events) as Hquiet.
  { intros events [_ Hb]%quiet_not_elem. apply Hb. }
  unfold run.
  destruct (negb (nonempty ko_file) || negb (nonempty ja_file) ||
            negb (nonempty output_file)).
  { intros Hin. by apply Hquiet in Hin; [|repeat constructor]. }
  pose proof (register_fonts_quiet w (FONT_CONFIG_ja w) (FONT_CONFIG_ko w)) as Hfq.
  fold (register_fonts w) in Hfq.
  destruct (register_fonts w) as [font_events ko_font_name]. cbn [fst] in Hfq.
  destruct ko_font_name as [[|c name]|]; cbn [fst snd];
    [intros Hin; by apply Hquiet in Hin| |intros Hin; by apply Hquiet in Hin].
  pose proof (parse_srt_at_quiet w ko_file) as Hkq.
  pose proof (parse_srt_at_quiet w ja_file) as Hjq.
  unfold parse_srt_at in *. cbn [fst] in Hkq, Hjq.
  set (ko_events := match parse_srt (read_file w ko_file) with
                    | Some _ => [] | None => [Showerror SrtError] end) in *.
  set (ja_events := match parse_srt (read_file w ja_file) with
                    | Some _ => [] | None => [Showerror SrtError] end) in *.
  assert (Forall quiet (font_events ++ [SetProgress 20; UpdateIdletasks] ++
                        ko_events ++ ja_events)) as Hbefore.
  { repeat (apply Forall_app; split); try done. by repeat constructor. }
  destruct (parse_srt (read_file w ko_file)) as [[|ko kos]|] eqn:Hko;
    cbn [fst snd];
    [intros Hin; by apply Hquiet in Hin| |intros Hin; by apply Hquiet in Hin].
  destruct (parse_srt (read_file w ja_file)) as [[|ja jas]|] eqn:Hja;
    cbn [fst snd];
    [intros Hin; by apply Hquiet in Hin| |intros Hin; by apply Hquiet in Hin].
  unfold default_threshold.
  destruct (align_outcome (ko :: kos) (ja :: jas) 500)
    as [[aligned Haligned]|[Hraised _]].
  2:{ rewrite Hraised. cbn [fst snd]. intros Hin. apply Hquiet in Hin; [done|].
      apply Forall_app; split; [done|]. by repeat constructor. }
  rewrite Haligned. unfold create_pdf.
  assert (Forall quiet (((font_events ++ [SetProgress 20; UpdateIdletasks] ++
                          ko_events ++ ja_events) ++
                         [SetProgress 50; UpdateIdletasks]) ++
                        [SetProgress 80; UpdateIdletasks])) as Hpre.
  { repeat (apply Forall_app; split); try done; by repeat constructor. }
  destruct (builds w output_file (table_data (c :: name) aligned)) eqn:Hbuild;
    cbn [fst snd].
  - intros [Hin|Hin]%elem_of_app; [by apply Hquiet in Hin|].
    cbn [app] in Hin. apply elem_of_cons in Hin as [Heq|Hin].
    + injection Heq as -> ->.
      exists font_events, (c :: name), (ko :: kos), (ja :: jas), aligned.
      split_and!; try done. subst ko_events ja_events. cbn [app].
      by rewrite <-!(assoc_L (++)).
    + repeat (apply elem_of_cons in Hin as [Hin|Hin]; [discriminate|]).
      by apply elem_of_nil in Hin.
  - rewrite app_nil_r. intros Hin. by apply Hquiet in Hin.
Qed.

End FontFacts.

(** X20. When [run] has a document written, it has registered the Japanese
    font of the configuration and one Korean font before anything else,
    both loaded without an error, and every paragraph of the document is
    set in one of the two: the Korean column in the Korean font registered,
    the Japanese column in the Japanese one. *)
Theorem run_fonts_registered `{UnicodeData} (w : world)
    (ko_file ja_file output_file p : str) (data : list (paragraph * paragraph)) :
  Build p data ∈ (run w ko_file ja_file output_file).1 ->
  exists ja_path ko_path ko_font_name rest,
    (run w ko_file ja_file output_file).1 =
      RegisterFont (py "IPAexGothic") ja_path ::
      RegisterFont ko_font_name ko_path :: rest /\
    Build p data ∈ rest /\
    font_loads w (py "IPAexGothic") ja_path = true /\
    font_loads w ko_font_name ko_path = true /\
    forall ko_para ja_para, (ko_para, ja_para) ∈ data ->
      fontName (para_style ko_para) = ko_font_name /\
      fontName (para_style ja_para) = py "IPAexGothic".
Proof.
  intros (font_events & ko_font_name & ko_entries & ja_entries & aligned &
          Hfonts & _ & _ & _ & -> & -> & _ & Hrun)%run_build_inv.
  apply register_fonts_registered in Hfonts as (ja_path & ko_path & -> & Hja & Hko).
  exists ja_path, ko_path, ko_font_name. eexists. rewrite Hrun. cbn [fst app].
  split_and!; [done| |done|done|].
  - rewrite !elem_of_cons. auto 10.
  - intros ko_para ja_para. rewrite table_data_fmap.
    intros ([[timecode ko_text] ja_text] & [= -> ->] & _)%list_elem_of_fmap. done.
Qed.

Lemma run_fonts_registered_witness :
  exists data rest,
    (run example_world (py "ko.srt") (py "ja.srt") (py "out.pdf")).1 =
      RegisterFont (py "IPAexGothic") (py "/app/ipaexg.ttf") ::
      RegisterFont (py "NanumGothic") (py "/app/NanumGothic.ttf") :: rest /\
    Build (py "out.pdf") data ∈ rest /\
    forall ko_para ja_para, (ko_para, ja_para) ∈ data ->
      fontName (para_style ko_para) = py "NanumGothic" /\
      fontName (para_style ja_para) = py "IPAexGothic".
Proof.
  set (aligned := [(py "00:00:01,000", py "<i>a</i>", py "x")] : list row).
  set (data := table_data (py "NanumGothic") aligned).
  assert (Build (py "out.pdf") data ∈
          (run example_world (py "ko.srt") (py "ja.srt") (py "out.pdf")).1) as Hin.
  { by apply (list_elem_of_lookup_2 _ 8%nat). }
  destruct (run_fonts_registered _ _ _ _ _ _ Hin)
    as (ja_path & ko_path & ko_font_name & rest & Hrun & Hrest & _ & _ & Hdata).
  exists data, rest. pose proof Hrun as Hrun'. vm_compute in Hrun'.
  injection Hrun' as <- <- <- _. split_and!; [exact Hrun|exact Hrest|exact Hdata].
Defined.

(** ** Further examples *)

(** The first tag of [<<i>>] ends at the first [>]; the [>] left over is
    no tag. *)
Lemma remove_tags_no_tag_witness :
  remove_tags (py "<<i>>") = py ">" /\
  remove_tags (remove_tags (py "<<i>>")) = remove_tags (py "<<i>>") /\
  remove_tags (py "<<i>>") <> [] ++ [c_lt] ++ py "i" ++ [c_gt] ++ [].
Proof.
  destruct (remove_tags_no_tag (py "<<i>>")) as [Hno Hagain].
  split_and!; [done|exact Hagain|].
  apply Hno; [done|]. by apply not_elem_of_py.
Defined.


(** A subtitle file whose first time code has an hours field of 4301
    digits is parsed, and [run] raises from [align_subtitles] with the
    progress at 50. *)
Example run_digit_limit :
  let long := replicate 4301 c_zero ++ py ":00:01,000" in
  let w :=
    World (meipass example_world) (abspath_here example_world)
      (path_join example_world) (font_loads example_world)
      (fun path =>
         if bool_decide (path = py "long.srt") then
           Some (py "1" ++ [c_nl] ++ long ++ py " --> 00:00:02,000" ++
                 [c_nl] ++ py "a")
         else read_file example_world path)
      (builds example_world) in
  parse_srt (read_file w (py "long.srt")) = Some [(long, py "a")] /\
  run w (py "long.srt") (py "ja.srt") (py "out.pdf") =
    ([RegisterFont (py "IPAexGothic") (py "/app/ipaexg.ttf");
      RegisterFont (py "NanumGothic") (py "/app/NanumGothic.ttf");
      SetProgress 20; UpdateIdletasks; SetProgress 50; UpdateIdletasks],
     Raised).
Proof. by vm_compute. Qed.
